(** * Four-bin carousel firmware: motion-and-safety state machine

    Shallow embedding of the Arduino sketches of the bin carousel (stepper
    driver, index switch, break-beam gate, ultrasonic inventory sensor and
    deferred command queue) and proofs about homing, bin navigation, the gate
    state machine, the inventory pipeline and the queue drain.

    The sketch with the command queue is the reference; the sketch
    [ESP32_InventoryOutputs.ino] differs in [homeRoutine] (it also clears the
    queue), in [runInventorySequence] (it prints the CSV log line) and in
    [loop] (no poll of the E-stop byte at the top).  Both are covered through
    the [Sketch] parameter. *)

From Stdlib Require Import ZArith List Bool String Ascii Lia.
From Stdlib Require Import QArith Qround.
From Stdlib Require Import Sorting.Permutation Sorting.Sorted.
From Stdlib Require Import Floats.SpecFloat.
From Stdlib Require Import DecimalString.
Import ListNotations.
Open Scope Z_scope.

(* ================================================================== *)
(** ** Machine arithmetic *)

(** [unsigned long] on the target is 32 bits wide: [millis()] and every
    difference of two time stamps wrap modulo 2^32. *)
Definition u32 (z : Z) : Z := z mod 2 ^ 32.

(** [int] is 32 bits wide, two's complement. *)
Definition i32 (z : Z) : Z := (z + 2 ^ 31) mod 2 ^ 32 - 2 ^ 31.

(** C's [%] truncates towards zero. *)
Definition c_rem (a b : Z) : Z := Z.rem a b.

(** IEEE-754 binary32 ([float]) and binary64 ([double]) values, with the
    correctly rounded operations of the standard library's specification of
    floating-point numbers. *)
Module F32.
Definition prec := 24.
Definition emax := 128.
Definition t := spec_float.
Definition of_Z (n : Z) : t := binary_normalize prec emax n 0 false.
Definition add : t -> t -> t := SFadd prec emax.
Definition mul : t -> t -> t := SFmul prec emax.
Definition div : t -> t -> t := SFdiv prec emax.
Definition ltb : t -> t -> bool := SFltb.
Definition isnan (x : t) : bool :=
  match x with S754_nan => true | _ => false end.
Definition NAN : t := S754_nan.
(** A decimal literal [num/den] with the suffix [f]: the nearest binary32
    value, which is what the correctly rounded quotient gives. *)
Definition lit (num den : Z) : t := div (of_Z num) (of_Z den).
(** Conversion to an integer type, [(long)x]: truncation towards zero. *)
Definition to_Z (x : t) : Z :=
  match x with
  | S754_finite s m e =>
      let v := if 0 <=? e then Zpos m * 2 ^ e else Zpos m / 2 ^ (- e) in
      if s then - v else v
  | _ => 0
  end.
End F32.

Module F64.
Definition prec := 53.
Definition emax := 1024.
Definition t := spec_float.
Definition of_Z (n : Z) : t := binary_normalize prec emax n 0 false.
Definition add : t -> t -> t := SFadd prec emax.
Definition div : t -> t -> t := SFdiv prec emax.
(** [(double)x] for a [float] x: exact. *)
Definition of_F32 (x : F32.t) : t :=
  match x with
  | S754_finite s m e => binary_normalize prec emax (cond_Zopp s (Zpos m)) e s
  | _ => x
  end.
(** [(float)x] for a [double] x: rounded to nearest, ties to even. *)
Definition to_F32 (x : t) : F32.t :=
  match x with
  | S754_finite s m e =>
      binary_normalize F32.prec F32.emax (cond_Zopp s (Zpos m)) e s
  | _ => x
  end.
End F64.

(** [qsort(base, n, size, cmp)]: the library sort, driven by the comparator
    of the caller.  Any sorting algorithm yields the same array up to the
    order of elements the comparator calls equal; insertion is used here. *)
Section Qsort.
Context {A : Type} (cmp : A -> A -> Z).

Fixpoint qsort_insert (x : A) (l : list A) : list A :=
  match l with
  | [] => [x]
  | y :: l' => if cmp x y <=? 0 then x :: l else y :: qsort_insert x l'
  end.

Fixpoint qsort (l : list A) : list A :=
  match l with
  | [] => []
  | x :: l' => qsort_insert x (qsort l')
  end.
End Qsort.

Definition cmpLong (a b : Z) : Z :=
  if a <? b then -1 else if b <? a then 1 else 0.

Definition cmpFloat (a b : F32.t) : Z :=
  if F32.ltb a b then -1 else if F32.ltb b a then 1 else 0.

(* ================================================================== *)
(** ** Pin / hardware configuration and tuning constants *)

Definition LOW := false.
Definition HIGH := true.

Definition INDEX_ACTIVE_LEVEL := LOW.
Definition BEAM_ACTIVE_LOW := true.
Definition BEAM_DEBOUNCE_MS := 20.
Definition BEAM_ARM_DELAY_MS := 2000.
Definition EN_ACTIVE_LOW := true.

Definition MICROSTEP := 8.
Definition FULL_STEPS_PER_REV := 200.
Definition STEPS_PER_REV := FULL_STEPS_PER_REV * MICROSTEP.

Definition SEEK_DELAY_US := 1500.
Definition OFFSET_DELAY_US := 1500.
Definition APPROACH_DELAY_US := 2600.
Definition APPROACH_WINDOW_STEPS := 140.
Definition CCW_DIR_LEVEL := LOW.

Definition PRESS_CONFIRM_POLLS := 5.
Definition RELEASE_CONFIRM_POLLS := 7.

Definition MAX_STEPS_TO_FIND_INDEX := STEPS_PER_REV * 3.
Definition POST_HIT_ESCAPE_STEPS := 30.

Definition TRIM_DEG : F32.t := SFopp (F32.of_Z 18).
Definition ENCODER_GAP_RATIO : F32.t := F32.lit 60 100.
Definition HOME_SAMPLE_EVENTS := 10.

Definition US_WINDOW_MS := 4000.
Definition US_PING_PERIOD_MS := 25.
Definition US_ECHO_TIMEOUT_US := 12000.
Definition US_BLOCK_SIZE := 7.
Definition US_TRIM_FRACTION : F32.t := F32.lit 20 100.

Definition INVENTORY_THRESH_CM : F32.t := F32.of_Z 12.

(** The two sketches that carry the deferred command queue. *)
Inductive Sketch := CommandQueue | InventoryOutputs.

Definition INDEX_TO_STOP_DEG (v : Sketch) : F32.t :=
  match v with
  | CommandQueue => F32.of_Z 31
  | InventoryOutputs => F32.of_Z 31
  end.

Definition PRINT_INV_LOG_LINE := true.

(* ================================================================== *)
(** ** The world outside the program

    Every read of an input is answered by the environment; the k-th read of
    a port gets the k-th answer.  Delays ([delay], [delayMicroseconds]) only
    let time pass, which shows in the answers of the clock. *)

Record Env := mkEnv {
  index_pin : nat -> bool;       (* level of INDEX_PIN at its k-th read *)
  beam_pin : nat -> bool;        (* level of BEAM_PIN at its k-th read *)
  clock_ms : nat -> Z;           (* k-th answer of millis() *)
  serial_rx : nat -> list ascii; (* bytes waiting at the k-th E-stop poll *)
  echo_us : nat -> Z;            (* echo width measured by the k-th ping *)
  cmd_line : nat -> option string (* line completed at the k-th loop pass *)
}.

(** What is written to the serial port, one item per [Serial.print] call. *)
Inductive Tok :=
| Txt (s : string)
| Num (z : Z)
| Flt (x : F32.t) (digits : Z)
| NL.

(** The line feed that starts some of the messages. *)
Definition LF : string := String (ascii_of_nat 10) EmptyString.

Inductive OutPin := PUL_PIN | DIR_PIN | EN_PIN | TRIG_PIN.

Record Hw := mkHw {
  pul_level : bool;
  dir_level : bool;
  en_level : bool;
  trig_level : bool;
  step_edges : Z;     (* rising edges on PUL_PIN: microsteps commanded *)
  out : list Tok;     (* serial output, oldest first *)
  index_reads : nat;
  beam_reads : nat;
  clock_reads : nat;
  serial_polls : nat;
  echo_reads : nat;
  line_reads : nat
}.

(** Navigation globals.  [moveOneBinCalls] is instrumentation, not a
    variable of the sketch: it counts the entries into [moveOneBin]. *)
Record Nav := mkNav {
  homed : bool;
  currentBin : Z;
  encoderGapThresholdSteps : Z;
  lastSelectedBin : Z;
  moveOneBinCalls : Z
}.

Record Gate := mkGate {
  beamStableBlocked : bool;
  beamLastRawBlocked : bool;
  beamLastChangeMs : Z;
  gateLockout : bool;
  gateOpenedAtMs : Z;
  inventoryPending : bool
}.

Record Queue := mkQueue {
  inventoryRequested : bool;
  binRequested : bool;
  requestedBin : Z
}.

Record State := mkState {
  world : Env;
  estop : bool;
  nav : Nav;
  gate : Gate;
  queue : Queue;
  hw : Hw
}.

(** Field updates. *)
Definition set_estop (b : bool) (s : State) : State :=
  mkState (world s) b (nav s) (gate s) (queue s) (hw s).
Definition upd_nav (f : Nav -> Nav) (s : State) : State :=
  mkState (world s) (estop s) (f (nav s)) (gate s) (queue s) (hw s).
Definition upd_gate (f : Gate -> Gate) (s : State) : State :=
  mkState (world s) (estop s) (nav s) (f (gate s)) (queue s) (hw s).
Definition upd_queue (f : Queue -> Queue) (s : State) : State :=
  mkState (world s) (estop s) (nav s) (gate s) (f (queue s)) (hw s).
Definition upd_hw (f : Hw -> Hw) (s : State) : State :=
  mkState (world s) (estop s) (nav s) (gate s) (queue s) (f (hw s)).

Definition set_homed (b : bool) (n : Nav) : Nav :=
  mkNav b (currentBin n) (encoderGapThresholdSteps n) (lastSelectedBin n)
        (moveOneBinCalls n).
Definition set_currentBin (z : Z) (n : Nav) : Nav :=
  mkNav (homed n) z (encoderGapThresholdSteps n) (lastSelectedBin n)
        (moveOneBinCalls n).
Definition set_encoderGapThresholdSteps (z : Z) (n : Nav) : Nav :=
  mkNav (homed n) (currentBin n) z (lastSelectedBin n) (moveOneBinCalls n).
Definition set_lastSelectedBin (z : Z) (n : Nav) : Nav :=
  mkNav (homed n) (currentBin n) (encoderGapThresholdSteps n) z
        (moveOneBinCalls n).
Definition count_moveOneBin (n : Nav) : Nav :=
  mkNav (homed n) (currentBin n) (encoderGapThresholdSteps n)
        (lastSelectedBin n) (moveOneBinCalls n + 1).

Definition set_beamStableBlocked (b : bool) (g : Gate) : Gate :=
  mkGate b (beamLastRawBlocked g) (beamLastChangeMs g) (gateLockout g)
         (gateOpenedAtMs g) (inventoryPending g).
Definition set_beamLastRawBlocked (b : bool) (g : Gate) : Gate :=
  mkGate (beamStableBlocked g) b (beamLastChangeMs g) (gateLockout g)
         (gateOpenedAtMs g) (inventoryPending g).
Definition set_beamLastChangeMs (z : Z) (g : Gate) : Gate :=
  mkGate (beamStableBlocked g) (beamLastRawBlocked g) z (gateLockout g)
         (gateOpenedAtMs g) (inventoryPending g).
Definition set_gateLockout (b : bool) (g : Gate) : Gate :=
  mkGate (beamStableBlocked g) (beamLastRawBlocked g) (beamLastChangeMs g) b
         (gateOpenedAtMs g) (inventoryPending g).
Definition set_gateOpenedAtMs (z : Z) (g : Gate) : Gate :=
  mkGate (beamStableBlocked g) (beamLastRawBlocked g) (beamLastChangeMs g)
         (gateLockout g) z (inventoryPending g).
Definition set_inventoryPending (b : bool) (g : Gate) : Gate :=
  mkGate (beamStableBlocked g) (beamLastRawBlocked g) (beamLastChangeMs g)
         (gateLockout g) (gateOpenedAtMs g) b.

Definition set_inventoryRequested (b : bool) (q : Queue) : Queue :=
  mkQueue b (binRequested q) (requestedBin q).
Definition set_binRequested (b : bool) (q : Queue) : Queue :=
  mkQueue (inventoryRequested q) b (requestedBin q).
Definition set_requestedBin (z : Z) (q : Queue) : Queue :=
  mkQueue (inventoryRequested q) (binRequested q) z.

Definition hw_write (p : OutPin) (level : bool) (h : Hw) : Hw :=
  match p with
  | PUL_PIN =>
      mkHw level (dir_level h) (en_level h) (trig_level h)
           (if level && negb (pul_level h) then step_edges h + 1
            else step_edges h)
           (out h) (index_reads h) (beam_reads h) (clock_reads h)
           (serial_polls h) (echo_reads h) (line_reads h)
  | DIR_PIN =>
      mkHw (pul_level h) level (en_level h) (trig_level h) (step_edges h)
           (out h) (index_reads h) (beam_reads h) (clock_reads h)
           (serial_polls h) (echo_reads h) (line_reads h)
  | EN_PIN =>
      mkHw (pul_level h) (dir_level h) level (trig_level h) (step_edges h)
           (out h) (index_reads h) (beam_reads h) (clock_reads h)
           (serial_polls h) (echo_reads h) (line_reads h)
  | TRIG_PIN =>
      mkHw (pul_level h) (dir_level h) (en_level h) level (step_edges h)
           (out h) (index_reads h) (beam_reads h) (clock_reads h)
           (serial_polls h) (echo_reads h) (line_reads h)
  end.

Definition hw_emit (t : Tok) (h : Hw) : Hw :=
  mkHw (pul_level h) (dir_level h) (en_level h) (trig_level h) (step_edges h)
       (out h ++ [t]) (index_reads h) (beam_reads h) (clock_reads h)
       (serial_polls h) (echo_reads h) (line_reads h).

Inductive Port := IndexPort | BeamPort | ClockPort | SerialPort | EchoPort
                | LinePort.

Definition hw_next (p : Port) (h : Hw) : Hw :=
  mkHw (pul_level h) (dir_level h) (en_level h) (trig_level h) (step_edges h)
       (out h)
       (match p with IndexPort => S (index_reads h) | _ => index_reads h end)
       (match p with BeamPort => S (beam_reads h) | _ => beam_reads h end)
       (match p with ClockPort => S (clock_reads h) | _ => clock_reads h end)
       (match p with SerialPort => S (serial_polls h) | _ => serial_polls h end)
       (match p with EchoPort => S (echo_reads h) | _ => echo_reads h end)
       (match p with LinePort => S (line_reads h) | _ => line_reads h end).

(* ================================================================== *)
(** ** Program monad: state passing, [None] when the iteration budget of an
    unbounded loop is used up *)

Definition M (A : Type) := State -> option (A * State).

Definition ret {A} (a : A) : M A := fun s => Some (a, s).

Definition bind {A B} (m : M A) (k : A -> M B) : M B :=
  fun s => match m s with
           | Some (a, s1) => k a s1
           | None => None
           end.

Definition out_of_fuel {A} : M A := fun _ => None.
Definition gets {A} (f : State -> A) : M A := fun s => Some (f s, s).
Definition modify (f : State -> State) : M unit := fun s => Some (tt, f s).

Declare Scope prog_scope.
Delimit Scope prog_scope with prog.
Notation "x <- c1 ;; c2" := (bind c1 (fun x => c2))
  (at level 61, c1 at next level, right associativity) : prog_scope.
Notation "' pat <- c1 ;; c2" :=
  (bind c1 (fun x => match x with pat => c2 end))
  (at level 61, pat pattern, c1 at next level, right associativity)
  : prog_scope.
Notation "c1 ;; c2" := (bind c1 (fun _ => c2))
  (at level 61, right associativity) : prog_scope.
Open Scope prog_scope.

(** Arduino core, as far as the sketch uses it. *)
Definition digitalWrite (p : OutPin) (level : bool) : M unit :=
  modify (upd_hw (hw_write p level)).

Definition print (t : Tok) : M unit := modify (upd_hw (hw_emit t)).
Definition println (t : Tok) : M unit := print t ;; print NL.

Definition digitalRead_INDEX : M bool :=
  fun s => Some (index_pin (world s) (index_reads (hw s)),
                 upd_hw (hw_next IndexPort) s).

Definition digitalRead_BEAM : M bool :=
  fun s => Some (beam_pin (world s) (beam_reads (hw s)),
                 upd_hw (hw_next BeamPort) s).

Definition millis : M Z :=
  fun s => Some (u32 (clock_ms (world s) (clock_reads (hw s))),
                 upd_hw (hw_next ClockPort) s).

(** [pulseIn(ECHO_PIN, HIGH, timeout)]: the width of the echo pulse, or 0
    when none completes within the timeout. *)
Definition pulseIn_ECHO (timeout : Z) : M Z :=
  fun s => let w := u32 (echo_us (world s) (echo_reads (hw s))) in
           Some (if w <? timeout then w else 0,
                 upd_hw (hw_next EchoPort) s).

(** All bytes waiting in the receive buffer, which the caller consumes. *)
Definition Serial_drain : M (list ascii) :=
  fun s => Some (serial_rx (world s) (serial_polls (hw s)),
                 upd_hw (hw_next SerialPort) s).

(* ================================================================== *)
(** ** Helpers *)

Definition enableDriver (on : bool) : M unit :=
  let level := if EN_ACTIVE_LOW then negb on else on in
  digitalWrite EN_PIN (if level then HIGH else LOW).

Definition indexPressedRaw : M bool :=
  v <- digitalRead_INDEX ;;
  ret (Bool.eqb v INDEX_ACTIVE_LEVEL).

Definition is_estop_byte (c : ascii) : bool :=
  (Ascii.eqb c "e" || Ascii.eqb c "E")%char.

Definition pollEstop : M unit :=
  bytes <- Serial_drain ;;
  if existsb is_estop_byte bytes then modify (set_estop true) else ret tt.

Definition stepPulseChecked (delayUs : Z) : M bool :=
  pollEstop ;;
  e <- gets estop ;;
  if e then ret false else
  digitalWrite PUL_PIN HIGH ;;
  digitalWrite PUL_PIN LOW ;;
  pollEstop ;;
  e' <- gets estop ;;
  ret (negb e').

Fixpoint confirm_polls (want : bool) (n : nat) (ok : Z) : M Z :=
  match n with
  | O => ret ok
  | S n' =>
      p <- indexPressedRaw ;;
      confirm_polls want n' (if Bool.eqb p want then ok + 1 else 0)
  end.

Definition confirmPressed : M bool :=
  ok <- confirm_polls true (Z.to_nat PRESS_CONFIRM_POLLS) 0 ;;
  ret (PRESS_CONFIRM_POLLS <=? ok).

Definition confirmReleased : M bool :=
  ok <- confirm_polls false (Z.to_nat RELEASE_CONFIRM_POLLS) 0 ;;
  ret (RELEASE_CONFIRM_POLLS <=? ok).

Definition beamBlockedRaw : M bool :=
  v <- digitalRead_BEAM ;;
  ret (if BEAM_ACTIVE_LOW then Bool.eqb v LOW else Bool.eqb v HIGH).

(** [degToSteps]: the angle is first brought into [0, 360); the two loops
    run at most [turns] times each. *)
Fixpoint deg_up (turns : nat) (deg : F32.t) : F32.t :=
  match turns with
  | O => deg
  | S k => if F32.ltb deg (F32.of_Z 0)
           then deg_up k (F32.add deg (F32.of_Z 360)) else deg
  end.

Fixpoint deg_down (turns : nat) (deg : F32.t) : F32.t :=
  match turns with
  | O => deg
  | S k => if SFleb (F32.of_Z 360) deg
           then deg_down k (F32.add deg (SFopp (F32.of_Z 360))) else deg
  end.

Definition degToSteps (deg : F32.t) : Z :=
  let deg := deg_down 4 (deg_up 4 deg) in
  F32.to_Z (F32.add (F32.mul (F32.div deg (F32.of_Z 360))
                             (F32.of_Z STEPS_PER_REV))
                    (F32.lit 1 2)).

Fixpoint stepCCW_pulses (n : nat) (delayUs : Z) : M bool :=
  match n with
  | O => enableDriver false ;; ret true
  | S n' =>
      ok <- stepPulseChecked delayUs ;;
      if ok then stepCCW_pulses n' delayUs
      else enableDriver false ;; ret false
  end.

Definition stepCCW (n : Z) (delayUs : Z) : M bool :=
  digitalWrite DIR_PIN CCW_DIR_LEVEL ;;
  enableDriver true ;;
  stepCCW_pulses (Z.to_nat n) delayUs.

(* ================================================================== *)
(** ** Seek the next fresh press event, with the slow approach profile *)

(** Iteration budget of the guarded loops: the guard counter trips first. *)
Definition seek_fuel : nat := S (Z.to_nat MAX_STEPS_TO_FIND_INDEX).

(** [while (!confirmReleased()) { pulse; stepsMoved++; guard check }],
    used before the seek and again after the hit. *)
Fixpoint seek_until_released (fuel : nat) (delayUs stepsMoved guard : Z)
  : M (bool * Z) :=
  match fuel with
  | O => out_of_fuel
  | S fuel' =>
      rel <- confirmReleased ;;
      if rel then ret (true, stepsMoved) else
      ok <- stepPulseChecked delayUs ;;
      if negb ok then (enableDriver false ;; ret (false, stepsMoved)) else
      let stepsMoved := stepsMoved + 1 in
      let guard := guard + 1 in
      if MAX_STEPS_TO_FIND_INDEX <? guard
      then (enableDriver false ;; ret (false, stepsMoved))
      else seek_until_released fuel' delayUs stepsMoved guard
  end.

Fixpoint seek_escape (n : nat) (stepsMoved : Z) : M (bool * Z) :=
  match n with
  | O => ret (true, stepsMoved)
  | S n' =>
      ok <- stepPulseChecked APPROACH_DELAY_US ;;
      if negb ok then (enableDriver false ;; ret (false, stepsMoved))
      else seek_escape n' (stepsMoved + 1)
  end.

Fixpoint seek_until_pressed (fuel : nat)
                            (stepsMoved guard approachCountdown : Z)
  : M (bool * Z) :=
  match fuel with
  | O => out_of_fuel
  | S fuel' =>
      p <- indexPressedRaw ;;
      let approachCountdown :=
        if p then APPROACH_WINDOW_STEPS else approachCountdown in
      let useDelay :=
        if 0 <? approachCountdown then APPROACH_DELAY_US
        else SEEK_DELAY_US in
      ok <- stepPulseChecked useDelay ;;
      if negb ok then (enableDriver false ;; ret (false, stepsMoved)) else
      let stepsMoved := stepsMoved + 1 in
      let guard := guard + 1 in
      if MAX_STEPS_TO_FIND_INDEX <? guard
      then (enableDriver false ;; ret (false, stepsMoved)) else
      let approachCountdown :=
        if 0 <? approachCountdown then approachCountdown - 1
        else approachCountdown in
      hit <- confirmPressed ;;
      if hit then
        '(ok, stepsMoved) <-
           seek_escape (Z.to_nat POST_HIT_ESCAPE_STEPS) stepsMoved ;;
        if negb ok then ret (false, stepsMoved) else
        '(ok, stepsMoved) <-
           seek_until_released seek_fuel APPROACH_DELAY_US stepsMoved 0 ;;
        if negb ok then ret (false, stepsMoved) else
        enableDriver false ;;
        ret (true, stepsMoved)
      else seek_until_pressed fuel' stepsMoved guard approachCountdown
  end.

(** Returns the success flag and the final value of [stepsMoved]. *)
Definition seekNextPressEventCCW : M (bool * Z) :=
  digitalWrite DIR_PIN CCW_DIR_LEVEL ;;
  enableDriver true ;;
  '(ok, stepsMoved) <-
     seek_until_released seek_fuel SEEK_DELAY_US 0 0 ;;
  if negb ok then ret (false, stepsMoved) else
  seek_until_pressed seek_fuel stepsMoved 0 0.

Definition applyIndexOffset (v : Sketch) : M bool :=
  let offsetSteps := degToSteps (F32.add (INDEX_TO_STOP_DEG v) TRIM_DEG) in
  if 0 <? offsetSteps then stepCCW offsetSteps OFFSET_DELAY_US
  else ret true.

(* ================================================================== *)
(** ** Ultrasonic *)

Definition pingDistanceCm : M F32.t :=
  digitalWrite TRIG_PIN LOW ;;
  digitalWrite TRIG_PIN HIGH ;;
  digitalWrite TRIG_PIN LOW ;;
  duration <- pulseIn_ECHO US_ECHO_TIMEOUT_US ;;
  if duration =? 0 then ret F32.NAN else
  ret (F32.div (F32.mul (F32.of_Z duration) (F32.lit 343 10000))
               (F32.of_Z 2)).

(** [while (count < US_BLOCK_SIZE)]: the samples kept so far are [s], and
    [count] is their number; [None] is the early [return NAN]. *)
Fixpoint median_collect (fuel : nat) (s : list F32.t)
  : M (option (list F32.t)) :=
  match fuel with
  | O => out_of_fuel
  | S fuel' =>
      if Z.of_nat (List.length s) <? US_BLOCK_SIZE then
        pollEstop ;;
        e <- gets estop ;;
        if e then ret None else
        d <- pingDistanceCm ;;
        median_collect fuel' (if F32.isnan d then s else s ++ [d])
      else ret (Some s)
  end.

Definition medianOfBlockCm (fuel : nat) : M F32.t :=
  r <- median_collect fuel [] ;;
  match r with
  | None => ret F32.NAN
  | Some s =>
      ret (nth (Z.to_nat (US_BLOCK_SIZE / 2)) (qsort cmpFloat s) F32.NAN)
  end.

Definition MAX_BLOCKS : Z :=
  US_WINDOW_MS / (US_BLOCK_SIZE * US_PING_PERIOD_MS) + 10.

(** The window loop.  It yields the medians kept so far and whether it ran
    to its end ([true]) or left by the early [return NAN] on E-stop
    ([false]). *)
Fixpoint robust_collect (fuel n : nat) (t0 : Z) (meds : list F32.t)
  : M (bool * list F32.t) :=
  match n with
  | O => out_of_fuel
  | S n' =>
      now <- millis ;;
      if u32 (now - t0) <? US_WINDOW_MS then
        pollEstop ;;
        e <- gets estop ;;
        if e then ret (false, meds) else
        m <- medianOfBlockCm fuel ;;
        let meds := if F32.isnan m then meds else meds ++ [m] in
        if MAX_BLOCKS <=? Z.of_nat (List.length meds) then ret (true, meds)
        else robust_collect fuel n' t0 meds
      else ret (true, meds)
  end.

(** [for (int i = trim; i < mCount - trim; i++) { sum += meds[i]; used++; }]
    with [n] iterations left. *)
Fixpoint sum_loop (meds : list F32.t) (n : nat) (i : Z)
                  (sum : F64.t) (used : Z) : F64.t * Z :=
  match n with
  | O => (sum, used)
  | S n' =>
      sum_loop meds n' (i + 1)
               (F64.add sum (F64.of_F32 (nth (Z.to_nat i) meds F32.NAN)))
               (used + 1)
  end.

Definition trim_count (mCount : Z) : Z :=
  let trim :=
    F32.to_Z (F32.add (F32.mul (F32.of_Z mCount) US_TRIM_FRACTION)
                      (F32.lit 1 2)) in
  if mCount <=? trim * 2 then Z.quot (mCount - 1) 2 else trim.

(** The part of [readRobustDistance4sCm] after the window loop. *)
Definition robust_reduce (meds : list F32.t) : F32.t :=
  let mCount := Z.of_nat (List.length meds) in
  if mCount <? 5 then F32.NAN else
  let meds := qsort cmpFloat meds in
  let trim := trim_count mCount in
  let '(sum, used) :=
    sum_loop meds (Z.to_nat (mCount - trim - trim)) trim
             (S754_zero false) 0 in
  if used <=? 0 then F32.NAN
  else F64.to_F32 (F64.div sum (F64.of_Z used)).

Definition readRobustDistance4sCm (fuel : nat) : M F32.t :=
  t0 <- millis ;;
  '(finished, meds) <- robust_collect fuel fuel t0 [] ;;
  if negb finished then ret F32.NAN else ret (robust_reduce meds).

(* ================================================================== *)
(** ** Homing routine *)

(** The sampling loop; [None] is [return false]. *)
Fixpoint home_sample (n : nat) (gaps : list Z) : M (option (list Z)) :=
  match n with
  | O => ret (Some gaps)
  | S n' =>
      '(ok, g) <- seekNextPressEventCCW ;;
      if negb ok then ret None else home_sample n' (gaps ++ [g])
  end.

Definition gap_threshold (normalGap : Z) : Z :=
  F32.to_Z (F32.add (F32.mul (F32.of_Z normalGap) ENCODER_GAP_RATIO)
                    (F32.lit 1 2)).

Definition normal_gap (gaps : list Z) : Z :=
  nth (Z.to_nat (HOME_SAMPLE_EVENTS / 2)) (qsort cmpLong gaps) 0.

(** The final [while (true)] scan for a short gap. *)
Fixpoint home_scan (v : Sketch) (fuel : nat) : M bool :=
  match fuel with
  | O => out_of_fuel
  | S fuel' =>
      '(ok, g) <- seekNextPressEventCCW ;;
      if negb ok then ret false else
      thr <- gets (fun s => encoderGapThresholdSteps (nav s)) ;;
      if g <? thr then
        print (Txt "Detected SHORT gap = ") ;; println (Num g) ;;
        println (Txt "encoder -> REAL notch. Using REAL notch as BIN0 reference.") ;;
        ok <- applyIndexOffset v ;;
        if negb ok then ret false else
        modify (upd_nav (set_currentBin 0)) ;;
        modify (upd_nav (set_homed true)) ;;
        modify (upd_nav (set_lastSelectedBin 0)) ;;
        println (Txt "Homing complete. Now at BIN0.") ;;
        ret true
      else home_scan v fuel'
  end.

(** The assignments at the top of [homeRoutine]. *)
Definition home_reset (v : Sketch) : M unit :=
  modify (set_estop false) ;;
  modify (upd_nav (set_homed false)) ;;
  modify (upd_nav (set_currentBin (-1))) ;;
  modify (upd_nav (set_encoderGapThresholdSteps 0)) ;;
  match v with
  | CommandQueue => ret tt
  | InventoryOutputs =>
      modify (upd_queue (set_inventoryRequested false)) ;;
      modify (upd_queue (set_binRequested false)) ;;
      modify (upd_queue (set_requestedBin (-1)))
  end.

Definition homeRoutine (v : Sketch) (fuel : nat) : M bool :=
  println (Txt (LF ++ "=== HOMING ROUTINE ===")) ;;
  println (Txt "Rotating CCW to find unique double-press (encoder then real notch)...") ;;
  println (Txt "(type 'e' to stop)") ;;
  home_reset v ;;
  '(ok, moved) <- seekNextPressEventCCW ;;
  if negb ok then ret false else
  r <- home_sample (Z.to_nat HOME_SAMPLE_EVENTS) [] ;;
  match r with
  | None => ret false
  | Some gaps =>
      let normalGap := normal_gap gaps in
      modify (upd_nav (set_encoderGapThresholdSteps
                         (gap_threshold normalGap))) ;;
      print (Txt "Estimated normal gap = ") ;; println (Num normalGap) ;;
      print (Txt "Homing threshold (short gap) = ") ;;
      thr <- gets (fun s => encoderGapThresholdSteps (nav s)) ;;
      println (Num thr) ;;
      println (Txt "Now scanning until a short gap is detected...") ;;
      home_scan v fuel
  end.

(* ================================================================== *)
(** ** Normal move one bin *)

Definition moveOneBin (v : Sketch) : M bool :=
  modify (upd_nav count_moveOneBin) ;;
  h <- gets (fun s => homed (nav s)) ;;
  if negb h then
    (println (Txt "ERROR: Not homed. Use 'h' first.") ;; ret false)
  else
  cur <- gets (fun s => currentBin (nav s)) ;;
  if cur =? 3 then
    '(ok, _) <- seekNextPressEventCCW ;;
    if negb ok then ret false else
    println (Txt "Hitting Encoder notch (ignored)") ;;
    '(ok, _) <- seekNextPressEventCCW ;;
    if negb ok then ret false else
    println (Txt "Hitting REAL notch for BIN0") ;;
    ok <- applyIndexOffset v ;;
    if negb ok then ret false else
    modify (upd_nav (set_currentBin 0)) ;;
    ret true
  else
    '(ok, _) <- seekNextPressEventCCW ;;
    if negb ok then ret false else
    ok <- applyIndexOffset v ;;
    if negb ok then ret false else
    cur <- gets (fun s => currentBin (nav s)) ;;
    modify (upd_nav (set_currentBin (i32 (cur + 1)))) ;;
    ret true.

Fixpoint moveBins_loop (v : Sketch) (n : nat) : M bool :=
  match n with
  | O => ret true
  | S n' =>
      ok <- moveOneBin v ;;
      if negb ok then ret false else moveBins_loop v n'
  end.

Definition moveBins (v : Sketch) (n : Z) : M bool :=
  moveBins_loop v (Z.to_nat n).

(** Move from [currentBin] to [targetBin] using CCW-only minimal steps. *)
Definition moveToBin (v : Sketch) (targetBin : Z) : M bool :=
  h <- gets (fun s => homed (nav s)) ;;
  if negb h then
    (println (Txt "ERROR: Not homed. Use 'h' first.") ;; ret false)
  else
  if (targetBin <? 0) || (3 <? targetBin) then
    (println (Txt "ERROR: targetBin must be 0..3") ;; ret false)
  else
  cur <- gets (fun s => currentBin (nav s)) ;;
  let steps := c_rem (i32 (i32 (targetBin - cur) + 4)) 4 in
  if steps =? 0 then
    (print (Txt "Already at BIN") ;; println (Num targetBin) ;; ret true)
  else
  print (Txt "Moving CCW ") ;;
  print (Num steps) ;;
  print (Txt " bin(s) to BIN") ;;
  println (Num targetBin) ;;
  ok <- moveBins v steps ;;
  if negb ok then ret false else ret true.

(* ================================================================== *)
(** ** Inventory sequence *)

(** [ESP32_InventoryOutputs.ino] only: the CSV-ready log line. *)
Definition printInventoryLogLine (bin : Z) (isHI : bool) : M unit :=
  if negb PRINT_INV_LOG_LINE then ret tt else
  if (bin <? 0) || (3 <? bin) then ret tt else
  print (Txt "bin") ;;
  print (Num bin) ;;
  print (Txt ",") ;;
  print (Txt (if isHI then "HI" else "LO")) ;;
  print (Txt ",") ;;
  t <- millis ;;
  println (Num t).

(** The report of the measured distance; yields [isHI]. *)
Definition report_distance (d : F32.t) : M bool :=
  if F32.isnan d then
    println (Txt "LO") ;;
    println (Txt "(Distance(cm) = NAN)") ;;
    ret false
  else
    let isHI := F32.ltb d INVENTORY_THRESH_CM in
    println (Txt (if isHI then "HI" else "LO")) ;;
    print (Txt "(Distance(cm) = ") ;;
    print (Flt d 3) ;;
    println (Txt ")") ;;
    ret isHI.

(** [drain] is the call of [tryRunQueuedCommands] at the end. *)
Definition runInventorySequence (v : Sketch) (fuel : nat) (drain : M unit)
  : M bool :=
  h <- gets (fun s => homed (nav s)) ;;
  if negb h then (println (Txt "ERROR: Not homed.") ;; ret false) else
  bb <- gets (fun s => beamStableBlocked (gate s)) ;;
  if bb then
    (println (Txt "ERROR: Gate is BLOCKED. Push bin fully in first.") ;;
     ret false)
  else
  ip <- gets (fun s => inventoryPending (gate s)) ;;
  if negb ip then (println (Txt "Inventory not pending.") ;; ret false) else
  l <- gets (fun s => lastSelectedBin (nav s)) ;;
  if (l <? 0) || (3 <? l) then
    (println (Txt "ERROR: Unknown lastSelectedBin.") ;; ret false)
  else
  println (Txt (LF ++ "=== INVENTORY SENSING ===")) ;;
  println (Txt "Rotating 2 bins (180 deg) to ultrasonic sensor...") ;;
  ok <- moveBins v 2 ;;
  if negb ok then ret false else
  println (Txt "Measuring distance for ~4 seconds (robust average)...") ;;
  d <- readRobustDistance4sCm fuel ;;
  e <- gets estop ;;
  if e then ret false else
  isHI <- report_distance d ;;
  match v with
  | CommandQueue => ret tt
  | InventoryOutputs =>
      l <- gets (fun s => lastSelectedBin (nav s)) ;;
      printInventoryLogLine l isHI
  end ;;
  modify (upd_gate (set_inventoryPending false)) ;;
  println (Txt "Inventory complete. You may now select another bin.") ;;
  drain ;;
  ret true.

(* ================================================================== *)
(** ** Running queued commands when allowed *)

Fixpoint tryRunQueuedCommands (v : Sketch) (fuel : nat) : M unit :=
  match fuel with
  | O => out_of_fuel
  | S fuel' =>
      e <- gets estop ;;
      if e then ret tt else
      ir <- gets (fun s => inventoryRequested (queue s)) ;;
      ip <- gets (fun s => inventoryPending (gate s)) ;;
      gl <- gets (fun s => gateLockout (gate s)) ;;
      bb <- gets (fun s => beamStableBlocked (gate s)) ;;
      if ir && (ip && negb gl && negb bb) then
        println (Txt "Auto-running queued inventory request...") ;;
        modify (upd_queue (set_inventoryRequested false)) ;;
        ok <- runInventorySequence v fuel' (tryRunQueuedCommands v fuel') ;;
        (if negb ok then println (Txt "ERROR: inventory sequence failed.")
         else ret tt) ;;
        println (Txt "Enter command:")
      else
      br <- gets (fun s => binRequested (queue s)) ;;
      if br && (negb gl && negb ip) then
        b <- gets (fun s => requestedBin (queue s)) ;;
        modify (upd_queue (set_binRequested false)) ;;
        modify (upd_queue (set_requestedBin (-1))) ;;
        print (Txt "Auto-running queued bin request: BIN") ;;
        println (Num b) ;;
        ok <- moveToBin v b ;;
        (if negb ok then println (Txt "ERROR: move to bin failed.")
         else
           modify (upd_nav (set_lastSelectedBin b)) ;;
           print (Txt "Done. Now at BIN") ;;
           cur <- gets (fun s => currentBin (nav s)) ;;
           println (Num cur)) ;;
        println (Txt "Enter command:")
      else ret tt
  end.

(* ================================================================== *)
(** ** Break-beam debounce and gate state machine *)

(** First half of [updateBeamDebounce]: raw edge tracking and the stable
    transition. *)
Definition beam_debounce : M unit :=
  raw <- beamBlockedRaw ;;
  now <- millis ;;
  last <- gets (fun s => beamLastRawBlocked (gate s)) ;;
  (if negb (Bool.eqb raw last) then
     modify (upd_gate (set_beamLastRawBlocked raw)) ;;
     modify (upd_gate (set_beamLastChangeMs now))
   else ret tt) ;;
  changed <- gets (fun s => beamLastChangeMs (gate s)) ;;
  if BEAM_DEBOUNCE_MS <=? u32 (now - changed) then
    prev <- gets (fun s => beamStableBlocked (gate s)) ;;
    modify (upd_gate (set_beamStableBlocked raw)) ;;
    if negb (Bool.eqb raw prev) then
      if raw then
        modify (upd_gate (set_gateLockout true)) ;;
        modify (upd_gate (set_gateOpenedAtMs 0)) ;;
        println (Txt "GATE: BLOCKED (bin pulled out). Locking new requests.")
      else
        modify (upd_gate (set_gateOpenedAtMs now)) ;;
        println (Txt "GATE: OPEN. Waiting 2 seconds before allowing next step...")
    else ret tt
  else ret tt.

(** Second half: when locked out and open, has the timer expired?  Yields
    [true] when the gate has just gone to "inventory pending". *)
Definition gate_rearm : M bool :=
  gl <- gets (fun s => gateLockout (gate s)) ;;
  bb <- gets (fun s => beamStableBlocked (gate s)) ;;
  opened <- gets (fun s => gateOpenedAtMs (gate s)) ;;
  if gl && negb bb && negb (opened =? 0) then
    t <- millis ;;
    if BEAM_ARM_DELAY_MS <=? u32 (t - opened) then
      modify (upd_gate (set_gateLockout false)) ;;
      modify (upd_gate (set_gateOpenedAtMs 0)) ;;
      modify (upd_gate (set_inventoryPending true)) ;;
      println (Txt "GATE: Ready. Press 'i' to perform inventory sensing.") ;;
      ret true
    else ret false
  else ret false.

Definition updateBeamDebounce (v : Sketch) (fuel : nat) : M unit :=
  beam_debounce ;;
  fired <- gate_rearm ;;
  if fired then tryRunQueuedCommands v fuel else ret tt.

(* ================================================================== *)
(** ** UI / commands *)

Definition doEstop (why : string) : M unit :=
  modify (set_estop true) ;;
  enableDriver false ;;
  print NL ;;
  print (Txt "E-STOP: ") ;;
  println (Txt why) ;;
  println (Txt "Motor disabled. Reset board to clear E-stop.").

Definition to_lower (c : ascii) : ascii :=
  let n := nat_of_ascii c in
  if (65 <=? n)%nat && (n <=? 90)%nat then ascii_of_nat (n + 32) else c.

Fixpoint equalsIgnoreCase (a b : string) : bool :=
  match a, b with
  | EmptyString, EmptyString => true
  | String ca a', String cb b' =>
      Ascii.eqb (to_lower ca) (to_lower cb) && equalsIgnoreCase a' b'
  | _, _ => false
  end.

(** [isspace] of the C library. *)
Definition is_space (c : ascii) : bool :=
  let n := nat_of_ascii c in
  (n =? 32)%nat || ((9 <=? n)%nat && (n <=? 13)%nat).

Fixpoint trim_left (s : string) : string :=
  match s with
  | String c s' => if is_space c then trim_left s' else s
  | EmptyString => EmptyString
  end.

Fixpoint trim_right (s : string) : string :=
  match s with
  | EmptyString => EmptyString
  | String c s' =>
      match trim_right s' with
      | EmptyString => if is_space c then EmptyString
                       else String c EmptyString
      | t => String c t
      end
  end.

Definition trim (s : string) : string := trim_right (trim_left s).

(** [bin0] .. [bin3], any case; the bin number on success. *)
Definition parseBinCommand (s : string) : option Z :=
  match trim s with
  | String b (String i (String n (String d EmptyString))) =>
      if Ascii.eqb (to_lower b) "b" && Ascii.eqb (to_lower i) "i"
         && Ascii.eqb (to_lower n) "n"
      then
        let k := nat_of_ascii (to_lower d) in
        if (48 <=? k)%nat && (k <=? 51)%nat
        then Some (Z.of_nat k - 48) else None
      else None
  | _ => None
  end.

(** The completed input line of this pass, if any.  The byte-wise framing
    of lines is outside the model. *)
Definition readLine : M (option string) :=
  fun s => Some (cmd_line (world s) (line_reads (hw s)),
                 upd_hw (hw_next LinePort) s).

Definition cmd_inventory (v : Sketch) (fuel : nat) : M unit :=
  modify (upd_queue (set_inventoryRequested true)) ;;
  ip <- gets (fun s => inventoryPending (gate s)) ;;
  bb <- gets (fun s => beamStableBlocked (gate s)) ;;
  gl <- gets (fun s => gateLockout (gate s)) ;;
  (if negb ip then
     if bb then println (Txt "Gate is BLOCKED. Push bin fully in first.")
     else if gl then
       println (Txt "Gate re-arming. Will run inventory when READY.")
     else println (Txt "Nothing to inventory right now.")
   else if bb then
     println (Txt "Gate is BLOCKED. Push bin fully in first.")
   else if gl then
     println (Txt "Gate re-arming. Will run inventory when READY.")
   else
     modify (upd_queue (set_inventoryRequested false)) ;;
     ok <- runInventorySequence v fuel (tryRunQueuedCommands v fuel) ;;
     if negb ok then println (Txt "ERROR: inventory sequence failed.")
     else ret tt) ;;
  println (Txt "Enter command:").

Definition cmd_bin (v : Sketch) (fuel : nat) (targetBin : Z) : M unit :=
  gl <- gets (fun s => gateLockout (gate s)) ;;
  if gl then
    modify (upd_queue (set_binRequested true)) ;;
    modify (upd_queue (set_requestedBin targetBin)) ;;
    println (Txt "GATE LOCKOUT: queued bin request. Push bin back in and wait 2 seconds.") ;;
    println (Txt "Enter command:")
  else
  ip <- gets (fun s => inventoryPending (gate s)) ;;
  if ip then
    modify (upd_queue (set_binRequested true)) ;;
    modify (upd_queue (set_requestedBin targetBin)) ;;
    println (Txt "INVENTORY REQUIRED: queued bin request. Press 'i' (or it will auto-run if already requested).") ;;
    println (Txt "Enter command:")
  else
  print (Txt "Selecting BIN") ;;
  println (Num targetBin) ;;
  ok <- moveToBin v targetBin ;;
  (if negb ok then println (Txt "ERROR: move to bin failed.")
   else
     modify (upd_nav (set_lastSelectedBin targetBin)) ;;
     print (Txt "Done. Now at BIN") ;;
     cur <- gets (fun s => currentBin (nav s)) ;;
     println (Num cur) ;;
     updateBeamDebounce v fuel ;;
     bb <- gets (fun s => beamStableBlocked (gate s)) ;;
     if bb then
       modify (upd_gate (set_gateLockout true)) ;;
       modify (upd_gate (set_gateOpenedAtMs 0)) ;;
       println (Txt "GATE: BLOCKED detected after selection. Locking new requests.")
     else ret tt) ;;
  println (Txt "Enter command:").

(** Dispatch of one trimmed, non-empty command line. *)
Definition dispatch (v : Sketch) (fuel : nat) (line : string) : M unit :=
  if equalsIgnoreCase line "e" then doEstop "user command" else
  if equalsIgnoreCase line "h" then
    println (Txt "Homing... (type 'e' to stop)") ;;
    ok <- homeRoutine v fuel ;;
    (if negb ok then println (Txt "ERROR: homing failed.") else ret tt) ;;
    println (Txt "Enter command:")
  else
  if equalsIgnoreCase line "i" then cmd_inventory v fuel else
  match parseBinCommand line with
  | Some targetBin => cmd_bin v fuel targetBin
  | None =>
      println (Txt "Unknown command. Use 'h', 'i', 'bin0..bin3', or 'e'.") ;;
      println (Txt "Enter command:")
  end.

Definition loop (v : Sketch) (fuel : nat) : M unit :=
  match v with CommandQueue => pollEstop | InventoryOutputs => ret tt end ;;
  e <- gets estop ;;
  if e then ret tt else
  updateBeamDebounce v fuel ;;
  tryRunQueuedCommands v fuel ;;
  l <- readLine ;;
  match l with
  | Some raw =>
      let line := trim raw in
      if (String.length line =? 0)%nat then println (Txt "Enter command:")
      else dispatch v fuel line
  | None =>
      match v with CommandQueue => ret tt | InventoryOutputs => pollEstop end
  end.

(* ================================================================== *)
(** ** Line input of the inventory-outputs sketch *)

(** [ESP32_InventoryOutputs.ino] reads its command line byte by byte into
    the array [cmdBuf] of [CMD_BUF_LEN] characters. *)
Definition CMD_BUF_LEN : nat := 48.

(** The characters that the line reader treats apart: CR, LF, backspace,
    DEL, and the NUL that ends a C string. *)
Definition CR : ascii := ascii_of_nat 13.
Definition NEWLINE : ascii := ascii_of_nat 10.
Definition BS : ascii := ascii_of_nat 8.
Definition DEL : ascii := ascii_of_nat 127.
Definition NUL : ascii := ascii_of_nat 0.

(** [while (Serial.peek() == '\n' || Serial.peek() == '\r') Serial.read();] *)
Fixpoint swallow_eol (rx : list ascii) : list ascii :=
  match rx with
  | c :: rx' =>
      if Ascii.eqb c NEWLINE || Ascii.eqb c CR then swallow_eol rx' else rx
  | [] => []
  end.

(** [readCommandLine]: [rx] is what waits in the receive buffer, [buf] the
    first [cmdLen] characters of [cmdBuf].  Yields whether a line is
    complete, the bytes left unread and the buffer. *)
Fixpoint readCommandLine (rx buf : list ascii)
  : bool * list ascii * list ascii :=
  match rx with
  | [] => (false, [], buf)
  | c :: rx' =>
      if Ascii.eqb c CR then readCommandLine rx' buf
      else if Ascii.eqb c NEWLINE then (true, swallow_eol rx', buf)
      else if Ascii.eqb c BS || Ascii.eqb c DEL then
        readCommandLine rx' (removelast buf)
      else if (List.length buf <? CMD_BUF_LEN - 1)%nat then
        readCommandLine rx' (buf ++ [c])
      else readCommandLine rx' buf
  end.

(** The C string that starts at a character array: up to the first NUL. *)
Fixpoint c_str (l : list ascii) : list ascii :=
  match l with
  | c :: l' => if Ascii.eqb c NUL then [] else c :: c_str l'
  | [] => []
  end.

(** A space or a tab. *)
Definition is_blank (c : ascii) : bool :=
  Ascii.eqb c " " || Ascii.eqb c (ascii_of_nat 9).

(** The first loop of [trimInPlace]: the pointer moves past the leading
    spaces and tabs. *)
Fixpoint skip_blanks (s : list ascii) : list ascii :=
  match s with
  | c :: s' => if is_blank c then skip_blanks s' else s
  | [] => []
  end.

(** The second loop: while [n > 0] and [s[n-1]] is a space or a tab, a NUL
    is written at [n-1] and [n] decremented.  Yields the final [n]. *)
Fixpoint strip_tail (n : nat) (s : list ascii) : nat :=
  match n with
  | O => O
  | S n' => if is_blank (nth n' s NUL) then strip_tail n' s else n
  end.

(** [trimInPlace]: the C string that the returned pointer points to. *)
Definition trimInPlace (s : list ascii) : list ascii :=
  let s := skip_blanks (c_str s) in
  firstn (strip_tail (List.length s) s) s.

(** [parseBinCommand] of [ESP32_InventoryOutputs.ino], on a pointer that
    is not null.  It reads [s[0]] .. [s[4]] before it tests anything: [s]
    is the memory from the pointer on.  The three assignments under
    [if (t >= 'A' && t <= 'Z')] are [to_lower]. *)
Definition parseBinCommand_ino (s : nat -> ascii) : option Z :=
  let t0 := s 0%nat in
  let t1 := s 1%nat in
  let t2 := s 2%nat in
  let t3 := s 3%nat in
  let t4 := s 4%nat in
  if negb (Ascii.eqb t4 NUL) then None else
  let t0 := to_lower t0 in
  let t1 := to_lower t1 in
  let t2 := to_lower t2 in
  if negb (Ascii.eqb t0 "b" && Ascii.eqb t1 "i" && Ascii.eqb t2 "n")
  then None else
  if (nat_of_ascii t3 <? 48)%nat || (51 <? nat_of_ascii t3)%nat then None
  else Some (Z.of_nat (nat_of_ascii t3) - 48).

(** The memory at a C string: its characters, the terminating NUL, then
    whatever the buffer held before ([junk]). *)
Definition c_mem (str : list ascii) (junk : nat -> ascii) : nat -> ascii :=
  fun i =>
    if (i <? List.length str)%nat then nth i str NUL
    else if (i =? List.length str)%nat then NUL
    else junk i.

(* ================================================================== *)
(** ** Scripted environments, for running the program on a bench *)

Module Bench.
(** Reads of the index switch seen by one successful seek that finds the
    press after [m] steps: released while the seek confirms the release,
    released for [m - 1] steps, pressed for the confirmation of the
    [m]-th, released again for the closing confirmation. *)
Definition press_event (m : nat) : list bool :=
  repeat HIGH 7 ++ repeat HIGH (6 * (m - 1)) ++ [HIGH] ++ repeat LOW 5
    ++ repeat HIGH 7.

Definition index_script (ms : list nat) : list bool :=
  List.concat (map press_event ms).

(** An environment from finite scripts: the switch reads released and the
    beam open after their scripts end, the clock stays at its last value,
    [estop_polls] are the polls of the serial port that find an [e]. *)
Definition env (index beam : list bool) (clock : list Z)
               (estop_polls : list nat) (echo : list Z)
               (lines : list (option string)) : Env :=
  mkEnv (fun k => nth k index HIGH)
        (fun k => nth k beam HIGH)
        (fun k => nth k clock (last clock 0))
        (fun k => if existsb (Nat.eqb k) estop_polls
                  then ["e"%char] else [])
        (fun k => nth k echo 600)
        (fun k => nth k lines None).

(** The pins as [setup] leaves them. *)
Definition hw_boot : Hw :=
  mkHw LOW CCW_DIR_LEVEL HIGH LOW 0 [] 0 0 0 0 0 0.

(** The globals at their initial values. *)
Definition boot (e : Env) : State :=
  mkState e false (mkNav false (-1) 0 (-1) 0)
          (mkGate false false 0 false 0 false)
          (mkQueue false false (-1)) hw_boot.

(** Homed, at bin [b], which was also the last one selected. *)
Definition homed_at (b : Z) (e : Env) : State :=
  upd_nav (fun _ => mkNav true b 60 b 0) (boot e).

(** The result and the final state of a run ([d], [s] if it does not
    return). *)
Definition run {A} (m : M A) (s : State) (d : A) : A * State :=
  match m s with
  | Some r => r
  | None => (d, s)
  end.

(** A sensor that always echoes after 600 us, a clock that stands still,
    and an [e] on the serial line at the poll that opens the sixth
    block. *)
Definition env_estop_in_window : Env := env [] [] [0] [40%nat] [] [].

(** Echoes that grow from ping to ping, and a clock that jumps past the
    window after six blocks. *)
Definition env_six_blocks : Env :=
  env [] [] [0; 0; 0; 0; 0; 0; 0; 5000] []
      [500; 510; 520; 530; 540; 550; 560; 570; 580; 590; 600; 610; 620;
       630; 640; 650; 660; 670; 680; 690; 700] [].
(** The presses of a homing run: the first one, ten gaps of 60 steps, one
    more, and the short gap of 31 steps that marks the encoder notch. *)
Definition homing_events : list nat :=
  [3; 30; 30; 30; 30; 30; 30; 30; 30; 30; 30; 30; 1]%nat.

Definition env_homing : Env := env (index_script homing_events) [] [0] [] [] [].

(** Four presses two steps apart, a sensor that echoes after 600 us, and a
    clock that jumps past the measuring window after six blocks. *)
Definition env_moves : Env :=
  env (index_script [2; 2; 2; 2]%nat) [] [0; 0; 0; 0; 0; 0; 0; 5000] [] [] [].

(** The beam open and the clock at 3000 ms. *)
Definition env_rearmed : Env := env [] [] [3000] [] [] [].

(** Homed at bin 0, locked out, the beam open since 100 ms. *)
Definition rearming (e : Env) : State :=
  upd_gate (fun _ => mkGate false false 0 true 100 false) (homed_at 0 e).

(** Homed at bin 1, inventory pending, with the queue [q]. *)
Definition inventory_due (q : Queue) (e : Env) : State :=
  upd_queue (fun _ => q)
    (upd_gate (set_inventoryPending true) (homed_at 1 e)).

(** [n] passes of the main loop. *)
Fixpoint loops (v : Sketch) (fuel n : nat) : M unit :=
  match n with
  | O => ret tt
  | S n' => loops v fuel n' ;; loop v fuel
  end.

(** A session from power-on: [h] homes the carousel; the beam is blocked
    and the operator types [i]; the beam opens and the re-arm delay
    passes, so the queued inventory starts; an [e] arrives on the serial
    port during its first move, and the next line read is [h]. *)
Definition env_estop_then_home : Env :=
  env (index_script homing_events ++ repeat HIGH 20
         ++ index_script homing_events)
      [HIGH; LOW; LOW; HIGH; HIGH; HIGH]
      [0; 1000; 1030; 2000; 2030; 2040; 5000]
      [1575%nat] []
      [Some "h"%string; None; Some "i"%string; None; None; Some "h"%string].
(** A homing run with uneven gaps: the first press, ten gaps of 70, 55,
    90, 63, 58, 100, 75, 82, 68 and 95 steps, one of 80 steps, and the
    short gap of 31. *)
Definition uneven_events : list nat :=
  [3; 40; 25; 60; 33; 28; 70; 45; 52; 38; 65; 50; 1]%nat.

Definition env_uneven_gaps : Env :=
  env (index_script uneven_events) [] [0] [] [] [].

(** As [env_estop_in_window], but the [e] arrives one poll later, inside
    the sixth block, and the clock jumps past the window after it. *)
Definition env_estop_in_block : Env :=
  env [] [] [0; 0; 0; 0; 0; 0; 0; 5000] [41%nat] [] [].

(** The gate re-arms at 3000 ms; three presses two steps apart; the clock
    jumps past the measuring window after six blocks. *)
Definition env_rearm_and_moves : Env :=
  env (index_script [2; 2; 2]%nat) []
      [3000; 3000; 3000; 3000; 3000; 3000; 3000; 3000; 3000; 9000] [] [] [].

(** Re-arming at bin 0 with an inventory request and a request for bin 3
    queued. *)
Definition rearming_with_requests (e : Env) : State :=
  upd_queue (fun _ => mkQueue true true 3) (rearming e).
End Bench.

(* ================================================================== *)
(** * Reasoning about programs *)

Lemma seek_fuel_eq : seek_fuel = S (Z.to_nat MAX_STEPS_TO_FIND_INDEX).
Proof. reflexivity. Qed.

(** The budget is a large numeral: proofs use it through [seek_fuel_eq]. *)
#[global] Opaque seek_fuel.

Lemma bind_inv {A B} (m : M A) (k : A -> M B) s b s' :
  bind m k s = Some (b, s') ->
  exists a s1, m s = Some (a, s1) /\ k a s1 = Some (b, s').
Proof.
  unfold bind. destruct (m s) as [[a s1]|]; [|discriminate].
  intros H. exists a, s1. auto.
Qed.

Lemma bind_run {A B} (m : M A) (k : A -> M B) s a s1 :
  m s = Some (a, s1) -> bind m k s = k a s1.
Proof. unfold bind. intros ->. reflexivity. Qed.

Lemma ret_inv {A} (a b : A) s s' : ret a s = Some (b, s') -> b = a /\ s' = s.
Proof. unfold ret. intros H. inversion H. auto. Qed.

Lemma gets_inv {A} (f : State -> A) s b s' :
  gets f s = Some (b, s') -> b = f s /\ s' = s.
Proof. unfold gets. intros H. inversion H. auto. Qed.

Lemma modify_inv f s b s' : modify f s = Some (b, s') -> s' = f s.
Proof. unfold modify. intros H. inversion H. auto. Qed.

Lemma print_inv t s b s' :
  print t s = Some (b, s') -> s' = upd_hw (hw_emit t) s.
Proof. apply modify_inv. Qed.

Lemma println_inv t s b s' :
  println t s = Some (b, s') ->
  s' = upd_hw (hw_emit NL) (upd_hw (hw_emit t) s).
Proof. unfold println, bind, print, modify. intros H. inversion H. auto. Qed.

(** Decompose a hypothesis on a run of a sequence of statements. *)
Ltac minv :=
  repeat (cbv beta in *;
    match goal with
    | H : bind _ _ _ = Some (_, _) |- _ =>
        apply bind_inv in H; destruct H as (? & ? & ? & H)
    | H : ret _ _ = Some (_, _) |- _ =>
        apply ret_inv in H; destruct H; subst
    | H : gets _ _ = Some (_, _) |- _ =>
        apply gets_inv in H; destruct H; subst
    | H : modify _ _ = Some (_, _) |- _ => apply modify_inv in H; subst
    | H : println _ _ = Some (_, _) |- _ => apply println_inv in H; subst
    | H : print _ _ = Some (_, _) |- _ => apply print_inv in H; subst
    | H : out_of_fuel _ = Some _ |- _ => discriminate H
    | H : (_, _) = (_, _) |- _ => injection H as ? ?; subst
    | H : (match negb ?b with _ => _ end) _ = Some (_, _) |- _ =>
        destruct b eqn:?; cbn [negb] in H
    | H : (match ?x with _ => _ end) _ = Some (_, _) |- _ =>
        destruct x eqn:?
    end).

(** ** Frames: what a statement leaves alone *)

Definition Keeps {X A} (view : State -> X) (m : M A) : Prop :=
  forall s a s', m s = Some (a, s') -> view s' = view s.

Section KeepsRules.
Context {X : Type} (view : State -> X).

Lemma Keeps_ret {A} (a : A) : Keeps view (ret a).
Proof. intros s b s' H. apply ret_inv in H. destruct H; subst; auto. Qed.

Lemma Keeps_gets {A} (f : State -> A) : Keeps view (gets f).
Proof. intros s b s' H. apply gets_inv in H. destruct H; subst; auto. Qed.

Lemma Keeps_out_of_fuel {A} : Keeps view (@out_of_fuel A).
Proof. intros s b s' H. discriminate H. Qed.

Lemma Keeps_modify f :
  (forall s, view (f s) = view s) -> Keeps view (modify f).
Proof. intros Hf s b s' H. apply modify_inv in H. subst. apply Hf. Qed.

Lemma Keeps_bind {A B} (m : M A) (k : A -> M B) :
  Keeps view m -> (forall a, Keeps view (k a)) -> Keeps view (bind m k).
Proof.
  intros Hm Hk s b s' H. apply bind_inv in H.
  destruct H as (a & s1 & H1 & H2).
  rewrite (Hk _ _ _ _ H2). eapply Hm; eauto.
Qed.
End KeepsRules.

(** The software state that pure motion never writes. *)
Definition ctl_view (s : State) := (world s, nav s, gate s, queue s).

(** What navigation leaves alone: everything in [ctl_view] but the bin
    position and the call counter. *)
Definition gq_view (s : State) :=
  (world s, gate s, queue s, homed (nav s), lastSelectedBin (nav s),
   encoderGapThresholdSteps (nav s)).

(** A view that looks at neither the hardware nor the latch. *)
Definition Blind {X} (view : State -> X) : Prop :=
  (forall f s, view (upd_hw f s) = view s) /\
  (forall b s, view (set_estop b s) = view s).

Lemma ctl_view_blind : Blind ctl_view.
Proof. split; reflexivity. Qed.

Lemma gq_view_blind : Blind gq_view.
Proof. split; reflexivity. Qed.

Create HintDb keeps.
#[export] Hint Resolve ctl_view_blind gq_view_blind : keeps.

Ltac keeps_step :=
  lazymatch goal with
  | |- Keeps _ (ret _) => apply Keeps_ret
  | |- Keeps _ (gets _) => apply Keeps_gets
  | |- Keeps _ out_of_fuel => apply Keeps_out_of_fuel
  | |- Keeps _ (modify _) =>
      apply Keeps_modify;
      solve [ intros; reflexivity
            | match goal with
              | B : Blind _ |- _ => destruct B as [Bh Be]; intros;
                                    first [apply Bh | apply Be]
              end ]
  | |- Keeps _ (bind _ _) => apply Keeps_bind; [ | intros ]
  | |- Keeps _ (if ?b then _ else _) => destruct b
  | |- Keeps _ (match ?x with _ => _ end) => destruct x
  | |- Keeps _ _ => solve [ eauto with keeps ]
  end.

Ltac keeps := cbv zeta; repeat keeps_step.

Section BlindFrames.
Context {X : Type} (view : State -> X) (B : Blind view).

Lemma Keeps_digitalWrite p l : Keeps view (digitalWrite p l).
Proof. unfold digitalWrite. keeps. Qed.

Lemma Keeps_print t : Keeps view (print t).
Proof. unfold print. keeps. Qed.

Lemma Keeps_println t : Keeps view (println t).
Proof. unfold println. keeps; apply Keeps_print. Qed.

Lemma Keeps_digitalRead_INDEX : Keeps view digitalRead_INDEX.
Proof. intros s a s' H. inversion H. apply B. Qed.

Lemma Keeps_digitalRead_BEAM : Keeps view digitalRead_BEAM.
Proof. intros s a s' H. inversion H. apply B. Qed.

Lemma Keeps_millis : Keeps view millis.
Proof. intros s a s' H. inversion H. apply B. Qed.

Lemma Keeps_pulseIn_ECHO t : Keeps view (pulseIn_ECHO t).
Proof. intros s a s' H. inversion H. apply B. Qed.

Lemma Keeps_Serial_drain : Keeps view Serial_drain.
Proof. intros s a s' H. inversion H. apply B. Qed.

Lemma Keeps_readLine : Keeps view readLine.
Proof. intros s a s' H. inversion H. apply B. Qed.

Hint Resolve Keeps_digitalWrite Keeps_print Keeps_println
  Keeps_digitalRead_INDEX Keeps_digitalRead_BEAM Keeps_millis
  Keeps_pulseIn_ECHO Keeps_Serial_drain Keeps_readLine : keeps.

Lemma Keeps_enableDriver on : Keeps view (enableDriver on).
Proof. unfold enableDriver. keeps. Qed.

Lemma Keeps_indexPressedRaw : Keeps view indexPressedRaw.
Proof. unfold indexPressedRaw. keeps. Qed.

Lemma Keeps_pollEstop : Keeps view pollEstop.
Proof. unfold pollEstop. keeps. Qed.

Hint Resolve Keeps_enableDriver Keeps_indexPressedRaw Keeps_pollEstop
  : keeps.

Lemma Keeps_stepPulseChecked d : Keeps view (stepPulseChecked d).
Proof. unfold stepPulseChecked. keeps. Qed.

Lemma Keeps_confirm_polls want n : forall ok,
  Keeps view (confirm_polls want n ok).
Proof. induction n; intros; cbn [confirm_polls]; keeps. Qed.

Hint Resolve Keeps_stepPulseChecked Keeps_confirm_polls : keeps.

Lemma Keeps_confirmPressed : Keeps view confirmPressed.
Proof. unfold confirmPressed. keeps. Qed.

Lemma Keeps_confirmReleased : Keeps view confirmReleased.
Proof. unfold confirmReleased. keeps. Qed.

Lemma Keeps_beamBlockedRaw : Keeps view beamBlockedRaw.
Proof. unfold beamBlockedRaw. keeps. Qed.

Hint Resolve Keeps_confirmPressed Keeps_confirmReleased
  Keeps_beamBlockedRaw : keeps.

Lemma Keeps_stepCCW_pulses n d : Keeps view (stepCCW_pulses n d).
Proof. induction n; cbn [stepCCW_pulses]; keeps. Qed.

Hint Resolve Keeps_stepCCW_pulses : keeps.

Lemma Keeps_stepCCW n d : Keeps view (stepCCW n d).
Proof. unfold stepCCW. keeps. Qed.

Lemma Keeps_seek_until_released fuel d : forall sm g,
  Keeps view (seek_until_released fuel d sm g).
Proof. induction fuel; intros; cbn [seek_until_released]; keeps. Qed.

Lemma Keeps_seek_escape n : forall sm, Keeps view (seek_escape n sm).
Proof. induction n; intros; cbn [seek_escape]; keeps. Qed.

Hint Resolve Keeps_stepCCW Keeps_seek_until_released Keeps_seek_escape
  : keeps.

Lemma Keeps_seek_until_pressed fuel : forall sm g ac,
  Keeps view (seek_until_pressed fuel sm g ac).
Proof. induction fuel; intros; cbn [seek_until_pressed]; keeps. Qed.

Hint Resolve Keeps_seek_until_pressed : keeps.

Lemma Keeps_seekNextPressEventCCW : Keeps view seekNextPressEventCCW.
Proof. unfold seekNextPressEventCCW. keeps. Qed.

Lemma Keeps_applyIndexOffset v : Keeps view (applyIndexOffset v).
Proof. unfold applyIndexOffset. keeps. Qed.

Lemma Keeps_pingDistanceCm : Keeps view pingDistanceCm.
Proof. unfold pingDistanceCm. keeps. Qed.

Hint Resolve Keeps_pingDistanceCm : keeps.

Lemma Keeps_median_collect fuel : forall l,
  Keeps view (median_collect fuel l).
Proof. induction fuel; intros; cbn [median_collect]; keeps. Qed.

Hint Resolve Keeps_median_collect : keeps.

Lemma Keeps_medianOfBlockCm fuel : Keeps view (medianOfBlockCm fuel).
Proof. unfold medianOfBlockCm. keeps. Qed.

Hint Resolve Keeps_medianOfBlockCm : keeps.

Lemma Keeps_robust_collect fuel n : forall t0 l,
  Keeps view (robust_collect fuel n t0 l).
Proof. induction n; intros; cbn [robust_collect]; keeps. Qed.

Hint Resolve Keeps_robust_collect : keeps.

Lemma Keeps_readRobustDistance4sCm fuel :
  Keeps view (readRobustDistance4sCm fuel).
Proof. unfold readRobustDistance4sCm. keeps. Qed.

Lemma Keeps_report_distance d : Keeps view (report_distance d).
Proof. unfold report_distance. keeps. Qed.

Lemma Keeps_printInventoryLogLine b hi :
  Keeps view (printInventoryLogLine b hi).
Proof. unfold printInventoryLogLine. keeps. Qed.
End BlindFrames.

#[export] Hint Resolve Keeps_digitalWrite Keeps_print Keeps_println
  Keeps_millis Keeps_readLine Keeps_enableDriver Keeps_pollEstop
  Keeps_stepPulseChecked Keeps_beamBlockedRaw Keeps_stepCCW
  Keeps_seekNextPressEventCCW Keeps_applyIndexOffset
  Keeps_medianOfBlockCm Keeps_readRobustDistance4sCm Keeps_report_distance
  Keeps_printInventoryLogLine : keeps.

(** ** Totality: a statement that always returns *)

Definition Total {A} (m : M A) : Prop :=
  forall s, exists a s', m s = Some (a, s').

Lemma Total_ret {A} (a : A) : Total (ret a).
Proof. intros s. unfold ret. eauto. Qed.

Lemma Total_gets {A} (f : State -> A) : Total (gets f).
Proof. intros s. unfold gets. eauto. Qed.

Lemma Total_modify f : Total (modify f).
Proof. intros s. unfold modify. eauto. Qed.

Lemma Total_bind {A B} (m : M A) (k : A -> M B) :
  Total m -> (forall a, Total (k a)) -> Total (bind m k).
Proof.
  intros Hm Hk s. destruct (Hm s) as (a & s1 & E).
  rewrite (bind_run _ _ _ _ _ E). apply Hk.
Qed.

Create HintDb total.

Ltac total_step :=
  lazymatch goal with
  | |- Total (ret _) => apply Total_ret
  | |- Total (gets _) => apply Total_gets
  | |- Total (modify _) => apply Total_modify
  | |- Total (bind _ _) => apply Total_bind; [ | intros ]
  | |- Total (if ?b then _ else _) => destruct b eqn:?
  | |- Total (match ?x with _ => _ end) => destruct x eqn:?
  | |- Total _ => solve [ eauto with total ]
  end.

Ltac total := cbv zeta; repeat total_step.

Lemma Total_digitalWrite p l : Total (digitalWrite p l).
Proof. apply Total_modify. Qed.

Lemma Total_print t : Total (print t).
Proof. apply Total_modify. Qed.

Lemma Total_println t : Total (println t).
Proof. unfold println. total; apply Total_print. Qed.

Lemma Total_digitalRead_INDEX : Total digitalRead_INDEX.
Proof. intros s. unfold digitalRead_INDEX. eauto. Qed.

Lemma Total_Serial_drain : Total Serial_drain.
Proof. intros s. unfold Serial_drain. eauto. Qed.

#[export] Hint Resolve Total_digitalWrite Total_print Total_println
  Total_digitalRead_INDEX Total_Serial_drain : total.

Lemma Total_enableDriver on : Total (enableDriver on).
Proof. unfold enableDriver. total. Qed.

Lemma Total_indexPressedRaw : Total indexPressedRaw.
Proof. unfold indexPressedRaw. total. Qed.

Lemma Total_pollEstop : Total pollEstop.
Proof. unfold pollEstop. total. Qed.

#[export] Hint Resolve Total_enableDriver Total_indexPressedRaw
  Total_pollEstop : total.

Lemma Total_stepPulseChecked d : Total (stepPulseChecked d).
Proof. unfold stepPulseChecked. total. Qed.

Lemma Total_confirm_polls want n : forall ok,
  Total (confirm_polls want n ok).
Proof. induction n; intros; cbn [confirm_polls]; total. Qed.

#[export] Hint Resolve Total_stepPulseChecked Total_confirm_polls : total.

Lemma Total_confirmPressed : Total confirmPressed.
Proof. unfold confirmPressed. total. Qed.

Lemma Total_confirmReleased : Total confirmReleased.
Proof. unfold confirmReleased. total. Qed.

#[export] Hint Resolve Total_confirmPressed Total_confirmReleased : total.

Lemma Total_stepCCW_pulses n d : Total (stepCCW_pulses n d).
Proof. induction n; cbn [stepCCW_pulses]; total. Qed.

#[export] Hint Resolve Total_stepCCW_pulses : total.

Lemma Total_stepCCW n d : Total (stepCCW n d).
Proof. unfold stepCCW. total. Qed.

(** The guard counter trips before the budget is used up. *)
Lemma Total_seek_until_released fuel d : forall sm g,
  0 <= g <= MAX_STEPS_TO_FIND_INDEX ->
  MAX_STEPS_TO_FIND_INDEX - g < Z.of_nat fuel ->
  Total (seek_until_released fuel d sm g).
Proof.
  induction fuel as [|fuel IH]; intros sm g Hg Hf.
  - lia.
  - cbn [seek_until_released]. total.
    match goal with H : (_ <? _) = false |- _ => apply Z.ltb_ge in H end.
    apply IH; lia.
Qed.

Lemma Total_seek_escape n : forall sm, Total (seek_escape n sm).
Proof. induction n; intros; cbn [seek_escape]; total. Qed.

Lemma seek_fuel_enough :
  MAX_STEPS_TO_FIND_INDEX - 0 < Z.of_nat seek_fuel.
Proof.
  rewrite seek_fuel_eq. unfold MAX_STEPS_TO_FIND_INDEX, STEPS_PER_REV,
    FULL_STEPS_PER_REV, MICROSTEP. lia.
Qed.

Lemma MAX_STEPS_nonneg : 0 <= 0 <= MAX_STEPS_TO_FIND_INDEX.
Proof.
  unfold MAX_STEPS_TO_FIND_INDEX, STEPS_PER_REV, FULL_STEPS_PER_REV,
    MICROSTEP. lia.
Qed.

Lemma Total_seek_until_released_0 d sm :
  Total (seek_until_released seek_fuel d sm 0).
Proof.
  apply Total_seek_until_released;
    [apply MAX_STEPS_nonneg | apply seek_fuel_enough].
Qed.

#[export] Hint Resolve Total_stepCCW Total_seek_escape
  Total_seek_until_released_0 : total.

Lemma Total_seek_until_pressed fuel : forall sm g ac,
  0 <= g <= MAX_STEPS_TO_FIND_INDEX ->
  MAX_STEPS_TO_FIND_INDEX - g < Z.of_nat fuel ->
  Total (seek_until_pressed fuel sm g ac).
Proof.
  induction fuel as [|fuel IH]; intros sm g ac Hg Hf.
  - lia.
  - cbn [seek_until_pressed]. total.
    match goal with H : (_ <? _) = false |- _ => apply Z.ltb_ge in H end.
    apply IH; lia.
Qed.

Lemma Total_seekNextPressEventCCW : Total seekNextPressEventCCW.
Proof.
  unfold seekNextPressEventCCW. total.
  apply Total_seek_until_pressed;
    [apply MAX_STEPS_nonneg | apply seek_fuel_enough].
Qed.

Lemma Total_applyIndexOffset v : Total (applyIndexOffset v).
Proof. unfold applyIndexOffset. total. Qed.

#[export] Hint Resolve Total_seekNextPressEventCCW Total_applyIndexOffset
  : total.

Lemma Total_moveOneBin v : Total (moveOneBin v).
Proof. unfold moveOneBin. total. Qed.

#[export] Hint Resolve Total_moveOneBin : total.

Lemma Total_moveBins_loop v n : Total (moveBins_loop v n).
Proof. induction n; cbn [moveBins_loop]; total. Qed.

#[export] Hint Resolve Total_moveBins_loop : total.

Lemma Total_moveBins v n : Total (moveBins v n).
Proof. unfold moveBins. total. Qed.

#[export] Hint Resolve Total_moveBins : total.

Lemma Total_moveToBin v t : Total (moveToBin v t).
Proof. unfold moveToBin. total. Qed.

(* ================================================================== *)
(** * Bin navigator *)

Lemma seek_ctl s r s' :
  seekNextPressEventCCW s = Some (r, s') -> ctl_view s' = ctl_view s.
Proof. apply Keeps_seekNextPressEventCCW, ctl_view_blind. Qed.

Lemma offset_ctl v s r s' :
  applyIndexOffset v s = Some (r, s') -> ctl_view s' = ctl_view s.
Proof. apply Keeps_applyIndexOffset, ctl_view_blind. Qed.

Lemma Keeps_moveOneBin v : Keeps gq_view (moveOneBin v).
Proof. unfold moveOneBin. keeps. Qed.

#[export] Hint Resolve Keeps_moveOneBin : keeps.

Lemma Keeps_moveBins_loop v n : Keeps gq_view (moveBins_loop v n).
Proof. induction n; cbn [moveBins_loop]; keeps. Qed.

#[export] Hint Resolve Keeps_moveBins_loop : keeps.

Lemma Keeps_moveBins v n : Keeps gq_view (moveBins v n).
Proof. unfold moveBins. keeps. Qed.

#[export] Hint Resolve Keeps_moveBins : keeps.

Lemma Keeps_moveToBin v t : Keeps gq_view (moveToBin v t).
Proof. unfold moveToBin. keeps. Qed.

#[export] Hint Resolve Keeps_moveToBin : keeps.

(** Split an equation between two views into its components. *)
Ltac split_view H :=
  unfold ctl_view, gq_view in H;
  repeat match type of H with
         | (_, _) = (_, _) =>
             let H1 := fresh H in
             injection H as H H1
         end.

Lemma ctl_view_fields s s' :
  ctl_view s' = ctl_view s ->
  world s' = world s /\ nav s' = nav s /\ gate s' = gate s /\
  queue s' = queue s.
Proof. unfold ctl_view. intros H. injection H as -> -> -> ->. auto. Qed.

Lemma gq_view_fields s s' :
  gq_view s' = gq_view s ->
  world s' = world s /\ gate s' = gate s /\ queue s' = queue s /\
  homed (nav s') = homed (nav s) /\
  lastSelectedBin (nav s') = lastSelectedBin (nav s) /\
  encoderGapThresholdSteps (nav s') = encoderGapThresholdSteps (nav s).
Proof.
  unfold gq_view. intros H. injection H as -> -> -> -> -> ->. auto 10.
Qed.

(** The bin that follows [b] in the only direction of travel. *)
Definition next_bin (b : Z) : Z := if b =? 3 then 0 else i32 (b + 1).

(** Marks a hypothesis that [frame_facts] has used. *)
Definition seen (P : Prop) : Prop := P.

(** Turn the runs of motion statements in the context into equations
    between the software states before and after. *)
Ltac frame_facts :=
  repeat match goal with
         | H : seekNextPressEventCCW ?s = Some (?r, ?s') |- _ =>
             pose proof (seek_ctl _ _ _ H);
             change (seen (seekNextPressEventCCW s = Some (r, s'))) in H
         | H : applyIndexOffset ?v ?s = Some (?r, ?s') |- _ =>
             pose proof (offset_ctl _ _ _ _ H);
             change (seen (applyIndexOffset v s = Some (r, s'))) in H
         end;
  unfold seen in *;
  repeat match goal with
         | H : ctl_view _ = ctl_view _ |- _ =>
             unfold ctl_view in H; cbn in H;
             let Fw := fresh "Fw" in
             let Fn := fresh "Fn" in
             let Fg := fresh "Fg" in
             let Fq := fresh "Fq" in
             injection H as Fw Fn Fg Fq
         end.

Ltac frame_rewrite :=
  repeat match goal with
         | H : world _ = _ |- _ => rewrite H
         | H : nav _ = _ |- _ => rewrite H
         | H : gate _ = _ |- _ => rewrite H
         | H : queue _ = _ |- _ => rewrite H
         end.

Ltac frame_rewrite_in K :=
  repeat match goal with
         | H : world _ = _ |- _ => rewrite H in K
         | H : nav _ = _ |- _ => rewrite H in K
         | H : gate _ = _ |- _ => rewrite H in K
         | H : queue _ = _ |- _ => rewrite H in K
         end.

Lemma moveOneBin_spec v s r s' :
  moveOneBin v s = Some (r, s') ->
  moveOneBinCalls (nav s') = moveOneBinCalls (nav s) + 1 /\
  currentBin (nav s') =
    (if r then next_bin (currentBin (nav s)) else currentBin (nav s)) /\
  (r = true -> homed (nav s) = true).
Proof.
  unfold moveOneBin, next_bin. intros H. minv; frame_facts;
    cbn in *; frame_rewrite; cbn.
  all: try rewrite Heqb0; repeat split; auto; discriminate.
Qed.

Lemma i32_small z : - 2 ^ 31 <= z < 2 ^ 31 -> i32 z = z.
Proof. intros H. unfold i32. rewrite Z.mod_small; lia. Qed.

Lemma next_bin_mod b : 0 <= b <= 3 -> next_bin b = (b + 1) mod 4.
Proof.
  intros H. unfold next_bin.
  destruct (Z.eqb_spec b 3) as [->|N]; [reflexivity|].
  rewrite i32_small by lia. rewrite Z.mod_small; lia.
Qed.

Lemma moveBins_loop_spec v n : forall s r s',
  moveBins_loop v n s = Some (r, s') ->
  0 <= currentBin (nav s) <= 3 ->
  0 <= currentBin (nav s') <= 3 /\
  (r = true ->
   moveOneBinCalls (nav s') = moveOneBinCalls (nav s) + Z.of_nat n /\
   currentBin (nav s') = (currentBin (nav s) + Z.of_nat n) mod 4).
Proof.
  induction n as [|n IH]; intros s r s' H Hc; cbn [moveBins_loop] in H.
  - minv. split; [assumption|]. intros _. split; [cbn; lia|].
    cbn [Z.of_nat]. rewrite Z.add_0_r, Z.mod_small; lia.
  - minv.
    + apply moveOneBin_spec in H0. destruct H0 as (Hn & Hb & _).
      rewrite next_bin_mod in Hb by assumption.
      assert (Hc1 : 0 <= currentBin (nav x0) <= 3).
      { rewrite Hb. pose proof (Z.mod_pos_bound (currentBin (nav s) + 1) 4).
        lia. }
      destruct (IH _ _ _ H Hc1) as (Hr & Hs). split; [assumption|].
      intros ->. destruct Hs as (Hs1 & Hs2); [reflexivity|].
      rewrite Hs1, Hs2, Hn, Hb. split; [lia|].
      rewrite Zplus_mod_idemp_l. f_equal. lia.
    + apply moveOneBin_spec in H0. destruct H0 as (_ & Hb & _).
      split; [lia | discriminate].
Qed.

(** Append tokens to the serial output, nothing else. *)
Definition emit (ts : list Tok) (s : State) : State :=
  fold_left (fun s t => upd_hw (hw_emit t) s) ts s.

Definition nav_ok (s : State) : Prop :=
  homed (nav s) = true /\ 0 <= currentBin (nav s) <= 3.

(** The CCW distance from bin [b] to bin [t]. *)
Definition ccw_steps (b t : Z) : Z := (t - b + 4) mod 4.

Lemma moveToBin_steps b t :
  0 <= b <= 3 -> 0 <= t <= 3 ->
  c_rem (i32 (i32 (t - b) + 4)) 4 = ccw_steps b t.
Proof.
  intros Hb Ht. unfold c_rem, ccw_steps.
  rewrite !i32_small by (try rewrite i32_small; lia).
  apply Z.rem_mod_nonneg; lia.
Qed.

Lemma moveToBin_not_homed v t s :
  homed (nav s) = false ->
  moveToBin v t s =
    Some (false, emit [Txt "ERROR: Not homed. Use 'h' first."; NL] s).
Proof.
  intros H. unfold moveToBin, bind, gets. rewrite H. reflexivity.
Qed.

Lemma moveToBin_out_of_range v t s :
  homed (nav s) = true -> t < 0 \/ 3 < t ->
  moveToBin v t s =
    Some (false, emit [Txt "ERROR: targetBin must be 0..3"; NL] s).
Proof.
  intros H Ht. unfold moveToBin, bind, gets. rewrite H. cbn [negb].
  replace ((t <? 0) || (3 <? t)) with true; [reflexivity|].
  symmetry. apply orb_true_iff. rewrite !Z.ltb_lt. assumption.
Qed.

Lemma moveToBin_already_there v s :
  nav_ok s ->
  moveToBin v (currentBin (nav s)) s =
    Some (true, emit [Txt "Already at BIN"; Num (currentBin (nav s)); NL] s).
Proof.
  intros [H Hc]. unfold moveToBin, bind, gets. rewrite H. cbn [negb].
  replace ((currentBin (nav s) <? 0) || (3 <? currentBin (nav s)))
    with false.
  2:{ symmetry. apply orb_false_iff. rewrite !Z.ltb_ge. lia. }
  rewrite moveToBin_steps by lia. unfold ccw_steps.
  replace (currentBin (nav s) - currentBin (nav s) + 4) with (1 * 4) by lia.
  rewrite Z.mod_mul by lia. reflexivity.
Qed.

Lemma moveToBin_spec v t s r s' :
  nav_ok s ->
  moveToBin v t s = Some (r, s') ->
  nav_ok s' /\
  (r = true ->
   0 <= t <= 3 /\
   currentBin (nav s') = t /\
   moveOneBinCalls (nav s') - moveOneBinCalls (nav s)
     = ccw_steps (currentBin (nav s)) t).
Proof.
  intros [Hh Hc] H.
  assert (Hh' : homed (nav s') = homed (nav s)).
  { apply Keeps_moveToBin in H. split_view H. assumption. }
  unfold nav_ok. rewrite Hh'.
  unfold moveToBin in H. minv; cbn in *; try congruence.
  - split; [auto | discriminate].
  - apply orb_false_iff in Heqb0. rewrite !Z.ltb_ge in Heqb0.
    rewrite moveToBin_steps in Heqb1 by lia.
    apply Z.eqb_eq in Heqb1. split; [auto|]. intros _.
    split; [lia|]. unfold ccw_steps in *.
    assert (currentBin (nav s) = t); [|lia].
    pose proof (Z.mod_pos_bound (t - currentBin (nav s) + 4) 4).
    assert (E : (t - currentBin (nav s) + 4) = 4 * ((t - currentBin (nav s) + 4) / 4)).
    { rewrite (Z.div_mod (t - currentBin (nav s) + 4) 4) at 1 by lia. lia. }
    lia.
  - apply orb_false_iff in Heqb0. rewrite !Z.ltb_ge in Heqb0.
    rewrite moveToBin_steps in * by lia.
    match goal with H : moveBins _ _ _ = _ |- _ =>
      unfold moveBins in H;
      apply moveBins_loop_spec in H; [|cbn; lia]; cbn in H;
      destruct H as (Hr & Hs)
    end.
    split; [auto|]. intros _.
    destruct Hs as (Hs1 & Hs2); [reflexivity|].
    pose proof (Z.mod_pos_bound (t - currentBin (nav s) + 4) 4) as Hm.
    unfold ccw_steps in *.
    rewrite Z2Nat.id in * by lia.
    split; [lia|]. split; [|lia].
    rewrite Hs2. rewrite Zplus_mod_idemp_r.
    replace (currentBin (nav s) + (t - currentBin (nav s) + 4))
      with (t + 1 * 4) by lia.
    rewrite Z.mod_add by lia. apply Z.mod_small. lia.
  - apply orb_false_iff in Heqb0. rewrite !Z.ltb_ge in Heqb0.
    match goal with H : moveBins _ _ _ = _ |- _ =>
      unfold moveBins in H;
      apply moveBins_loop_spec in H; [|cbn; lia];
      destruct H as (Hr & _)
    end.
    split; [auto | discriminate].
Qed.

(** States reached from [s0] by calls of [moveToBin], whatever their
    targets and whatever they returned. *)
Inductive nav_reach (v : Sketch) (s0 : State) : State -> Prop :=
| nav_reach_start : nav_reach v s0 s0
| nav_reach_call s t r s' :
    nav_reach v s0 s ->
    moveToBin v t s = Some (r, s') ->
    nav_reach v s0 s'.

Lemma nav_reach_ok v s0 s : nav_ok s0 -> nav_reach v s0 s -> nav_ok s.
Proof.
  intros H0 R. induction R as [|s t r s' R IH H]; [assumption|].
  eapply moveToBin_spec; eauto.
Qed.

Lemma emit_step_edges ts s : step_edges (hw (emit ts s)) = step_edges (hw s).
Proof.
  revert s. induction ts as [|t ts IH]; intros s; [reflexivity|].
  cbn [emit fold_left]. fold (emit ts (upd_hw (hw_emit t) s)).
  rewrite IH. reflexivity.
Qed.

Lemma emit_nav ts s : nav (emit ts s) = nav s.
Proof.
  revert s. induction ts as [|t ts IH]; intros s; [reflexivity|].
  cbn [emit fold_left]. fold (emit ts (upd_hw (hw_emit t) s)).
  rewrite IH. reflexivity.
Qed.

(** C2.  Along any sequence of [moveToBin] calls that starts in a homed
    state, every further call [moveToBin t] returns; when it succeeds [t]
    is a valid bin, [currentBin] equals [t] and the call has entered
    [moveOneBin] exactly [(t - previous + 4) mod 4] times; a target equal to
    the current bin succeeds and only prints; a target outside 0..3 fails
    and only prints; and in any state that is not homed the call fails and
    only prints. *)
Theorem moveToBin_sequence (v : Sketch) (s0 s : State) (t : Z) :
  nav_ok s0 ->
  nav_reach v s0 s ->
  (exists r s',
     moveToBin v t s = Some (r, s') /\
     (r = true ->
      0 <= t <= 3 /\
      currentBin (nav s') = t /\
      moveOneBinCalls (nav s') - moveOneBinCalls (nav s)
        = (t - currentBin (nav s) + 4) mod 4) /\
     (t = currentBin (nav s) ->
      r = true /\
      s' = emit [Txt "Already at BIN"; Num t; NL] s /\
      moveOneBinCalls (nav s') = moveOneBinCalls (nav s) /\
      step_edges (hw s') = step_edges (hw s)) /\
     (t < 0 \/ 3 < t ->
      r = false /\
      s' = emit [Txt "ERROR: targetBin must be 0..3"; NL] s /\
      currentBin (nav s') = currentBin (nav s) /\
      step_edges (hw s') = step_edges (hw s))) /\
  (forall u : State,
     homed (nav u) = false ->
     exists u',
       moveToBin v t u = Some (false, u') /\
       u' = emit [Txt "ERROR: Not homed. Use 'h' first."; NL] u /\
       currentBin (nav u') = currentBin (nav u) /\
       step_edges (hw u') = step_edges (hw u)).
Proof.
  intros H0 R. pose proof (nav_reach_ok _ _ _ H0 R) as Hok. split.
  - destruct (Total_moveToBin v t s) as (r & s' & E).
    exists r, s'. split; [exact E|]. split; [|split].
    + intros Hr. destruct (moveToBin_spec _ _ _ _ _ Hok E) as (_ & Hs).
      exact (Hs Hr).
    + intros ->. rewrite (moveToBin_already_there v s Hok) in E.
      injection E as <- <-. repeat split; reflexivity.
    + intros Ht. destruct Hok as [Hh Hc].
      rewrite (moveToBin_out_of_range v t s Hh Ht) in E.
      injection E as <- <-. repeat split; reflexivity.
  - intros u Hu. eexists. split; [apply moveToBin_not_homed; exact Hu|].
    rewrite emit_nav, emit_step_edges. auto.
Qed.

(* ================================================================== *)
(** * Homing *)

(** Consecutive successful seeks, with the step counts they returned. *)
Inductive seek_chain : list Z -> State -> State -> Prop :=
| seek_chain_nil s : seek_chain [] s s
| seek_chain_cons g gs s s1 s2 :
    seekNextPressEventCCW s = Some ((true, g), s1) ->
    seek_chain gs s1 s2 ->
    seek_chain (g :: gs) s s2.

Lemma seek_chain_app gs1 gs2 s s1 s2 :
  seek_chain gs1 s s1 -> seek_chain gs2 s1 s2 ->
  seek_chain (gs1 ++ gs2) s s2.
Proof.
  induction 1; intros; cbn [app]; [assumption|].
  econstructor; eauto.
Qed.

Lemma seek_chain_ctl gs s s' :
  seek_chain gs s s' -> ctl_view s' = ctl_view s.
Proof.
  induction 1 as [|g gs s s1 s2 H _ IH]; [reflexivity|].
  rewrite IH. eapply seek_ctl; eauto.
Qed.

Lemma home_sample_chain n : forall acc s gaps s',
  home_sample n acc s = Some (Some gaps, s') ->
  exists new,
    gaps = acc ++ new /\ List.length new = n /\ seek_chain new s s'.
Proof.
  induction n as [|n IH]; intros acc s gaps s' H; cbn [home_sample] in H.
  - minv. injection H as ->. exists []. rewrite app_nil_r.
    repeat split. constructor.
  - minv; [|discriminate].
    apply IH in H. destruct H as (new & -> & Hl & Hc).
    exists (z :: new). rewrite <- app_assoc. cbn [app List.length].
    repeat split; [congruence|]. econstructor; eauto.
Qed.

(** The state in which [homeRoutine] starts to move: banner printed,
    globals reset. *)
Definition home_reset_state (v : Sketch) (s : State) : State :=
  let s := upd_nav (set_encoderGapThresholdSteps 0)
             (upd_nav (set_currentBin (-1))
                (upd_nav (set_homed false) (set_estop false s))) in
  match v with
  | CommandQueue => s
  | InventoryOutputs =>
      upd_queue (set_requestedBin (-1))
        (upd_queue (set_binRequested false)
           (upd_queue (set_inventoryRequested false) s))
  end.

Lemma home_reset_run v s :
  home_reset v s = Some (tt, home_reset_state v s).
Proof. destruct v; reflexivity. Qed.

Definition home_banner : list Tok :=
  [Txt (LF ++ "=== HOMING ROUTINE ==="); NL;
   Txt "Rotating CCW to find unique double-press (encoder then real notch)...";
   NL; Txt "(type 'e' to stop)"; NL].

(** The state in which the final scan starts: threshold stored and
    announced. *)
Definition home_calibrated (gaps : list Z) (s : State) : State :=
  emit [Txt "Estimated normal gap = "; Num (normal_gap gaps); NL;
        Txt "Homing threshold (short gap) = ";
        Num (gap_threshold (normal_gap gaps)); NL;
        Txt "Now scanning until a short gap is detected..."; NL]
       (upd_nav (set_encoderGapThresholdSteps
                   (gap_threshold (normal_gap gaps))) s).

(** The state in which a successful [homeRoutine] returns, from the state
    [s] in which the index offset has been applied. *)
Definition home_done (s : State) : State :=
  emit [Txt "Homing complete. Now at BIN0."; NL]
       (upd_nav (set_lastSelectedBin 0)
          (upd_nav (set_homed true) (upd_nav (set_currentBin 0) s))).

Definition short_gap_found (g : Z) (s : State) : State :=
  emit [Txt "Detected SHORT gap = "; Num g; NL;
        Txt "encoder -> REAL notch. Using REAL notch as BIN0 reference."; NL]
       s.

Lemma home_scan_success v fuel : forall s s',
  home_scan v fuel s = Some (true, s') ->
  exists skipped s1 g s2 s3,
    seek_chain skipped s s1 /\
    Forall (fun x => encoderGapThresholdSteps (nav s) <= x) skipped /\
    seekNextPressEventCCW s1 = Some ((true, g), s2) /\
    g < encoderGapThresholdSteps (nav s) /\
    applyIndexOffset v (short_gap_found g s2) = Some (true, s3) /\
    s' = home_done s3.
Proof.
  induction fuel as [|fuel IH]; intros s s' H; cbn [home_scan] in H;
    [discriminate|].
  minv; try discriminate; frame_facts.
  - match goal with Hb : (_ <? _) = true |- _ =>
      frame_rewrite_in Hb; apply Z.ltb_lt in Hb
    end.
    exists []. do 4 eexists.
    split; [constructor|]. split; [constructor|].
    split; [eassumption|]. split; [assumption|].
    split; [eassumption | reflexivity].
  - match goal with Hb : (_ <? _) = false |- _ =>
      frame_rewrite_in Hb; apply Z.ltb_ge in Hb
    end.
    apply IH in H. destruct H as (sk & s1 & g & s2 & s3 & Hc & Hf & Hs & Hg
                                  & Ho & ->).
    frame_rewrite_in Hf. frame_rewrite_in Hg.
    exists (z :: sk), s1, g, s2, s3. repeat split; auto.
    econstructor; eauto.
Qed.

Lemma homeRoutine_success v fuel s s' :
  homeRoutine v fuel s = Some (true, s') ->
  exists first gaps s1 s2,
    seekNextPressEventCCW (home_reset_state v (emit home_banner s))
      = Some ((true, first), s1) /\
    seek_chain gaps s1 s2 /\
    List.length gaps = Z.to_nat HOME_SAMPLE_EVENTS /\
    home_scan v fuel (home_calibrated gaps s2) = Some (true, s').
Proof.
  unfold homeRoutine. intros H. minv; try discriminate.
  match goal with Hr : home_reset _ _ = _ |- _ =>
    rewrite home_reset_run in Hr; injection Hr as Hr; subst
  end.
  match goal with Hs : home_sample _ _ _ = _ |- _ =>
    apply home_sample_chain in Hs; destruct Hs as (new & -> & Hl & Hc)
  end.
  do 4 eexists. split; [eassumption|]. split; [eassumption|].
  split; [assumption|]. exact H.
Qed.

(** C9.  Every successful run of [homeRoutine] leaves [lastSelectedBin] at
    0 together with [currentBin] at 0 and [homed] set, so the range test on
    [lastSelectedBin] at the head of [runInventorySequence] passes. *)
Theorem homeRoutine_sets_lastSelectedBin
    (v : Sketch) (fuel : nat) (s s' : State) :
  homeRoutine v fuel s = Some (true, s') ->
  lastSelectedBin (nav s') = 0 /\
  currentBin (nav s') = 0 /\
  homed (nav s') = true /\
  (lastSelectedBin (nav s') <? 0) || (3 <? lastSelectedBin (nav s')) = false.
Proof.
  intros H. apply homeRoutine_success in H.
  destruct H as (first & gaps & s1 & s2 & _ & _ & _ & H).
  apply home_scan_success in H.
  destruct H as (sk & sa & g & sb & sc & _ & _ & _ & _ & _ & ->).
  unfold home_done. rewrite emit_nav. cbn. auto.
Qed.

(** ** Step counts of a seek *)

Lemma seek_until_released_steps fuel d : forall sm g s ok sm' s',
  seek_until_released fuel d sm g s = Some ((ok, sm'), s') ->
  g <= MAX_STEPS_TO_FIND_INDEX ->
  sm <= sm' <= sm + (MAX_STEPS_TO_FIND_INDEX + 1 - g).
Proof.
  induction fuel as [|fuel IH]; intros sm g s ok sm' s' H Hg;
    cbn [seek_until_released] in H; [discriminate|].
  minv; try lia.
  match goal with Hb : (_ <? _) = false |- _ => apply Z.ltb_ge in Hb end.
  apply IH in H; lia.
Qed.

Lemma seek_escape_steps n : forall sm s ok sm' s',
  seek_escape n sm s = Some ((ok, sm'), s') ->
  sm <= sm' <= sm + Z.of_nat n.
Proof.
  induction n as [|n IH]; intros sm s ok sm' s' H; cbn [seek_escape] in H.
  - minv. lia.
  - minv; [apply IH in H|]; lia.
Qed.

Definition SEEK_STEPS_MAX : Z :=
  3 * (MAX_STEPS_TO_FIND_INDEX + 1) + POST_HIT_ESCAPE_STEPS.

Lemma seek_until_pressed_steps fuel : forall sm g ac s ok sm' s',
  seek_until_pressed fuel sm g ac s = Some ((ok, sm'), s') ->
  g <= MAX_STEPS_TO_FIND_INDEX ->
  sm <= sm' <=
    sm + (MAX_STEPS_TO_FIND_INDEX + 1 - g) + POST_HIT_ESCAPE_STEPS
       + (MAX_STEPS_TO_FIND_INDEX + 1).
Proof.
  induction fuel as [|fuel IH]; intros sm g ac s ok sm' s' H Hg;
    cbn [seek_until_pressed] in H; [discriminate|].
  pose proof MAX_STEPS_nonneg as Hm.
  assert (Hp : POST_HIT_ESCAPE_STEPS = 30) by reflexivity.
  minv;
    repeat match goal with
           | Hb : (_ <? _) = false |- _ => apply Z.ltb_ge in Hb
           | He : seek_escape _ _ _ = Some _ |- _ =>
               apply seek_escape_steps in He;
               rewrite Z2Nat.id in He by (rewrite Hp; lia)
           | Hr : seek_until_released _ _ _ _ _ = Some _ |- _ =>
               apply seek_until_released_steps in Hr; [|lia]
           end; try lia.
  apply IH in H; lia.
Qed.

Lemma seek_steps s ok g s' :
  seekNextPressEventCCW s = Some ((ok, g), s') ->
  0 <= g <= SEEK_STEPS_MAX.
Proof.
  unfold seekNextPressEventCCW, SEEK_STEPS_MAX. intros H.
  pose proof MAX_STEPS_nonneg as Hm.
  minv;
    repeat match goal with
           | Hr : seek_until_released _ _ _ _ _ = Some _ |- _ =>
               apply seek_until_released_steps in Hr; [|lia]
           | Hr : seek_until_pressed _ _ _ _ _ = Some _ |- _ =>
               apply seek_until_pressed_steps in Hr; [|lia]
           end; unfold POST_HIT_ESCAPE_STEPS in *; lia.
Qed.

Lemma seek_chain_steps gs s s' :
  seek_chain gs s s' -> Forall (fun g => 0 <= g <= SEEK_STEPS_MAX) gs.
Proof.
  induction 1 as [|g gs s s1 s2 H _ IH]; constructor; [|assumption].
  eapply seek_steps; eauto.
Qed.

(** ** The threshold is the rounded 0.6 of the normal gap *)

Fixpoint all_below (n : nat) (p : Z -> bool) : bool :=
  match n with
  | O => true
  | S k => p (Z.of_nat k) && all_below k p
  end.

Lemma all_below_spec n p :
  all_below n p = true ->
  forall z, 0 <= z < Z.of_nat n -> p z = true.
Proof.
  induction n as [|n IH]; intros H z Hz; [lia|].
  cbn [all_below] in H. apply andb_true_iff in H. destruct H as [H1 H2].
  destruct (Z.eq_dec z (Z.of_nat n)) as [->|N]; [assumption|].
  apply IH; [assumption | lia].
Qed.

Lemma gap_threshold_exact n :
  0 <= n <= SEEK_STEPS_MAX -> gap_threshold n = (6 * n + 5) / 10.
Proof.
  intros Hn.
  assert (H : all_below (Z.to_nat (SEEK_STEPS_MAX + 1))
                (fun k => gap_threshold k =? (6 * k + 5) / 10) = true)
    by (vm_compute; reflexivity).
  apply Z.eqb_eq.
  apply (all_below_spec _ _ H).
  rewrite Z2Nat.id; [lia|]. vm_compute. discriminate.
Qed.

(** ** The library sort *)

Section QsortFacts.
Context {A : Type} (cmp : A -> A -> Z).

Lemma qsort_insert_perm x l : Permutation (qsort_insert cmp x l) (x :: l).
Proof.
  induction l as [|y l IH]; cbn [qsort_insert]; [reflexivity|].
  destruct (cmp x y <=? 0); [reflexivity|].
  rewrite IH. apply perm_swap.
Qed.

Lemma qsort_perm l : Permutation (qsort cmp l) l.
Proof.
  induction l as [|x l IH]; cbn [qsort]; [reflexivity|].
  rewrite qsort_insert_perm. constructor. assumption.
Qed.

Lemma qsort_length l : List.length (qsort cmp l) = List.length l.
Proof. apply Permutation_length, qsort_perm. Qed.

(** With a comparator that is a total preorder the result is sorted. *)
Definition cmp_le (x y : A) : Prop := cmp x y <= 0.

Hypothesis cmp_total : forall x y, cmp_le x y \/ cmp_le y x.
Hypothesis cmp_trans : forall x y z, cmp_le x y -> cmp_le y z -> cmp_le x z.

Lemma qsort_insert_sorted x l :
  StronglySorted cmp_le l -> StronglySorted cmp_le (qsort_insert cmp x l).
Proof.
  induction l as [|y l IH]; intros Hs; cbn [qsort_insert].
  - repeat constructor.
  - inversion Hs as [|? ? Hs' Hf]; subst.
    destruct (Z.leb_spec (cmp x y) 0) as [Hle|Hgt].
    + constructor; [assumption|]. constructor; [assumption|].
      eapply Forall_impl; [|exact Hf]. intros z Hz.
      eapply cmp_trans; eauto.
    + constructor; [auto|].
      assert (Hyx : cmp_le y x).
      { destruct (cmp_total x y) as [H|H]; [unfold cmp_le in H; lia|auto]. }
      eapply Permutation_Forall;
        [symmetry; apply qsort_insert_perm|].
      constructor; assumption.
Qed.

Lemma qsort_sorted l : StronglySorted cmp_le (qsort cmp l).
Proof.
  induction l as [|x l IH]; cbn [qsort]; [constructor|].
  apply qsort_insert_sorted. assumption.
Qed.
End QsortFacts.

Lemma cmpLong_le x y : cmp_le cmpLong x y <-> (x <= y)%Z.
Proof.
  unfold cmp_le, cmpLong.
  destruct (Z.ltb_spec x y); destruct (Z.ltb_spec y x); lia.
Qed.

Lemma qsort_cmpLong_sorted l : StronglySorted Z.le (qsort cmpLong l).
Proof.
  assert (H : StronglySorted (cmp_le cmpLong) (qsort cmpLong l)).
  { apply qsort_sorted.
    - intros x y. rewrite !cmpLong_le. lia.
    - intros x y z. rewrite !cmpLong_le. lia. }
  induction H as [|a l' H IH Hf]; constructor; [assumption|].
  eapply Forall_impl; [|exact Hf]. intros z Hz. apply cmpLong_le. exact Hz.
Qed.

(** ** The order of the floats, and the sort on values that are not NaN *)

(** [x <= y] as the comparison of binary floats decides it. *)
Definition F32_le (x y : F32.t) : Prop := SFleb x y = true.

Ltac sf_cases :=
  repeat match goal with
         | |- context [Z.compare ?a ?b] => destruct (Z.compare_spec a b)
         | H : context [Z.compare ?a ?b] |- _ => destruct (Z.compare_spec a b)
         | |- context [Pos.compare_cont Eq ?a ?b] =>
             change (Pos.compare_cont Eq a b) with (Pos.compare a b);
             destruct (Pos.compare_spec a b)
         | H : context [Pos.compare_cont Eq ?a ?b] |- _ =>
             change (Pos.compare_cont Eq a b) with (Pos.compare a b) in H;
             destruct (Pos.compare_spec a b)
         end;
  cbn in *; subst; try discriminate; try reflexivity; try lia; auto.

Lemma SFleb_trans x y z :
  F32.isnan y = false ->
  SFleb x y = true -> SFleb y z = true -> SFleb x z = true.
Proof.
  unfold SFleb, SFcompare.
  destruct x as [[|]|[|]| |[|] mx ex], y as [[|]|[|]| |[|] my ey],
           z as [[|]|[|]| |[|] mz ez];
    cbn; intros Hy H1 H2; try discriminate; auto; sf_cases.
Qed.

Lemma SFltb_false_leb x y :
  F32.isnan x = false -> F32.isnan y = false ->
  SFltb y x = false -> SFleb x y = true.
Proof.
  unfold SFleb, SFltb, SFcompare.
  destruct x as [[|]|[|]| |[|] mx ex], y as [[|]|[|]| |[|] my ey];
    cbn; intros Hx Hy H; try discriminate; auto; sf_cases.
Qed.

Lemma SFltb_leb x y : SFltb x y = true -> SFleb x y = true.
Proof.
  unfold SFltb, SFleb. destruct (SFcompare x y) as [[| |]|]; congruence.
Qed.

(** What the comparator of the sketch says about two values that are not
    NaN. *)
Lemma cmpFloat_le x y :
  F32.isnan x = false -> F32.isnan y = false ->
  cmpFloat x y <= 0 -> F32_le x y.
Proof.
  unfold cmpFloat, F32.ltb, F32_le. intros Hx Hy.
  destruct (SFltb x y) eqn:E1; [intros _; apply SFltb_leb, E1|].
  destruct (SFltb y x) eqn:E2; [lia|].
  intros _. apply SFltb_false_leb; assumption.
Qed.

Lemma cmpFloat_gt x y : 0 < cmpFloat x y -> F32_le y x.
Proof.
  unfold cmpFloat, F32.ltb, F32_le.
  destruct (SFltb x y); [lia|].
  destruct (SFltb y x) eqn:E2; [intros _; apply SFltb_leb, E2 | lia].
Qed.

Definition not_nan (x : F32.t) : Prop := F32.isnan x = false.

Lemma qsort_insert_cmpFloat_sorted x l :
  not_nan x -> Forall not_nan l ->
  StronglySorted F32_le l ->
  StronglySorted F32_le (qsort_insert cmpFloat x l).
Proof.
  intros Hx. induction l as [|y l IH]; intros Hn Hs; cbn [qsort_insert].
  - repeat constructor.
  - apply Forall_cons_iff in Hn. destruct Hn as (Hy & Hn).
    apply StronglySorted_inv in Hs. destruct Hs as (Hs & Hf).
    destruct (Z.leb_spec (cmpFloat x y) 0) as [Hle|Hgt].
    + pose proof (cmpFloat_le _ _ Hx Hy Hle) as Hxy.
      constructor; [constructor; assumption|].
      constructor; [exact Hxy|].
      eapply Forall_impl; [|exact Hf]. intros z Hz.
      eapply SFleb_trans; [exact Hy | exact Hxy | exact Hz].
    + constructor; [apply IH; assumption|].
      eapply Permutation_Forall;
        [symmetry; apply qsort_insert_perm|].
      constructor; [apply cmpFloat_gt; exact Hgt | exact Hf].
Qed.

(** The sort with [cmpFloat] puts values that are not NaN in ascending
    order. *)
Lemma qsort_cmpFloat_sorted l :
  Forall not_nan l -> StronglySorted F32_le (qsort cmpFloat l).
Proof.
  induction l as [|x l IH]; intros Hn; cbn [qsort]; [constructor|].
  apply Forall_cons_iff in Hn. destruct Hn as (Hx & Hn).
  apply qsort_insert_cmpFloat_sorted; [exact Hx | | apply IH; exact Hn].
  eapply Permutation_Forall; [symmetry; apply qsort_perm | exact Hn].
Qed.

(** ** Medians *)

Definition count_le (m : Z) (l : list Z) : nat :=
  List.length (filter (fun x => x <=? m) l).

Definition count_ge (m : Z) (l : list Z) : nat :=
  List.length (filter (fun x => m <=? x) l).

(** [m] is a median of the sample [l]: one of its values, with at least
    half of the sample at or below it and at least half at or above it. *)
Definition is_median (m : Z) (l : list Z) : Prop :=
  In m l /\
  (List.length l <= 2 * count_le m l)%nat /\
  (List.length l <= 2 * count_ge m l)%nat.

Lemma filter_length_perm {A} (f : A -> bool) l l' :
  Permutation l l' ->
  List.length (filter f l) = List.length (filter f l').
Proof.
  induction 1 as [| x l l' _ IH | x y l | l l' l'' _ IH1 _ IH2];
    cbn [filter]; try congruence.
  - destruct (f x); cbn [List.length]; congruence.
  - destruct (f x), (f y); reflexivity.
Qed.

Lemma normal_gap_is_median gaps :
  List.length gaps = 10%nat -> is_median (normal_gap gaps) gaps.
Proof.
  intros Hl. unfold normal_gap, is_median, count_le, count_ge.
  pose proof (qsort_perm cmpLong gaps) as Hp.
  pose proof (qsort_cmpLong_sorted gaps) as Hs.
  pose proof (qsort_length cmpLong gaps) as Hq. rewrite Hl in Hq.
  rewrite <- (filter_length_perm _ _ _ Hp).
  rewrite <- (filter_length_perm (fun x => _ <=? x) _ _ Hp).
  rewrite <- (Permutation_length Hp).
  split.
  { eapply Permutation_in; [exact Hp|]. apply nth_In. rewrite Hq.
    vm_compute. lia. }
  destruct (qsort cmpLong gaps)
    as [|a0 [|a1 [|a2 [|a3 [|a4 [|a5 [|a6 [|a7 [|a8 [|a9 [|]]]]]]]]]]];
    try discriminate Hq.
  change (nth (Z.to_nat (HOME_SAMPLE_EVENTS / 2))
              [a0; a1; a2; a3; a4; a5; a6; a7; a8; a9] 0%Z) with a5.
  repeat match goal with
         | H : StronglySorted _ (_ :: _) |- _ =>
             apply StronglySorted_inv in H; destruct H
         | H : Forall _ (_ :: _) |- _ =>
             apply Forall_cons_iff in H; destruct H
         end.
  cbn [filter].
  repeat match goal with
         | |- context [?x <=? ?y] =>
             first [ replace (x <=? y) with true by (symmetry; apply Z.leb_le; lia)
                   | destruct (x <=? y) ]
         end;
    cbn [List.length]; lia.
Qed.

(** [m] is the upper of the two middle values of the sample [l]: the
    element of index [length l / 2] of [l] put in ascending order. *)
Definition upper_median (m : Z) (l : list Z) : Prop :=
  exists sorted,
    Permutation sorted l /\ StronglySorted Z.le sorted /\
    nth_error sorted (List.length l / 2)%nat = Some m.

Lemma sorted_perm_unique (l1 : list Z) : forall l2,
  StronglySorted Z.le l1 -> StronglySorted Z.le l2 ->
  Permutation l1 l2 -> l1 = l2.
Proof.
  induction l1 as [|a l1 IH]; intros l2 H1 H2 Hp.
  - apply Permutation_nil in Hp. subst. reflexivity.
  - destruct l2 as [|b l2];
      [symmetry in Hp; apply Permutation_nil in Hp; discriminate|].
    apply StronglySorted_inv in H1. destruct H1 as (S1 & F1).
    apply StronglySorted_inv in H2. destruct H2 as (S2 & F2).
    rewrite Forall_forall in F1, F2.
    assert (Hab : a = b).
    { assert (Ia : In a (b :: l2))
        by (eapply Permutation_in; [exact Hp | left; reflexivity]).
      assert (Ib : In b (a :: l1))
        by (eapply Permutation_in; [symmetry; exact Hp | left; reflexivity]).
      destruct Ia as [E|Ia]; [congruence|].
      destruct Ib as [E|Ib]; [congruence|].
      specialize (F1 _ Ib). specialize (F2 _ Ia). lia. }
    subst b. f_equal. apply IH; try assumption.
    eapply Permutation_cons_inv. exact Hp.
Qed.

Lemma upper_median_unique m m' l :
  upper_median m l -> upper_median m' l -> m' = m.
Proof.
  intros (s1 & P1 & S1 & N1) (s2 & P2 & S2 & N2).
  assert (E : s1 = s2).
  { apply sorted_perm_unique; try assumption.
    rewrite P1. symmetry. exact P2. }
  subst s2. congruence.
Qed.

Lemma normal_gap_upper_median gaps :
  List.length gaps = 10%nat -> upper_median (normal_gap gaps) gaps.
Proof.
  intros Hl. exists (qsort cmpLong gaps).
  split; [apply qsort_perm|]. split; [apply qsort_cmpLong_sorted|].
  rewrite Hl. unfold normal_gap.
  change (10 / 2)%nat with 5%nat.
  change (Z.to_nat (HOME_SAMPLE_EVENTS / 2)) with 5%nat.
  apply nth_error_nth'. rewrite qsort_length, Hl. lia.
Qed.

(** ** Rounding to the nearest integer *)

(** [round(x)] for a rational [x]: the nearest integer, halves upwards. *)
Definition round_Q (x : Q) : Z := Qfloor (x + (1 # 2)).

Lemma round_Q_six_tenths m :
  round_Q (inject_Z m * (6 # 10)) = ((6 * m + 5) / 10)%Z.
Proof.
  unfold round_Q, Qfloor, Qplus, Qmult, inject_Z. cbn [Qnum Qden].
  change (Z.pos (1 * 10 * 2)) with 20%Z.
  replace (m * 6 * 2 + 1 * Z.pos (1 * 10))%Z with ((6 * m + 5) * 2)%Z by lia.
  change 20%Z with (10 * 2)%Z.
  apply Z.div_mul_cancel_r; lia.
Qed.

Lemma home_calibrated_threshold gaps s :
  encoderGapThresholdSteps (nav (home_calibrated gaps s))
  = gap_threshold (normal_gap gaps).
Proof. unfold home_calibrated. rewrite emit_nav. reflexivity. Qed.

(** The claim of the specification, read to the letter: the threshold is
    [round(median * 0.6)] for the median of the ten gaps as it is defined
    for a sample of even size, the mean of the two middle values. *)
Definition calibration_claim_as_stated (v : Sketch) (fuel : nat) (s : State)
  : Prop :=
  forall first gaps s1 s2 s' sorted lo hi,
    seekNextPressEventCCW (home_reset_state v (emit home_banner s))
      = Some ((true, first), s1) ->
    seek_chain gaps s1 s2 ->
    List.length gaps = 10%nat ->
    homeRoutine v fuel s = Some (true, s') ->
    Permutation sorted gaps ->
    StronglySorted Z.le sorted ->
    nth_error sorted 4 = Some lo ->
    nth_error sorted 5 = Some hi ->
    encoderGapThresholdSteps (nav s')
      = round_Q (Qmake (lo + hi) 2 * (6 # 10))%Q.

(** C4, amended.  A successful [homeRoutine] has first sought one press
    event whose step count it drops, then sampled exactly 10 gaps by 10
    further seeks; the threshold it stores is [round(m * 0.6)] where [m] is
    the upper of the two middle values of those gaps, the sixth in
    ascending order, and not their mean; it then seeks on, passing over
    every gap at or above the threshold, and declares bin 0 at the first
    gap strictly below it. *)
Theorem homeRoutine_calibration (v : Sketch) (fuel : nat) (s s' : State) :
  homeRoutine v fuel s = Some (true, s') ->
  exists (first : Z) (gaps skipped : list Z) (m short : Z)
         (s1 s2 s3 s4 s5 : State),
    seekNextPressEventCCW (home_reset_state v (emit home_banner s))
      = Some ((true, first), s1) /\
    seek_chain gaps s1 s2 /\
    List.length gaps = 10%nat /\
    upper_median m gaps /\
    (forall m', upper_median m' gaps -> m' = m) /\
    encoderGapThresholdSteps (nav s')
      = round_Q (inject_Z m * (6 # 10))%Q /\
    seek_chain skipped (home_calibrated gaps s2) s3 /\
    Forall (fun g => encoderGapThresholdSteps (nav s') <= g) skipped /\
    seekNextPressEventCCW s3 = Some ((true, short), s4) /\
    short < encoderGapThresholdSteps (nav s') /\
    applyIndexOffset v (short_gap_found short s4) = Some (true, s5) /\
    s' = home_done s5 /\
    currentBin (nav s') = 0 /\
    homed (nav s') = true.
Proof.
  intros H. apply homeRoutine_success in H.
  destruct H as (first & gaps & s1 & s2 & Hfirst & Hgaps & Hlen & H).
  apply home_scan_success in H.
  destruct H as (sk & s3 & g & s4 & s5 & Hsk & Hall & Hseek & Hshort & Hoff
                 & ->).
  change (Z.to_nat HOME_SAMPLE_EVENTS) with 10%nat in Hlen.
  pose proof (normal_gap_is_median gaps Hlen) as Hmed.
  assert (Hthr : encoderGapThresholdSteps (nav (home_done s5))
                 = gap_threshold (normal_gap gaps)).
  { unfold home_done. rewrite emit_nav. cbn.
    apply offset_ctl in Hoff. apply seek_ctl in Hseek.
    apply seek_chain_ctl in Hsk. unfold short_gap_found in Hoff.
    split_view Hoff. split_view Hseek. split_view Hsk.
    repeat match goal with E : nav _ = _ |- _ => rewrite E end.
    reflexivity. }
  rewrite home_calibrated_threshold in Hall, Hshort.
  assert (Hrange : 0 <= normal_gap gaps <= SEEK_STEPS_MAX).
  { destruct Hmed as (Hin & _).
    pose proof (seek_chain_steps _ _ _ Hgaps) as Hb.
    rewrite Forall_forall in Hb. apply Hb. exact Hin. }
  pose proof (normal_gap_upper_median gaps Hlen) as Hup.
  exists first, gaps, sk, (normal_gap gaps), g, s1, s2, s3, s4, s5.
  rewrite Hthr, round_Q_six_tenths.
  rewrite <- gap_threshold_exact by exact Hrange.
  split; [exact Hfirst|]. split; [exact Hgaps|]. split; [exact Hlen|].
  split; [exact Hup|].
  split; [intros m' Hm'; apply (upper_median_unique _ _ _ Hup Hm')|].
  split; [reflexivity|]. split; [exact Hsk|]. split; [exact Hall|].
  split; [exact Hseek|]. split; [exact Hshort|]. split; [exact Hoff|].
  split; [reflexivity|].
  split; unfold home_done; rewrite emit_nav; reflexivity.
Qed.

(** The claim of C4 as stated fails on a run with the gaps 70, 55, 90, 63,
    58, 100, 75, 82, 68, 95: the two middle values are 70 and 75, their
    mean 72.5 gives 44, and the threshold stored is 45. *)
Lemma calibration_claim_counterexample :
  ~ calibration_claim_as_stated CommandQueue 5
      (Bench.boot Bench.env_uneven_gaps).
Proof.
  intros C.
  set (s := Bench.boot Bench.env_uneven_gaps) in *.
  set (r1 := Bench.run seekNextPressEventCCW
               (home_reset_state CommandQueue (emit home_banner s))
               (false, 0)).
  set (r2 := Bench.run (home_sample 10 []) (snd r1) None).
  set (r3 := Bench.run (homeRoutine CommandQueue 5) s false).
  set (gaps := [70; 55; 90; 63; 58; 100; 75; 82; 68; 95]).
  assert (H1 : seekNextPressEventCCW
                 (home_reset_state CommandQueue (emit home_banner s))
               = Some ((true, snd (fst r1)), snd r1))
    by (vm_compute; reflexivity).
  assert (H2 : home_sample 10 [] (snd r1) = Some (Some gaps, snd r2))
    by (vm_compute; reflexivity).
  assert (H3 : homeRoutine CommandQueue 5 s = Some (true, snd r3))
    by (vm_compute; reflexivity).
  apply home_sample_chain in H2.
  destruct H2 as (new & E & Hl & Hc). cbn [app] in E. subst new.
  assert (Es : qsort cmpLong gaps = [55; 58; 63; 68; 70; 75; 82; 90; 95; 100])
    by (vm_compute; reflexivity).
  pose proof (qsort_perm cmpLong gaps) as Hp.
  pose proof (qsort_cmpLong_sorted gaps) as Hs.
  rewrite Es in Hp, Hs.
  specialize (C _ _ _ _ _ _ 70 75 H1 Hc Hl H3 Hp Hs eq_refl eq_refl).
  vm_compute in C. discriminate C.
Qed.

(* ================================================================== *)
(** * Break-beam gate state machine *)

(** What the next read of the beam and of the clock will answer. *)
Definition beam_raw_now (s : State) : bool :=
  Bool.eqb (beam_pin (world s) (beam_reads (hw s))) LOW.

Definition clock_now (s : State) : Z :=
  u32 (clock_ms (world s) (clock_reads (hw s))).

Lemma beamBlockedRaw_inv s r s' :
  beamBlockedRaw s = Some (r, s') ->
  r = beam_raw_now s /\ s' = upd_hw (hw_next BeamPort) s.
Proof. intros H. inversion H. auto. Qed.

Lemma millis_inv s t s' :
  millis s = Some (t, s') ->
  t = clock_now s /\ s' = upd_hw (hw_next ClockPort) s.
Proof. intros H. inversion H. auto. Qed.

Ltac ginv :=
  repeat first
    [ progress minv
    | match goal with
      | H : beamBlockedRaw _ = Some (_, _) |- _ =>
          apply beamBlockedRaw_inv in H; destruct H; subst
      | H : millis _ = Some (_, _) |- _ =>
          apply millis_inv in H; destruct H; subst
      end ].

(** The named states of the gate. *)
Definition BLOCKED (g : Gate) : Prop :=
  gateLockout g = true /\ beamStableBlocked g = true.

Definition REARMING (g : Gate) : Prop :=
  gateLockout g = true /\ beamStableBlocked g = false /\
  gateOpenedAtMs g <> 0.

Definition INVENTORY_PENDING (g : Gate) : Prop :=
  inventoryPending g = true.

(** A stable blocked-beam event in state [s]: the beam reads blocked, the
    stable state was open, and the raw level has not changed for the
    debounce time (it counts from now when it has just changed). *)
Definition stable_blocked_event (s : State) : Prop :=
  beam_raw_now s = true /\
  beamStableBlocked (gate s) = false /\
  BEAM_DEBOUNCE_MS <=
    u32 (clock_now s
         - (if Bool.eqb (beam_raw_now s) (beamLastRawBlocked (gate s))
            then beamLastChangeMs (gate s)
            else clock_now s)).

Lemma beam_debounce_pending s sm :
  beam_debounce s = Some (tt, sm) ->
  inventoryPending (gate sm) = inventoryPending (gate s) /\
  nav sm = nav s /\ queue sm = queue s /\ estop sm = estop s /\
  world sm = world s /\
  clock_now sm = clock_now (upd_hw (hw_next ClockPort) s).
Proof.
  unfold beam_debounce. intros H. ginv; cbn; auto 10.
Qed.

Lemma beam_debounce_blocked_event s sm :
  beam_debounce s = Some (tt, sm) ->
  stable_blocked_event s ->
  BLOCKED (gate sm) /\ gateOpenedAtMs (gate sm) = 0.
Proof.
  unfold beam_debounce, stable_blocked_event, BLOCKED.
  intros H (Hraw & Hprev & Hst). ginv; cbn in *.
  all: change (clock_now (upd_hw (hw_next BeamPort) s)) with (clock_now s)
         in *.
  all: try rewrite Hraw in *; try rewrite Hprev in *; cbn in *;
    try discriminate; auto.
  all: repeat match goal with
         | Hb : (_ <=? _) = false |- _ => apply Z.leb_gt in Hb
         | Hb : (_ <=? _) = true |- _ => apply Z.leb_le in Hb
         | Hb : (if ?x then true else false) = _ |- _ =>
             destruct x eqn:?; cbn in Hb; try discriminate
         end; cbn in *; try discriminate;
    rewrite ?Z.sub_diag in *; change (u32 0) with 0 in *;
    unfold BEAM_DEBOUNCE_MS in *; try lia.
Qed.

Lemma beam_debounce_from_blocked s sm :
  beam_debounce s = Some (tt, sm) ->
  BLOCKED (gate s) ->
  beamStableBlocked (gate sm) = true \/
  gateOpenedAtMs (gate sm) = clock_now s.
Proof.
  unfold beam_debounce, BLOCKED. intros H (Hl & Hb). ginv; cbn in *; auto.
  all: change (clock_now (upd_hw (hw_next BeamPort) s)) with (clock_now s)
         in *.
  all: rewrite Hb in *;
    destruct (beam_raw_now s); cbn in *; try discriminate; auto.
Qed.

Lemma gate_rearm_spec s fired sr :
  gate_rearm s = Some (fired, sr) ->
  (fired = true <->
   REARMING (gate s) /\
   BEAM_ARM_DELAY_MS <= u32 (clock_now s - gateOpenedAtMs (gate s))) /\
  (fired = true ->
   gateLockout (gate sr) = false /\ gateOpenedAtMs (gate sr) = 0 /\
   inventoryPending (gate sr) = true /\
   beamStableBlocked (gate sr) = false) /\
  (fired = false -> gate sr = gate s).
Proof.
  unfold gate_rearm, REARMING. intros H. ginv; cbn in *.
  all: repeat match goal with
         | Hb : _ && _ = true |- _ => apply andb_true_iff in Hb; destruct Hb
         | Hb : negb _ = true |- _ => apply negb_true_iff in Hb
         | Hb : (_ =? _) = false |- _ => apply Z.eqb_neq in Hb
         | Hb : (_ <=? _) = true |- _ => apply Z.leb_le in Hb
         | Hb : (_ <=? _) = false |- _ => apply Z.leb_gt in Hb
         end.
  - repeat split; auto; discriminate.
  - repeat split; auto; try discriminate. intros (_ & Hd). lia.
  - repeat split; auto; try discriminate. intros ((Hl & Hb & Ho) & _).
    rewrite Hl, Hb in *. cbn in *.
    apply negb_false_iff, Z.eqb_eq in Heqb. contradiction.
Qed.

Lemma tryRunQueuedCommands_locked v fuel s :
  gateLockout (gate s) = true ->
  tryRunQueuedCommands v (S fuel) s = Some (tt, s).
Proof.
  intros Hl. cbn [tryRunQueuedCommands]. unfold bind, gets, ret.
  destruct (estop s); [reflexivity|]. rewrite Hl. cbv beta.
  destruct (inventoryRequested (queue s)), (inventoryPending (gate s)),
    (beamStableBlocked (gate s)), (binRequested (queue s));
    cbn [andb negb]; rewrite ?andb_false_r; reflexivity.
Qed.

(** C3.  A pass of [updateBeamDebounce] is the debounce step, the re-arm
    check and, when that fired, the queue drain.  The debounce step never
    writes [inventoryPending]; the re-arm check sets it exactly when the
    gate is re-arming (locked out, beam stably open, opened-at time stamp
    not zero) and at least 2000 ms have passed since that time stamp, so
    never in the blocked state, nor in a pass that began blocked unless the
    clock moved 2000 ms within the pass.  A stable blocked-beam event
    forces the blocked state (lockout set, time stamp cleared) whatever the
    gate was in, the pass ends there, and while locked out the drain runs
    nothing. *)
Theorem gate_state_machine (v : Sketch) (fuel : nat) (s s' : State) :
  updateBeamDebounce v fuel s = Some (tt, s') ->
  exists (sm : State) (fired : bool) (sr : State),
    beam_debounce s = Some (tt, sm) /\
    gate_rearm sm = Some (fired, sr) /\
    (if fired then tryRunQueuedCommands v fuel sr = Some (tt, s')
     else s' = sr) /\
    inventoryPending (gate sm) = inventoryPending (gate s) /\
    (fired = false -> gate sr = gate sm) /\
    (fired = true ->
     REARMING (gate sm) /\ ~ BLOCKED (gate sm) /\
     BEAM_ARM_DELAY_MS <= u32 (clock_now sm - gateOpenedAtMs (gate sm)) /\
     INVENTORY_PENDING (gate sr) /\
     gateLockout (gate sr) = false /\ gateOpenedAtMs (gate sr) = 0) /\
    (BLOCKED (gate s) ->
     u32 (clock_now sm - clock_now s) < BEAM_ARM_DELAY_MS ->
     fired = false) /\
    (stable_blocked_event s ->
     BLOCKED (gate sm) /\ gateOpenedAtMs (gate sm) = 0 /\
     fired = false /\ s' = sr /\ gate s' = gate sm /\
     forall n, tryRunQueuedCommands v (S n) s' = Some (tt, s')).
Proof.
  unfold updateBeamDebounce. intros H.
  apply bind_inv in H. destruct H as ([] & sm & Hd & H).
  apply bind_inv in H. destruct H as (fired & sr & Hr & H).
  exists sm, fired, sr.
  pose proof (beam_debounce_pending _ _ Hd) as (Hp & _).
  pose proof (gate_rearm_spec _ _ _ Hr) as (Hiff & Hon & Hoff).
  split; [exact Hd|]. split; [exact Hr|].
  split; [destruct fired; [exact H | apply ret_inv in H; apply H]|].
  split; [exact Hp|]. split; [exact Hoff|].
  split; [|split].
  - intros Hf. destruct (proj1 Hiff Hf) as (Hre & Hdel).
    destruct (Hon Hf) as (Hl & Ho & Hi & _).
    repeat split; try apply Hre; auto.
    intros (_ & Hb). destruct Hre as (_ & Hb' & _). congruence.
  - intros Hb Hclk. destruct fired; [|reflexivity]. exfalso.
    destruct (proj1 Hiff eq_refl) as ((_ & Hnb & _) & Hdel).
    destruct (beam_debounce_from_blocked _ _ Hd Hb) as [Hbb|Ho];
      [congruence|].
    rewrite Ho in Hdel. lia.
  - intros He.
    destruct (beam_debounce_blocked_event _ _ Hd He) as (Hb & Ho).
    assert (Hf : fired = false).
    { destruct fired; [|reflexivity]. exfalso.
      destruct (proj1 Hiff eq_refl) as ((_ & Hnb & _) & _).
      destruct Hb as (_ & Hb). congruence. }
    subst fired. apply ret_inv in H. destruct H as (_ & ->).
    rewrite (Hoff eq_refl). repeat split; try apply Hb; auto.
    intros n. apply tryRunQueuedCommands_locked.
    rewrite (Hoff eq_refl). apply Hb.
Qed.

(* ================================================================== *)
(** * Ultrasonic robust distance *)

(** The specification of the reduction, in its own words: sort the medians,
    trim [round(count * 0.20)] of them from each end, but never so many
    that nothing is left, and average the rest.  *)
Definition spec_trim (count : Z) : Z :=
  Z.min (round_Q (inject_Z count * (20 # 100))%Q) ((count - 1) / 2).

(** The average as the code computes it: sum and quotient in binary64,
    result rounded to binary32. *)
Definition mean64 (xs : list F32.t) : F32.t :=
  F64.to_F32
    (F64.div (fold_left (fun acc x => F64.add acc (F64.of_F32 x)) xs
                        (S754_zero false))
             (F64.of_Z (Z.of_nat (List.length xs)))).

(** A list without its [t] first and its [t] last elements. *)
Definition trim_ends (t : Z) (l : list F32.t) : list F32.t :=
  firstn (List.length l - 2 * Z.to_nat t) (skipn (Z.to_nat t) l).

Definition trimmed_middle (meds : list F32.t) : list F32.t :=
  let t := Z.to_nat (spec_trim (Z.of_nat (List.length meds))) in
  firstn (List.length meds - 2 * t) (skipn t (qsort cmpFloat meds)).

Definition trimmed_mean (meds : list F32.t) : F32.t :=
  mean64 (trimmed_middle meds).

Lemma trim_count_spec c :
  5 <= c <= MAX_BLOCKS -> trim_count c = spec_trim c.
Proof.
  intros Hc.
  assert (H : all_below (Z.to_nat (MAX_BLOCKS + 1))
                (fun k => (k <? 5) || (trim_count k =? spec_trim k)) = true)
    by (vm_compute; reflexivity).
  pose proof (all_below_spec _ _ H c) as Hk.
  rewrite Z2Nat.id in Hk by (vm_compute; discriminate).
  specialize (Hk ltac:(lia)). apply orb_true_iff in Hk.
  destruct Hk as [Hk|Hk]; [apply Z.ltb_lt in Hk; lia | apply Z.eqb_eq, Hk].
Qed.

Lemma spec_trim_bounds c :
  5 <= c <= MAX_BLOCKS -> 0 <= spec_trim c /\ 2 * spec_trim c + 1 <= c.
Proof.
  intros Hc.
  assert (H : all_below (Z.to_nat (MAX_BLOCKS + 1))
                (fun k => (k <? 5) ||
                          ((0 <=? spec_trim k) &&
                           (2 * spec_trim k + 1 <=? k))) = true)
    by (vm_compute; reflexivity).
  pose proof (all_below_spec _ _ H c) as Hk.
  rewrite Z2Nat.id in Hk by (vm_compute; discriminate).
  specialize (Hk ltac:(lia)). apply orb_true_iff in Hk.
  destruct Hk as [Hk|Hk]; [apply Z.ltb_lt in Hk; lia|].
  apply andb_true_iff in Hk. rewrite !Z.leb_le in Hk. exact Hk.
Qed.

Lemma skipn_nth_cons {A} (d : A) : forall i l,
  (i < List.length l)%nat -> skipn i l = nth i l d :: skipn (S i) l.
Proof.
  induction i as [|i IH]; intros [|x l] Hl; cbn [List.length] in Hl;
    try lia; [reflexivity|].
  cbn [skipn nth]. rewrite IH by lia. reflexivity.
Qed.

Lemma sum_loop_fold meds : forall n i sum used,
  (i + n <= List.length meds)%nat ->
  sum_loop meds n (Z.of_nat i) sum used
  = (fold_left (fun acc x => F64.add acc (F64.of_F32 x))
               (firstn n (skipn i meds)) sum,
     used + Z.of_nat n).
Proof.
  induction n as [|n IH]; intros i sum used Hl; cbn [sum_loop].
  - cbn [firstn fold_left Z.of_nat]. rewrite Z.add_0_r. reflexivity.
  - rewrite (skipn_nth_cons F32.NAN i meds) by lia.
    cbn [firstn fold_left]. rewrite Nat2Z.id.
    replace (Z.of_nat i + 1) with (Z.of_nat (S i)) by lia.
    rewrite IH by lia. f_equal. lia.
Qed.

Lemma robust_reduce_few meds :
  Z.of_nat (List.length meds) < 5 -> robust_reduce meds = F32.NAN.
Proof.
  intros H. unfold robust_reduce. apply Z.ltb_lt in H. rewrite H. reflexivity.
Qed.

Lemma trimmed_middle_length meds :
  5 <= Z.of_nat (List.length meds) <= MAX_BLOCKS ->
  Z.of_nat (List.length (trimmed_middle meds))
  = Z.of_nat (List.length meds)
    - 2 * spec_trim (Z.of_nat (List.length meds)).
Proof.
  intros Hc. pose proof (spec_trim_bounds _ Hc) as (Ht0 & Ht1).
  unfold trimmed_middle.
  rewrite length_firstn, length_skipn, qsort_length. lia.
Qed.

Lemma robust_reduce_trimmed meds :
  5 <= Z.of_nat (List.length meds) <= MAX_BLOCKS ->
  robust_reduce meds = trimmed_mean meds.
Proof.
  intros Hc. pose proof (spec_trim_bounds _ Hc) as (Ht0 & Ht1).
  pose proof (trimmed_middle_length meds Hc) as Hlen.
  unfold robust_reduce.
  replace (Z.of_nat (List.length meds) <? 5) with false
    by (symmetry; apply Z.ltb_ge; lia).
  rewrite trim_count_spec by exact Hc.
  set (t := spec_trim (Z.of_nat (List.length meds))) in *.
  pose proof (sum_loop_fold (qsort cmpFloat meds)
                (Z.to_nat (Z.of_nat (List.length meds) - t - t))
                (Z.to_nat t) (S754_zero false) 0) as E.
  rewrite Z2Nat.id in E by lia.
  rewrite E by (rewrite qsort_length; lia). clear E.
  replace (Z.to_nat (Z.of_nat (List.length meds) - t - t))
    with (List.length meds - 2 * Z.to_nat t)%nat by lia.
  change (firstn (List.length meds - 2 * Z.to_nat t)
             (skipn (Z.to_nat t) (qsort cmpFloat meds)))
    with (trimmed_middle meds).
  replace (0 + Z.of_nat (List.length meds - 2 * Z.to_nat t))
    with (Z.of_nat (List.length (trimmed_middle meds))) by lia.
  replace (Z.of_nat (List.length (trimmed_middle meds)) <=? 0) with false
    by (symmetry; apply Z.leb_gt; lia).
  reflexivity.
Qed.

Lemma robust_collect_count fuel n : forall t0 meds s fin meds' s',
  robust_collect fuel n t0 meds s = Some ((fin, meds'), s') ->
  Z.of_nat (List.length meds) < MAX_BLOCKS ->
  Z.of_nat (List.length meds') <= MAX_BLOCKS /\
  (fin = false -> estop s' = true).
Proof.
  induction n as [|n IH]; intros t0 meds s fin meds' s' H Hm;
    cbn [robust_collect] in H; [discriminate|].
  minv.
  - split; [lia | auto].
  - split; [|discriminate].
    match goal with |- context [F32.isnan ?m] => destruct (F32.isnan m) end;
      [lia|].
    rewrite length_app. cbn [List.length]. lia.
  - apply IH in H; [assumption|].
    match goal with Hb : (_ <=? _) = false |- _ => apply Z.leb_gt in Hb end.
    assumption.
  - split; [lia | discriminate].
Qed.

(** The window loop keeps no NaN. *)
Lemma robust_collect_not_nan fuel n : forall t0 meds s fin meds' s',
  robust_collect fuel n t0 meds s = Some ((fin, meds'), s') ->
  Forall not_nan meds -> Forall not_nan meds'.
Proof.
  induction n as [|n IH]; intros t0 meds s fin meds' s' H Hm;
    cbn [robust_collect] in H; [discriminate|].
  assert (Hk : forall m,
             Forall not_nan (if F32.isnan m then meds else meds ++ [m])).
  { intros m. destruct (F32.isnan m) eqn:E; [exact Hm|].
    apply Forall_app. split; [exact Hm|]. constructor; [exact E|constructor]. }
  minv; try assumption.
  - apply Hk.
  - eapply IH; [eassumption | apply Hk].
Qed.

Lemma trimmed_middle_sorted meds :
  trimmed_middle meds
  = trim_ends (spec_trim (Z.of_nat (List.length meds))) (qsort cmpFloat meds).
Proof. unfold trimmed_middle, trim_ends. rewrite qsort_length. reflexivity. Qed.

(** The claim of the specification, read to the letter: the result is
    undefined when fewer than 5 medians were collected, and the trimmed
    mean otherwise. *)
Definition robust_claim_as_stated (fuel : nat) (s : State) : Prop :=
  forall d s' fin meds,
    readRobustDistance4sCm fuel s = Some (d, s') ->
    robust_collect fuel fuel (clock_now s) []
                   (upd_hw (hw_next ClockPort) s) = Some ((fin, meds), s') ->
    d = if Z.of_nat (List.length meds) <? 5 then F32.NAN
        else trimmed_mean meds.




(** An [e] that arrives inside the sixth block, after the test at the top
    of the iteration: the block is lost, the window ends at the next look
    at the clock, and the five medians give a number although the latch is
    set. *)
Lemma latch_set_inside_block :
  exists d s',
    readRobustDistance4sCm 10 (Bench.boot Bench.env_estop_in_block)
      = Some (d, s') /\
    estop s' = true /\ F32.isnan d = false.
Proof.
  exists (fst (Bench.run (readRobustDistance4sCm 10)
                 (Bench.boot Bench.env_estop_in_block) F32.NAN)),
         (snd (Bench.run (readRobustDistance4sCm 10)
                 (Bench.boot Bench.env_estop_in_block) F32.NAN)).
  split; [vm_compute; reflexivity|].
  split; vm_compute; reflexivity.
Qed.

(* ================================================================== *)
(** * Inventory sequence *)

Definition inventory_banner : list Tok :=
  [Txt (LF ++ "=== INVENTORY SENSING ==="); NL;
   Txt "Rotating 2 bins (180 deg) to ultrasonic sensor..."; NL].

Definition inventory_measuring : list Tok :=
  [Txt "Measuring distance for ~4 seconds (robust average)..."; NL].

Definition inventory_complete : list Tok :=
  [Txt "Inventory complete. You may now select another bin."; NL].

(** The four preconditions, in the order of their tests. *)
Definition inventory_ready (s : State) : bool :=
  homed (nav s) && negb (beamStableBlocked (gate s))
  && inventoryPending (gate s)
  && negb ((lastSelectedBin (nav s) <? 0) || (3 <? lastSelectedBin (nav s))).

(** The message of the first precondition that fails. *)
Definition inventory_refusal (s : State) : string :=
  if negb (homed (nav s)) then "ERROR: Not homed."
  else if beamStableBlocked (gate s)
       then "ERROR: Gate is BLOCKED. Push bin fully in first."
  else if negb (inventoryPending (gate s)) then "Inventory not pending."
  else "ERROR: Unknown lastSelectedBin.".

(** HI means full: a defined distance below the threshold. *)
Definition classification (d : F32.t) : bool :=
  negb (F32.isnan d) && F32.ltb d INVENTORY_THRESH_CM.

Definition HI_LO (isHI : bool) : string := if isHI then "HI" else "LO".

Definition distance_report (d : F32.t) : list Tok :=
  if F32.isnan d then
    [Txt "LO"; NL; Txt "(Distance(cm) = NAN)"; NL]
  else
    [Txt (HI_LO (F32.ltb d INVENTORY_THRESH_CM)); NL;
     Txt "(Distance(cm) = "; Flt d 3; Txt ")"; NL].

(** The CSV-ready line, as printed. *)
Definition log_line (bin : Z) (isHI : bool) (t : Z) : list Tok :=
  [Txt "bin"; Num bin; Txt ","; Txt (HI_LO isHI); Txt ","; Num t; NL].

(** The state in which [runInventorySequence] calls the drain, from the
    state [s] in which the distance [d] has been measured. *)
Definition inventory_reported (v : Sketch) (d : F32.t) (s : State) : State :=
  let s1 := emit (distance_report d) s in
  let s2 :=
    match v with
    | CommandQueue => s1
    | InventoryOutputs =>
        emit [Num (clock_now s1); NL]
          (upd_hw (hw_next ClockPort)
             (emit [Txt "bin"; Num (lastSelectedBin (nav s1)); Txt ",";
                    Txt (HI_LO (classification d)); Txt ","] s1))
    end in
  emit inventory_complete (upd_gate (set_inventoryPending false) s2).

(** The text of a sequence of prints, where it holds no float: decimal
    numbers, and carriage return and line feed for the end of a line. *)
Definition render_num (z : Z) : string := NilZero.string_of_int (Z.to_int z).

Definition CRLF : string :=
  String (ascii_of_nat 13) (String (ascii_of_nat 10) EmptyString).

Fixpoint render (ts : list Tok) : option string :=
  match ts with
  | [] => Some EmptyString
  | Txt s :: r => option_map (String.append s) (render r)
  | Num z :: r => option_map (String.append (render_num z)) (render r)
  | NL :: r => option_map (String.append CRLF) (render r)
  | Flt _ _ :: _ => None
  end.

(** The format [bin<N>,<HI|LO>,<timestampMs>] of the specification. *)
Definition csv_line (bin : Z) (isHI : bool) (t : Z) : string :=
  ("bin" ++ render_num bin ++ "," ++ HI_LO isHI ++ "," ++ render_num t
   ++ CRLF)%string.

Lemma render_log_line bin isHI t :
  render (log_line bin isHI t) = Some (csv_line bin isHI t).
Proof.
  unfold log_line, csv_line. cbn [render option_map]. reflexivity.
Qed.

Lemma report_distance_run d s :
  report_distance d s
  = Some (classification d, emit (distance_report d) s).
Proof.
  unfold report_distance, classification, distance_report.
  destruct (F32.isnan d); reflexivity.
Qed.

Lemma moveBins_gq v n s r s' :
  moveBins v n s = Some (r, s') -> gq_view s' = gq_view s.
Proof. apply Keeps_moveBins. Qed.

Lemma readRobust_ctl fuel s d s' :
  readRobustDistance4sCm fuel s = Some (d, s') -> ctl_view s' = ctl_view s.
Proof. apply Keeps_readRobustDistance4sCm, ctl_view_blind. Qed.

Lemma runInventorySequence_refused v fuel drain s :
  inventory_ready s = false ->
  runInventorySequence v fuel drain s
  = Some (false, emit [Txt (inventory_refusal s); NL] s).
Proof.
  unfold inventory_ready, inventory_refusal. intros H.
  unfold runInventorySequence, bind, gets. cbv beta.
  destruct (homed (nav s)) eqn:Eh; cbn [negb]; cbv beta iota;
    [|reflexivity].
  destruct (beamStableBlocked (gate s)) eqn:Eb; cbv beta iota;
    [reflexivity|].
  destruct (inventoryPending (gate s)) eqn:Ep; cbn [negb]; cbv beta iota;
    [|reflexivity].
  cbn [andb negb] in H. apply negb_false_iff in H. rewrite H. reflexivity.
Qed.

Lemma runInventorySequence_run v fuel drain s :
  inventory_ready s = true ->
  runInventorySequence v fuel drain s
  = match moveBins v 2 (emit inventory_banner s) with
    | None => None
    | Some (false, sa) => Some (false, sa)
    | Some (true, sa) =>
        match readRobustDistance4sCm fuel (emit inventory_measuring sa) with
        | None => None
        | Some (d, sb) =>
            if estop sb then Some (false, sb)
            else match drain (inventory_reported v d sb) with
                 | None => None
                 | Some (_, s') => Some (true, s')
                 end
        end
    end.
Proof.
  unfold inventory_ready. intros H.
  repeat (apply andb_true_iff in H; destruct H as [H ?]).
  match goal with Hl : negb _ = true |- _ => apply negb_true_iff in Hl end.
  match goal with Hb : negb _ = true |- _ => apply negb_true_iff in Hb end.
  unfold runInventorySequence, bind, gets. cbv beta.
  rewrite H. cbn [negb]. cbv beta iota.
  rewrite H2. cbv beta iota.
  rewrite H1. cbn [negb]. cbv beta iota.
  rewrite H0. cbv beta iota.
  cbv beta iota delta [println print bind modify].
  match goal with |- context [moveBins v 2 ?x] =>
    change x with (emit inventory_banner s)
  end.
  destruct (moveBins v 2 (emit inventory_banner s)) as [[[|] sa]|] eqn:Em;
    try reflexivity.
  cbn [negb]. cbv beta iota.
  match goal with |- context [readRobustDistance4sCm fuel ?x] =>
    change x with (emit inventory_measuring sa)
  end.
  destruct (readRobustDistance4sCm fuel (emit inventory_measuring sa))
    as [[d sb]|] eqn:Er; try reflexivity.
  destruct (estop sb) eqn:Ee; [reflexivity|].
  rewrite report_distance_run.
  assert (Hl : lastSelectedBin (nav sb) = lastSelectedBin (nav s)).
  { apply readRobust_ctl in Er. apply moveBins_gq in Em.
    split_view Er. split_view Em.
    match goal with E : nav sb = _ |- _ => rewrite E end.
    cbn. assumption. }
  destruct v.
  - cbv beta iota delta [ret]. unfold inventory_reported.
    match goal with |- context [drain ?x] =>
      change x with
        (emit inventory_complete
           (upd_gate (set_inventoryPending false)
              (emit (distance_report d) sb)))
    end.
    destruct (drain _) as [[[] s']|]; reflexivity.
  - unfold printInventoryLogLine.
    cbv beta iota delta [ret println print bind modify millis negb
                           PRINT_INV_LOG_LINE].
    rewrite emit_nav, Hl, H0.
    unfold inventory_reported. cbv zeta. rewrite emit_nav, Hl.
    destruct (drain _) as [[[] s']|]; reflexivity.
Qed.

(* ================================================================== *)
(** * Deferred command queue *)

(** The guard of the inventory branch of the drain, and of its bin branch. *)
Definition inventory_allowed (s : State) : bool :=
  inventoryRequested (queue s)
  && (inventoryPending (gate s) && negb (gateLockout (gate s))
      && negb (beamStableBlocked (gate s))).

Definition bin_allowed (s : State) : bool :=
  binRequested (queue s)
  && (negb (gateLockout (gate s)) && negb (inventoryPending (gate s))).

(** The states in which the drain calls the queued operation and in which
    it returns. *)
Definition inventory_started (s : State) : State :=
  upd_queue (set_inventoryRequested false)
    (emit [Txt "Auto-running queued inventory request..."; NL] s).

Definition inventory_returned (ok : bool) (s : State) : State :=
  emit [Txt "Enter command:"; NL]
    (if ok then s else emit [Txt "ERROR: inventory sequence failed."; NL] s).

Definition bin_started (s : State) : State :=
  emit [Txt "Auto-running queued bin request: BIN";
        Num (requestedBin (queue s)); NL]
    (upd_queue (set_requestedBin (-1))
       (upd_queue (set_binRequested false) s)).

Definition bin_returned (b : Z) (ok : bool) (s : State) : State :=
  emit [Txt "Enter command:"; NL]
    (if ok then
       emit [Txt "Done. Now at BIN"; Num (currentBin (nav s)); NL]
         (upd_nav (set_lastSelectedBin b) s)
     else emit [Txt "ERROR: move to bin failed."; NL] s).

Lemma tryRunQueuedCommands_unfold v fuel s :
  tryRunQueuedCommands v (S fuel) s =
  if estop s then Some (tt, s) else
  if inventory_allowed s then
    match runInventorySequence v fuel (tryRunQueuedCommands v fuel)
            (inventory_started s) with
    | Some (ok, sb) => Some (tt, inventory_returned ok sb)
    | None => None
    end
  else if bin_allowed s then
    match moveToBin v (requestedBin (queue s)) (bin_started s) with
    | Some (ok, sb) => Some (tt, bin_returned (requestedBin (queue s)) ok sb)
    | None => None
    end
  else Some (tt, s).
Proof.
  cbn [tryRunQueuedCommands].
  cbv beta iota delta [bind gets ret println print modify].
  destruct (estop s); [reflexivity|].
  change (inventoryRequested (queue s)
          && (inventoryPending (gate s) && negb (gateLockout (gate s))
              && negb (beamStableBlocked (gate s))))
    with (inventory_allowed s).
  destruct (inventory_allowed s).
  - match goal with |- context [runInventorySequence v fuel _ ?x] =>
      change x with (inventory_started s)
    end.
    destruct (runInventorySequence _ _ _ _) as [[[|] sb]|]; reflexivity.
  - change (binRequested (queue s)
            && (negb (gateLockout (gate s))
                && negb (inventoryPending (gate s))))
      with (bin_allowed s).
    destruct (bin_allowed s); [|reflexivity].
    match goal with |- context [moveToBin v _ ?x] =>
      change x with (bin_started s)
    end.
    destruct (moveToBin _ _ _) as [[[|] sb]|]; reflexivity.
Qed.

(** Nothing for the drain to do. *)
Definition drain_idle (s : State) : Prop :=
  estop s = true \/ (inventory_allowed s = false /\ bin_allowed s = false).

Lemma drain_idle_noop v fuel s :
  drain_idle s -> tryRunQueuedCommands v (S fuel) s = Some (tt, s).
Proof.
  intros [He|[Hi Hb]]; rewrite tryRunQueuedCommands_unfold.
  - rewrite He. reflexivity.
  - rewrite Hi, Hb. destruct (estop s); reflexivity.
Qed.

Lemma emit_estop ts s : estop (emit ts s) = estop s.
Proof.
  revert s. induction ts as [|t ts IH]; intros s; [reflexivity|].
  cbn [emit fold_left]. fold (emit ts (upd_hw (hw_emit t) s)).
  rewrite IH. reflexivity.
Qed.

Lemma emit_gate ts s : gate (emit ts s) = gate s.
Proof.
  revert s. induction ts as [|t ts IH]; intros s; [reflexivity|].
  cbn [emit fold_left]. fold (emit ts (upd_hw (hw_emit t) s)).
  rewrite IH. reflexivity.
Qed.

Lemma emit_queue ts s : queue (emit ts s) = queue s.
Proof.
  revert s. induction ts as [|t ts IH]; intros s; [reflexivity|].
  cbn [emit fold_left]. fold (emit ts (upd_hw (hw_emit t) s)).
  rewrite IH. reflexivity.
Qed.

Lemma emit_world ts s : world (emit ts s) = world s.
Proof.
  revert s. induction ts as [|t ts IH]; intros s; [reflexivity|].
  cbn [emit fold_left]. fold (emit ts (upd_hw (hw_emit t) s)).
  rewrite IH. reflexivity.
Qed.

Lemma drain_idle_same s s' :
  (estop s = true -> estop s' = true) ->
  gate s' = gate s -> queue s' = queue s ->
  drain_idle s -> drain_idle s'.
Proof.
  unfold drain_idle, inventory_allowed, bin_allowed.
  intros He Hg Hq [H|H]; [left; auto|right]. rewrite Hg, Hq. exact H.
Qed.

Lemma moveToBin_gq v t s r s' :
  moveToBin v t s = Some (r, s') -> gq_view s' = gq_view s.
Proof. apply Keeps_moveToBin. Qed.

Lemma inventory_returned_fields ok s :
  estop (inventory_returned ok s) = estop s /\
  gate (inventory_returned ok s) = gate s /\
  queue (inventory_returned ok s) = queue s /\
  nav (inventory_returned ok s) = nav s.
Proof.
  unfold inventory_returned.
  rewrite emit_estop, emit_gate, emit_queue, emit_nav.
  destruct ok; auto.
Qed.

Lemma inventory_allowed_true s :
  inventory_allowed s = true ->
  inventoryRequested (queue s) = true /\
  inventoryPending (gate s) = true /\
  gateLockout (gate s) = false /\
  beamStableBlocked (gate s) = false.
Proof.
  unfold inventory_allowed.
  destruct (inventoryRequested (queue s)), (inventoryPending (gate s)),
    (gateLockout (gate s)), (beamStableBlocked (gate s)); cbn;
    intros H; try discriminate H; auto.
Qed.

Lemma bin_allowed_true s :
  bin_allowed s = true ->
  binRequested (queue s) = true /\
  gateLockout (gate s) = false /\
  inventoryPending (gate s) = false.
Proof.
  unfold bin_allowed.
  destruct (binRequested (queue s)), (inventoryPending (gate s)),
    (gateLockout (gate s)); cbn; intros H; try discriminate H; auto.
Qed.

Lemma tryRunQueuedCommands_idle v fuel : forall s s',
  tryRunQueuedCommands v fuel s = Some (tt, s') -> drain_idle s'.
Proof.
  induction fuel as [|fuel IH]; intros s s' H; [discriminate|].
  rewrite tryRunQueuedCommands_unfold in H.
  destruct (estop s) eqn:Ee.
  { injection H as <-. left. exact Ee. }
  destruct (inventory_allowed s) eqn:Ei.
  - destruct (runInventorySequence _ _ _ _) as [[ok sb]|] eqn:Er;
      [|discriminate].
    injection H as <-.
    destruct (inventory_returned_fields ok sb) as (He & Hg & Hq & _).
    apply (drain_idle_same sb); [rewrite He; auto | exact Hg | exact Hq |].
    assert (Hstart : inventoryRequested (queue (inventory_started s)) = false
                     /\ gate (inventory_started s) = gate s).
    { unfold inventory_started. split; reflexivity. }
    destruct Hstart as (Hq0 & Hg0).
    assert (Hp : inventoryPending (gate s) = true)
      by apply (inventory_allowed_true s Ei).
    assert (Hkeep : forall u, gate u = gate s ->
                    queue u = queue (inventory_started s) -> drain_idle u).
    { intros u Hgu Hqu. right.
      unfold inventory_allowed, bin_allowed. rewrite Hgu, Hqu, Hq0, Hp.
      cbn. rewrite !andb_false_r. auto. }
    destruct (inventory_ready (inventory_started s)) eqn:Eready.
    + rewrite runInventorySequence_run in Er by exact Eready.
      destruct (moveBins v 2 _) as [[[|] sa]|] eqn:Em; try discriminate.
      * destruct (readRobustDistance4sCm _ _) as [[d sc]|] eqn:Ed;
          [|discriminate].
        destruct (estop sc) eqn:Ec.
        { injection Er as <- <-. left. exact Ec. }
        destruct (tryRunQueuedCommands v fuel _) as [[[] sd]|] eqn:Et;
          [|discriminate].
        injection Er as <- <-. eapply IH. exact Et.
      * injection Er as <- <-. apply moveBins_gq in Em.
        destruct (gq_view_fields _ _ Em) as (_ & Fg & Fq & _).
        apply Hkeep.
        -- rewrite Fg. rewrite emit_gate. exact Hg0.
        -- rewrite Fq. rewrite emit_queue. reflexivity.
    + rewrite runInventorySequence_refused in Er by exact Eready.
      injection Er as <- <-. apply Hkeep.
      * exact Hg0.
      * reflexivity.
  - destruct (bin_allowed s) eqn:Eb.
    + destruct (moveToBin _ _ _) as [[ok sb]|] eqn:Em; [|discriminate].
      injection H as <-. apply moveToBin_gq in Em.
      destruct (gq_view_fields _ _ Em) as (_ & Em3 & Em2 & _).
      right. unfold inventory_allowed, bin_allowed in *.
      unfold bin_returned. rewrite emit_gate, emit_queue.
      assert (Hg : gate (if ok
                         then emit [Txt "Done. Now at BIN";
                                    Num (currentBin (nav sb)); NL]
                                (upd_nav (set_lastSelectedBin
                                            (requestedBin (queue s))) sb)
                         else emit [Txt "ERROR: move to bin failed."; NL] sb)
                   = gate s).
      { destruct ok; rewrite emit_gate; cbn; rewrite Em3;
          unfold bin_started; rewrite emit_gate; reflexivity. }
      assert (Hq : queue (if ok
                          then emit [Txt "Done. Now at BIN";
                                     Num (currentBin (nav sb)); NL]
                                 (upd_nav (set_lastSelectedBin
                                             (requestedBin (queue s))) sb)
                          else emit [Txt "ERROR: move to bin failed."; NL] sb)
                   = queue (bin_started s)).
      { destruct ok; rewrite emit_queue; cbn; rewrite Em2; reflexivity. }
      rewrite Hg, Hq. unfold bin_started. rewrite emit_queue. cbn.
      split; [exact Ei | reflexivity].
    + injection H as <-. right. auto.
Qed.

(** Project through prints and field updates. *)
Ltac emit_simpl :=
  repeat progress
    (rewrite ?emit_world, ?emit_estop, ?emit_nav, ?emit_queue, ?emit_gate;
     cbn [world estop nav queue gate upd_gate upd_hw upd_nav upd_queue
          set_estop]).

Lemma inventory_reported_fields v d s :
  world (inventory_reported v d s) = world s /\
  estop (inventory_reported v d s) = estop s /\
  nav (inventory_reported v d s) = nav s /\
  queue (inventory_reported v d s) = queue s /\
  gate (inventory_reported v d s) = set_inventoryPending false (gate s).
Proof.
  unfold inventory_reported, distance_report.
  destruct v, (F32.isnan d); repeat split; reflexivity.
Qed.

Lemma Some_pair_inv {A B} (a a' : A) (b b' : B) :
  Some (a, b) = Some (a', b') -> a = a' /\ b = b'.
Proof. intros H. inversion H. auto. Qed.

Lemma gq_view_emit ts s : gq_view (emit ts s) = gq_view s.
Proof.
  unfold gq_view. rewrite emit_world, emit_nav, emit_gate, emit_queue.
  reflexivity.
Qed.

Lemma ctl_view_gq s s' : ctl_view s' = ctl_view s -> gq_view s' = gq_view s.
Proof.
  intros H. destruct (ctl_view_fields _ _ H) as (Fw & Fn & Fg & Fq).
  unfold gq_view. rewrite Fw, Fn, Fg, Fq. reflexivity.
Qed.

Lemma runInventorySequence_failed v fuel drain s sb :
  runInventorySequence v fuel drain s = Some (false, sb) ->
  gq_view sb = gq_view s /\
  ((inventory_ready s = false /\
    sb = emit [Txt (inventory_refusal s); NL] s) \/
   (inventory_ready s = true /\
    moveBins v 2 (emit inventory_banner s) = Some (false, sb)) \/
   (inventory_ready s = true /\ estop sb = true /\
    exists sa d,
      moveBins v 2 (emit inventory_banner s) = Some (true, sa) /\
      readRobustDistance4sCm fuel (emit inventory_measuring sa)
        = Some (d, sb))).
Proof.
  intros H. destruct (inventory_ready s) eqn:Eready.
  - rewrite runInventorySequence_run in H by exact Eready.
    destruct (moveBins v 2 (emit inventory_banner s))
      as [[[|] sa]|] eqn:Em; try discriminate.
    + destruct (readRobustDistance4sCm fuel (emit inventory_measuring sa))
        as [[d sc]|] eqn:Ed; [|discriminate].
      destruct (estop sc) eqn:Ec.
      * apply Some_pair_inv in H. destruct H as (_ & <-). split.
        -- rewrite (ctl_view_gq _ _ (readRobust_ctl _ _ _ _ Ed)).
           rewrite gq_view_emit. rewrite (moveBins_gq _ _ _ _ _ Em).
           apply gq_view_emit.
        -- right. right. repeat split; auto. exists sa, d. auto.
      * destruct (drain (inventory_reported v d sc)) as [[[] sd]|];
          discriminate.
    + apply Some_pair_inv in H. destruct H as (_ & <-). split.
      * rewrite (moveBins_gq _ _ _ _ _ Em). apply gq_view_emit.
      * right. left. auto.
  - rewrite runInventorySequence_refused in H by exact Eready.
    apply Some_pair_inv in H. destruct H as (_ & <-). split.
    + apply gq_view_emit.
    + left. auto.
Qed.

Lemma runInventorySequence_succeeded v fuel drain s sb :
  runInventorySequence v fuel drain s = Some (true, sb) ->
  inventory_ready s = true /\
  exists sa d sc,
    moveBins v 2 (emit inventory_banner s) = Some (true, sa) /\
    readRobustDistance4sCm fuel (emit inventory_measuring sa)
      = Some (d, sc) /\
    estop sc = false /\
    drain (inventory_reported v d sc) = Some (tt, sb).
Proof.
  intros H. destruct (inventory_ready s) eqn:Eready.
  - split; [reflexivity|].
    rewrite runInventorySequence_run in H by exact Eready.
    destruct (moveBins v 2 _) as [[[|] sa]|] eqn:Em; try discriminate.
    destruct (readRobustDistance4sCm _ _) as [[d sc]|] eqn:Ed;
      [|discriminate].
    destruct (estop sc) eqn:Ec; [discriminate|].
    destruct (drain _) as [[[] sd]|] eqn:Et; [|discriminate].
    injection H as <-. exists sa, d, sc. auto.
  - rewrite runInventorySequence_refused in H by exact Eready.
    discriminate.
Qed.

Lemma inventory_ready_true s :
  inventory_ready s = true ->
  homed (nav s) = true /\ beamStableBlocked (gate s) = false /\
  inventoryPending (gate s) = true /\ 0 <= lastSelectedBin (nav s) <= 3.
Proof.
  unfold inventory_ready. intros H.
  repeat (apply andb_true_iff in H; destruct H as [H ?]).
  repeat match goal with
         | Hn : negb _ = true |- _ => apply negb_true_iff in Hn
         end.
  match goal with
  | Hr : _ || _ = false |- _ =>
      apply orb_false_iff in Hr; rewrite !Z.ltb_ge in Hr
  end.
  repeat split; auto; lia.
Qed.

(** The serial output of the report, from the measurement to the call of
    the drain. *)
Definition inventory_output (v : Sketch) (bin : Z) (d : F32.t) (t : Z)
  : list Tok :=
  distance_report d
  ++ match v with
     | CommandQueue => []
     | InventoryOutputs => log_line bin (classification d) t
     end
  ++ inventory_complete.

Lemma emit_out ts s : out (hw (emit ts s)) = out (hw s) ++ ts.
Proof.
  revert s. induction ts as [|t ts IH]; intros s.
  - cbn. rewrite app_nil_r. reflexivity.
  - cbn [emit fold_left]. fold (emit ts (upd_hw (hw_emit t) s)).
    rewrite IH. cbn. rewrite <- app_assoc. reflexivity.
Qed.

Lemma inventory_reported_out v d s :
  out (hw (inventory_reported v d s))
  = out (hw s)
    ++ inventory_output v (lastSelectedBin (nav s)) d (clock_now s).
Proof.
  unfold inventory_reported, inventory_output. cbv zeta.
  rewrite emit_out. cbn [hw upd_gate].
  destruct v.
  - rewrite emit_out. rewrite <- !app_assoc. reflexivity.
  - rewrite emit_out. cbn [hw upd_hw out hw_next].
    rewrite emit_out, emit_out, emit_nav.
    replace (clock_now (emit (distance_report d) s)) with (clock_now s).
    2:{ unfold clock_now. rewrite emit_world.
        clear. induction (distance_report d) as [|t ts IH] using rev_ind;
          [reflexivity|].
        unfold emit in *. rewrite fold_left_app. cbn. exact IH. }
    unfold log_line. rewrite <- !app_assoc. reflexivity.
Qed.

(** C5.  A run of the inventory sequence either fails before anything is
    classified (a precondition, the rotation, or the latch found set after
    measuring; [inventoryPending] stays as it was), or it measures a
    distance [d] and reports it: the classification is HI exactly when [d]
    is defined and [d < 12.0], so LO for an undefined distance; the report
    starts with that HI or LO, and in [ESP32_InventoryOutputs.ino] it is
    followed by the line [bin<N>,<HI|LO>,<timestampMs>] with N the
    last-selected bin (a valid bin) and the clock read at that point. *)
Theorem inventory_classification
    (v : Sketch) (fuel : nat) (drain : M unit) (s : State)
    (r : bool) (s' : State) :
  runInventorySequence v fuel drain s = Some (r, s') ->
  (r = false ->
   inventoryPending (gate s') = inventoryPending (gate s) /\
   ((inventory_ready s = false /\
     s' = emit [Txt (inventory_refusal s); NL] s) \/
    (inventory_ready s = true /\
     moveBins v 2 (emit inventory_banner s) = Some (false, s')) \/
    (inventory_ready s = true /\ estop s' = true /\
     exists sa d,
       moveBins v 2 (emit inventory_banner s) = Some (true, sa) /\
       readRobustDistance4sCm fuel (emit inventory_measuring sa)
         = Some (d, s')))) /\
  (r = true ->
   exists (sa : State) (d : F32.t) (sb : State),
     moveBins v 2 (emit inventory_banner s) = Some (true, sa) /\
     readRobustDistance4sCm fuel (emit inventory_measuring sa)
       = Some (d, sb) /\
     drain (inventory_reported v d sb) = Some (tt, s') /\
     (F32.isnan d = false ->
      classification d = F32.ltb d INVENTORY_THRESH_CM) /\
     (F32.isnan d = true -> classification d = false) /\
     (exists rest,
        distance_report d = Txt (HI_LO (classification d)) :: NL :: rest) /\
     0 <= lastSelectedBin (nav s) <= 3 /\
     out (hw (inventory_reported v d sb))
       = out (hw sb)
         ++ inventory_output v (lastSelectedBin (nav s)) d (clock_now sb) /\
     inventory_output InventoryOutputs (lastSelectedBin (nav s)) d
                      (clock_now sb)
       = distance_report d
         ++ log_line (lastSelectedBin (nav s)) (classification d)
                     (clock_now sb)
         ++ inventory_complete /\
     render (log_line (lastSelectedBin (nav s)) (classification d)
                      (clock_now sb))
       = Some (csv_line (lastSelectedBin (nav s)) (classification d)
                        (clock_now sb))).
Proof.
  intros H. split; intros ->.
  - apply runInventorySequence_failed in H. destruct H as (Hv & Hc).
    split; [|exact Hc].
    destruct (gq_view_fields _ _ Hv) as (_ & Fg & _). rewrite Fg. reflexivity.
  - apply runInventorySequence_succeeded in H.
    destruct H as (Hready & sa & d & sb & Hm & Hd & He & Hdrain).
    exists sa, d, sb.
    assert (Hl : lastSelectedBin (nav sb) = lastSelectedBin (nav s)).
    { pose proof (ctl_view_gq _ _ (readRobust_ctl _ _ _ _ Hd)) as F1.
      rewrite gq_view_emit in F1. rewrite (moveBins_gq _ _ _ _ _ Hm) in F1.
      rewrite gq_view_emit in F1.
      destruct (gq_view_fields _ _ F1) as (_ & _ & _ & _ & Fl & _).
      exact Fl. }
    split; [exact Hm|]. split; [exact Hd|]. split; [exact Hdrain|].
    unfold classification, distance_report.
    split; [intros ->; reflexivity|].
    split; [intros ->; reflexivity|].
    split.
    { destruct (F32.isnan d); cbn [negb andb]; eexists; reflexivity. }
    split; [apply (inventory_ready_true s Hready)|].
    split; [rewrite <- Hl; apply inventory_reported_out|].
    split; [reflexivity | apply render_log_line].
Qed.

(** The queue [q'] holds no request that [q] did not hold. *)
Definition queue_le (q' q : Queue) : Prop :=
  (inventoryRequested q' = true -> inventoryRequested q = true) /\
  (binRequested q' = true ->
   binRequested q = true /\ requestedBin q' = requestedBin q).

Lemma queue_le_refl q : queue_le q q.
Proof. unfold queue_le. auto. Qed.

Lemma queue_le_trans q1 q2 q3 :
  queue_le q1 q2 -> queue_le q2 q3 -> queue_le q1 q3.
Proof.
  unfold queue_le. intros (A1 & B1) (A2 & B2). split; [auto|].
  intros H. destruct (B1 H) as (H1 & E1). destruct (B2 H1) as (H2 & E2).
  split; [assumption | congruence].
Qed.

Lemma bin_returned_fields b ok s :
  estop (bin_returned b ok s) = estop s /\
  gate (bin_returned b ok s) = gate s /\
  queue (bin_returned b ok s) = queue s /\
  world (bin_returned b ok s) = world s /\
  currentBin (nav (bin_returned b ok s)) = currentBin (nav s) /\
  lastSelectedBin (nav (bin_returned b ok s))
    = (if ok then b else lastSelectedBin (nav s)).
Proof. unfold bin_returned. destruct ok; repeat split; reflexivity. Qed.

Lemma runInventorySequence_flags v fuel drain s ok sb :
  (forall u u', drain u = Some (tt, u') -> queue_le (queue u') (queue u)) ->
  runInventorySequence v fuel drain s = Some (ok, sb) ->
  queue_le (queue sb) (queue s).
Proof.
  intros Hdr Er. destruct ok.
  - apply runInventorySequence_succeeded in Er.
    destruct Er as (_ & sa & d & sc & Hm & Hd & _ & Hdrain).
    apply Hdr in Hdrain.
    destruct (inventory_reported_fields v d sc) as (_ & _ & _ & Fq & _).
    rewrite Fq in Hdrain.
    pose proof (ctl_view_gq _ _ (readRobust_ctl _ _ _ _ Hd)) as F1.
    rewrite gq_view_emit in F1. rewrite (moveBins_gq _ _ _ _ _ Hm) in F1.
    rewrite gq_view_emit in F1.
    destruct (gq_view_fields _ _ F1) as (_ & _ & Fq1 & _).
    rewrite Fq1 in Hdrain. exact Hdrain.
  - apply runInventorySequence_failed in Er. destruct Er as (Hv & _).
    destruct (gq_view_fields _ _ Hv) as (_ & _ & Fq & _).
    rewrite Fq. apply queue_le_refl.
Qed.

Lemma tryRunQueuedCommands_flags v fuel : forall s s',
  tryRunQueuedCommands v fuel s = Some (tt, s') ->
  queue_le (queue s') (queue s).
Proof.
  induction fuel as [|fuel IH]; intros s s' H; [discriminate|].
  rewrite tryRunQueuedCommands_unfold in H.
  destruct (estop s) eqn:Ee.
  { apply Some_pair_inv in H. destruct H as (_ & <-). apply queue_le_refl. }
  destruct (inventory_allowed s) eqn:Ei.
  - destruct (runInventorySequence v fuel (tryRunQueuedCommands v fuel)
                (inventory_started s)) as [[ok sb]|] eqn:Er; [|discriminate].
    apply Some_pair_inv in H. destruct H as (_ & <-).
    destruct (inventory_returned_fields ok sb) as (_ & _ & Hq & _).
    rewrite Hq.
    assert (Hs : queue_le (queue (inventory_started s)) (queue s)).
    { unfold inventory_started, queue_le. cbn. split; [discriminate|auto]. }
    apply (queue_le_trans _ (queue (inventory_started s)) _); [|exact Hs].
    eapply runInventorySequence_flags; [exact IH | exact Er].
  - destruct (bin_allowed s) eqn:Eb.
    + destruct (moveToBin v (requestedBin (queue s)) (bin_started s))
        as [[ok sb]|] eqn:Em; [|discriminate].
      apply Some_pair_inv in H. destruct H as (_ & <-).
      destruct (bin_returned_fields (requestedBin (queue s)) ok sb)
        as (_ & _ & Hq & _).
      rewrite Hq.
      destruct (gq_view_fields _ _ (moveToBin_gq _ _ _ _ _ Em))
        as (_ & _ & Fq & _).
      rewrite Fq. unfold bin_started, queue_le. cbn.
      split; [auto | discriminate].
    + apply Some_pair_inv in H. destruct H as (_ & <-). apply queue_le_refl.
Qed.

Lemma gate_rearm_queue s fired sr :
  gate_rearm s = Some (fired, sr) ->
  queue sr = queue s /\ nav sr = nav s /\ estop sr = estop s.
Proof. unfold gate_rearm. intros H. ginv; cbn; auto. Qed.

Lemma updateBeamDebounce_flags v fuel s s' :
  updateBeamDebounce v fuel s = Some (tt, s') ->
  queue_le (queue s') (queue s).
Proof.
  unfold updateBeamDebounce. intros H.
  apply bind_inv in H. destruct H as ([] & sm & Hd & H).
  apply bind_inv in H. destruct H as (fired & sr & Hr & H).
  destruct (beam_debounce_pending _ _ Hd) as (_ & _ & Hq1 & _).
  destruct (gate_rearm_queue _ _ _ Hr) as (Hq2 & _).
  destruct fired.
  - apply tryRunQueuedCommands_flags in H. rewrite Hq2, Hq1 in H. exact H.
  - apply ret_inv in H. destruct H as (_ & ->). rewrite Hq2, Hq1.
    apply queue_le_refl.
Qed.

(** Nothing but the re-arm check sets [inventoryPending]: the inventory
    run and the drain leave it as it was or clear it. *)
Lemma runInventorySequence_pending v fuel drain s ok sb :
  (forall u u', drain u = Some (tt, u') ->
     inventoryPending (gate u') = true -> inventoryPending (gate u) = true) ->
  runInventorySequence v fuel drain s = Some (ok, sb) ->
  inventoryPending (gate sb) = true -> inventoryPending (gate s) = true.
Proof.
  intros Hdr Er Hp. destruct ok.
  - apply runInventorySequence_succeeded in Er.
    destruct Er as (_ & sa & d & sc & _ & _ & _ & Hdrain).
    apply Hdr in Hdrain; [|exact Hp].
    destruct (inventory_reported_fields v d sc) as (_ & _ & _ & _ & Fg).
    rewrite Fg in Hdrain. discriminate Hdrain.
  - apply runInventorySequence_failed in Er. destruct Er as (Hv & _).
    destruct (gq_view_fields _ _ Hv) as (_ & Fg & _).
    rewrite <- Fg. exact Hp.
Qed.

Lemma tryRunQueuedCommands_pending v fuel : forall s s',
  tryRunQueuedCommands v fuel s = Some (tt, s') ->
  inventoryPending (gate s') = true -> inventoryPending (gate s) = true.
Proof.
  induction fuel as [|fuel IH]; intros s s' H; [discriminate|].
  rewrite tryRunQueuedCommands_unfold in H.
  destruct (estop s) eqn:Ee.
  { apply Some_pair_inv in H. destruct H as (_ & <-). auto. }
  destruct (inventory_allowed s) eqn:Ei.
  - destruct (runInventorySequence v fuel (tryRunQueuedCommands v fuel)
                (inventory_started s)) as [[ok sb]|] eqn:Er; [|discriminate].
    apply Some_pair_inv in H. destruct H as (_ & <-).
    destruct (inventory_returned_fields ok sb) as (_ & Hg & _).
    rewrite Hg. intros Hp.
    apply (runInventorySequence_pending _ _ _ _ _ _ IH Er) in Hp.
    exact Hp.
  - destruct (bin_allowed s) eqn:Eb.
    + destruct (moveToBin v (requestedBin (queue s)) (bin_started s))
        as [[ok sb]|] eqn:Em; [|discriminate].
      apply Some_pair_inv in H. destruct H as (_ & <-).
      destruct (bin_returned_fields (requestedBin (queue s)) ok sb)
        as (_ & Hg & _).
      rewrite Hg.
      destruct (gq_view_fields _ _ (moveToBin_gq _ _ _ _ _ Em))
        as (_ & Fg & _).
      rewrite Fg. unfold bin_started. rewrite emit_gate. auto.
    + apply Some_pair_inv in H. destruct H as (_ & <-). auto.
Qed.

Lemma updateBeamDebounce_pending v fuel s s' :
  updateBeamDebounce v fuel s = Some (tt, s') ->
  inventoryPending (gate s') = true ->
  inventoryPending (gate s) = true \/
  exists sm,
    beam_debounce s = Some (tt, sm) /\ REARMING (gate sm) /\
    BEAM_ARM_DELAY_MS <= u32 (clock_now sm - gateOpenedAtMs (gate sm)).
Proof.
  unfold updateBeamDebounce. intros H Hp.
  apply bind_inv in H. destruct H as ([] & sm & Hd & H).
  apply bind_inv in H. destruct H as (fired & sr & Hr & H).
  pose proof (beam_debounce_pending _ _ Hd) as (Hpm & _).
  pose proof (gate_rearm_spec _ _ _ Hr) as (Hiff & _ & Hoff).
  destruct fired.
  - right. exists sm. split; [exact Hd|]. apply (proj1 Hiff eq_refl).
  - left. apply ret_inv in H. destruct H as (_ & ->).
    rewrite (Hoff eq_refl), Hpm in Hp. exact Hp.
Qed.

(** States reached from [s0] with no command from the operator: passes of
    the gate update and of the drain only. *)
Inductive idle_reach (v : Sketch) (s0 : State) : State -> Prop :=
| idle_reach_start : idle_reach v s0 s0
| idle_reach_gate fuel s s' :
    idle_reach v s0 s ->
    updateBeamDebounce v fuel s = Some (tt, s') ->
    idle_reach v s0 s'
| idle_reach_drain fuel s s' :
    idle_reach v s0 s ->
    tryRunQueuedCommands v fuel s = Some (tt, s') ->
    idle_reach v s0 s'.

Lemma idle_reach_flags v s0 s :
  idle_reach v s0 s -> queue_le (queue s) (queue s0).
Proof.
  induction 1 as [|fuel s s' _ IH H|fuel s s' _ IH H].
  - apply queue_le_refl.
  - eapply queue_le_trans; [|exact IH].
    eapply updateBeamDebounce_flags; eauto.
  - eapply queue_le_trans; [|exact IH].
    eapply tryRunQueuedCommands_flags; eauto.
Qed.

Lemma cmd_bin_queued v fuel t u :
  gateLockout (gate u) = true \/ inventoryPending (gate u) = true ->
  exists u',
    cmd_bin v fuel t u = Some (tt, u') /\
    queue u' = mkQueue (inventoryRequested (queue u)) true t /\
    nav u' = nav u /\ gate u' = gate u /\ estop u' = estop u /\
    step_edges (hw u') = step_edges (hw u).
Proof.
  intros H. unfold cmd_bin.
  cbv beta iota delta [bind gets ret println print modify].
  destruct (gateLockout (gate u)) eqn:El.
  - eexists. split; [reflexivity|]. repeat split; reflexivity.
  - destruct H as [H|H]; [discriminate|]. rewrite H.
    eexists. split; [reflexivity|]. repeat split; reflexivity.
Qed.

(** C7.  The queue holds one flag per kind and one bin number: a bin
    command that cannot run now sets the flag and overwrites the number.
    A drain that runs the inventory request, or the bin request, leaves
    that request's flag false; a drain never raises a flag; right after a
    drain a further drain changes nothing; and through any later passes of
    the gate update and the drain, with no command in between, a flag that
    is false stays false, so the request cannot run again. *)
Theorem queue_drain_idempotent (v : Sketch) (fuel : nat) (s s' : State) :
  tryRunQueuedCommands v fuel s = Some (tt, s') ->
  (estop s = false -> inventory_allowed s = true ->
   inventoryRequested (queue s') = false) /\
  (estop s = false -> inventory_allowed s = false -> bin_allowed s = true ->
   binRequested (queue s') = false /\ requestedBin (queue s') = -1) /\
  queue_le (queue s') (queue s) /\
  (forall n, tryRunQueuedCommands v (S n) s' = Some (tt, s')) /\
  (forall s2, idle_reach v s' s2 ->
     (inventoryRequested (queue s') = false ->
      inventoryRequested (queue s2) = false /\ inventory_allowed s2 = false)
     /\
     (binRequested (queue s') = false ->
      binRequested (queue s2) = false /\ bin_allowed s2 = false)) /\
  (forall u t n,
     gateLockout (gate u) = true \/ inventoryPending (gate u) = true ->
     exists u',
       cmd_bin v n t u = Some (tt, u') /\
       queue u' = mkQueue (inventoryRequested (queue u)) true t).
Proof.
  intros H.
  pose proof (tryRunQueuedCommands_flags _ _ _ _ H) as Hle.
  pose proof (tryRunQueuedCommands_idle _ _ _ _ H) as Hidle.
  split; [|split; [|split; [exact Hle|split; [|split]]]].
  - intros He Hi. destruct fuel as [|fuel]; [discriminate|].
    rewrite tryRunQueuedCommands_unfold, He, Hi in H.
    destruct (runInventorySequence v fuel (tryRunQueuedCommands v fuel)
                (inventory_started s)) as [[ok sb]|] eqn:Er; [|discriminate].
    apply Some_pair_inv in H. destruct H as (_ & <-).
    destruct (inventory_returned_fields ok sb) as (_ & _ & Hq & _).
    rewrite Hq.
    assert (Hsb : queue_le (queue sb) (queue (inventory_started s))).
    { eapply runInventorySequence_flags; [|exact Er].
      intros u u'. apply tryRunQueuedCommands_flags. }
    destruct Hsb as (Hinv & _).
    destruct (inventoryRequested (queue sb)) eqn:E; [|reflexivity].
    specialize (Hinv eq_refl). discriminate Hinv.
  - intros He Hi Hb. destruct fuel as [|fuel]; [discriminate|].
    rewrite tryRunQueuedCommands_unfold, He, Hi, Hb in H.
    destruct (moveToBin v (requestedBin (queue s)) (bin_started s))
      as [[ok sb]|] eqn:Em; [|discriminate].
    apply Some_pair_inv in H. destruct H as (_ & <-).
    destruct (bin_returned_fields (requestedBin (queue s)) ok sb)
      as (_ & _ & Hq & _).
    rewrite Hq.
    destruct (gq_view_fields _ _ (moveToBin_gq _ _ _ _ _ Em))
      as (_ & _ & Fq & _).
    rewrite Fq. split; reflexivity.
  - intros n. apply drain_idle_noop. exact Hidle.
  - intros s2 R. apply idle_reach_flags in R. destruct R as (Ri & Rb).
    split; intros Hf.
    + assert (E : inventoryRequested (queue s2) = false).
      { destruct (inventoryRequested (queue s2)); [|reflexivity].
        specialize (Ri eq_refl). congruence. }
      split; [exact E|]. unfold inventory_allowed. rewrite E. reflexivity.
    + assert (E : binRequested (queue s2) = false).
      { destruct (binRequested (queue s2)); [|reflexivity].
        destruct (Rb eq_refl). congruence. }
      split; [exact E|]. unfold bin_allowed. rewrite E. reflexivity.
  - intros u t n Hu. destruct (cmd_bin_queued v n t u Hu) as (u' & Hc & Hq & _).
    exists u'. auto.
Qed.

(** C10.  When the drain runs a queued request it has cleared the request
    before it calls the operation: the inventory flag is false when
    [runInventorySequence] starts, the bin flag is false and the bin number
    -1 when [moveToBin] starts.  They stay so when the operation fails,
    the drain that follows runs nothing, and [lastSelectedBin] takes the
    queued bin only when [moveToBin] succeeded; a failed inventory run
    leaves it as it was. *)
Theorem failed_request_discarded (v : Sketch) (fuel : nat) (s s' : State) :
  estop s = false ->
  tryRunQueuedCommands v (S fuel) s = Some (tt, s') ->
  (inventory_allowed s = true ->
   inventoryRequested (queue (inventory_started s)) = false /\
   exists ok sb,
     runInventorySequence v fuel (tryRunQueuedCommands v fuel)
       (inventory_started s) = Some (ok, sb) /\
     s' = inventory_returned ok sb /\
     inventoryRequested (queue s') = false /\
     (ok = false ->
      lastSelectedBin (nav s') = lastSelectedBin (nav s) /\
      binRequested (queue s') = binRequested (queue s) /\
      requestedBin (queue s') = requestedBin (queue s) /\
      forall n, tryRunQueuedCommands v (S n) s' = Some (tt, s'))) /\
  (inventory_allowed s = false -> bin_allowed s = true ->
   binRequested (queue (bin_started s)) = false /\
   requestedBin (queue (bin_started s)) = -1 /\
   exists ok sb,
     moveToBin v (requestedBin (queue s)) (bin_started s) = Some (ok, sb) /\
     s' = bin_returned (requestedBin (queue s)) ok sb /\
     binRequested (queue s') = false /\
     requestedBin (queue s') = -1 /\
     lastSelectedBin (nav s')
       = (if ok then requestedBin (queue s) else lastSelectedBin (nav s)) /\
     forall n, tryRunQueuedCommands v (S n) s' = Some (tt, s')).
Proof.
  intros He H.
  pose proof (tryRunQueuedCommands_idle _ _ _ _ H) as Hidle.
  rewrite tryRunQueuedCommands_unfold, He in H. split.
  - intros Hi. rewrite Hi in H. split; [reflexivity|].
    destruct (runInventorySequence v fuel (tryRunQueuedCommands v fuel)
                (inventory_started s)) as [[ok sb]|] eqn:Er; [|discriminate].
    apply Some_pair_inv in H. destruct H as (_ & <-).
    exists ok, sb. split; [reflexivity|]. split; [reflexivity|].
    destruct (inventory_returned_fields ok sb) as (_ & _ & Hq & Hn).
    rewrite Hq, Hn.
    assert (Hsb : queue_le (queue sb) (queue (inventory_started s))).
    { eapply runInventorySequence_flags; [|exact Er].
      intros u u'. apply tryRunQueuedCommands_flags. }
    split.
    + destruct Hsb as (Hinv & _).
      destruct (inventoryRequested (queue sb)) eqn:E; [|reflexivity].
      specialize (Hinv eq_refl). discriminate Hinv.
    + intros ->. apply runInventorySequence_failed in Er.
      destruct Er as (Hv & _).
      destruct (gq_view_fields _ _ Hv) as (_ & _ & Fq & _ & Fl & _).
      rewrite Fq, Fl. repeat split.
      intros n. apply drain_idle_noop. exact Hidle.
  - intros Hi Hb. rewrite Hi, Hb in H.
    split; [reflexivity|]. split; [reflexivity|].
    destruct (moveToBin v (requestedBin (queue s)) (bin_started s))
      as [[ok sb]|] eqn:Em; [|discriminate].
    apply Some_pair_inv in H. destruct H as (_ & <-).
    exists ok, sb. split; [reflexivity|]. split; [reflexivity|].
    destruct (bin_returned_fields (requestedBin (queue s)) ok sb)
      as (_ & _ & Hq & _ & _ & Hl).
    rewrite Hq, Hl.
    destruct (gq_view_fields _ _ (moveToBin_gq _ _ _ _ _ Em))
      as (_ & _ & Fq & _ & Fl & _).
    rewrite Fq, Fl. repeat split.
    intros n. apply drain_idle_noop. exact Hidle.
Qed.

Lemma moveBins_range v n s r s' :
  moveBins v n s = Some (r, s') ->
  0 <= currentBin (nav s) <= 3 -> 0 <= currentBin (nav s') <= 3.
Proof.
  unfold moveBins. intros H Hc.
  apply (moveBins_loop_spec _ _ _ _ _ H Hc).
Qed.

(** The claim of the specification, read to the letter: in the pass in
    which the gate goes to "inventory pending", the drain runs at most the
    queued inventory request and returns without attempting the bin
    request, which is therefore still queued when the pass returns. *)
Definition deferred_claim_as_stated (v : Sketch) (fuel : nat) (s : State)
  : Prop :=
  forall sm sr s',
    beam_debounce s = Some (tt, sm) ->
    gate_rearm sm = Some (true, sr) ->
    tryRunQueuedCommands v fuel sr = Some (tt, s') ->
    binRequested (queue sr) = true ->
    binRequested (queue s') = true /\
    requestedBin (queue s') = requestedBin (queue sr).

(** C8, amended.  With inventory pending, the drain never takes its own
    bin branch: it either runs the queued inventory request or changes
    nothing.  When the inventory run fails, the bin request is still queued
    and inventory is still pending.  When it succeeds, the inventory run
    itself has cleared [inventoryPending] and called the drain again before
    it returns, so the queued bin request is executed in the same pass, by
    that nested drain; if that move succeeds too, the carousel has been
    moved by two calls of [moveOneBin] for the inventory and by the
    counter-clockwise distance to the target for the request, and
    [currentBin] and [lastSelectedBin] equal the queued target. *)
Theorem deferred_bin_waits_for_inventory
    (v : Sketch) (fuel : nat) (s s' : State) :
  inventoryPending (gate s) = true ->
  binRequested (queue s) = true ->
  0 <= currentBin (nav s) <= 3 ->
  tryRunQueuedCommands v (S fuel) s = Some (tt, s') ->
  bin_allowed s = false /\
  (estop s = true \/ inventory_allowed s = false -> s' = s) /\
  (estop s = false -> inventory_allowed s = true ->
   exists ok sb,
     runInventorySequence v fuel (tryRunQueuedCommands v fuel)
       (inventory_started s) = Some (ok, sb) /\
     s' = inventory_returned ok sb /\
     (ok = false ->
      binRequested (queue s') = true /\
      requestedBin (queue s') = requestedBin (queue s) /\
      inventoryPending (gate s') = true) /\
     (ok = true ->
      exists d sc okb se,
        estop sc = false /\
        inventoryPending (gate (inventory_reported v d sc)) = false /\
        bin_allowed (inventory_reported v d sc) = true /\
        tryRunQueuedCommands v fuel (inventory_reported v d sc)
          = Some (tt, sb) /\
        moveToBin v (requestedBin (queue s))
                  (bin_started (inventory_reported v d sc))
          = Some (okb, se) /\
        sb = bin_returned (requestedBin (queue s)) okb se /\
        binRequested (queue s') = false /\
        (okb = true ->
         currentBin (nav s') = requestedBin (queue s) /\
         lastSelectedBin (nav s') = requestedBin (queue s) /\
         moveOneBinCalls (nav s')
           = moveOneBinCalls (nav s) + 2
             + ccw_steps ((currentBin (nav s) + 2) mod 4)
                         (requestedBin (queue s))))).
Proof.
  intros Hp Hb Hc H.
  assert (Hba : bin_allowed s = false).
  { unfold bin_allowed. rewrite Hp. cbn. rewrite !andb_false_r. reflexivity. }
  rewrite tryRunQueuedCommands_unfold, Hba in H.
  split; [exact Hba|]. split.
  - intros [He|Hi].
    + rewrite He in H. apply Some_pair_inv in H. symmetry. apply H.
    + rewrite Hi in H. destruct (estop s);
        apply Some_pair_inv in H; symmetry; apply H.
  - intros He Hi. rewrite He, Hi in H.
    destruct (runInventorySequence v fuel (tryRunQueuedCommands v fuel)
                (inventory_started s)) as [[ok sb]|] eqn:Er; [|discriminate].
    apply Some_pair_inv in H. destruct H as (_ & <-).
    exists ok, sb. split; [reflexivity|]. split; [reflexivity|].
    destruct (inventory_returned_fields ok sb) as (_ & Hg & Hq & Hn).
    rewrite Hg, Hq, Hn.
    destruct (inventory_allowed_true s Hi) as (_ & _ & Hl & _).
    split.
    + intros ->. apply runInventorySequence_failed in Er.
      destruct Er as (Hv & _).
      destruct (gq_view_fields _ _ Hv) as (_ & Fg & Fq & _).
      rewrite Fg, Fq. repeat split; assumption.
    + intros ->. apply runInventorySequence_succeeded in Er.
      destruct Er as (Hready & sa & d & sc & Hm & Hd & Hec & Hdrain).
      destruct (inventory_reported_fields v d sc)
        as (_ & Re & Rn & Rq & Rg).
      pose proof (ctl_view_gq _ _ (readRobust_ctl _ _ _ _ Hd)) as F1.
      rewrite gq_view_emit in F1. rewrite (moveBins_gq _ _ _ _ _ Hm) in F1.
      rewrite gq_view_emit in F1.
      destruct (gq_view_fields _ _ F1) as (_ & Fg & Fq & Fh & _).
      assert (Hnav : nav sc = nav sa).
      { destruct (ctl_view_fields _ _ (readRobust_ctl _ _ _ _ Hd))
          as (_ & Fn & _). rewrite Fn. apply emit_nav. }
      assert (Hqm : queue (inventory_reported v d sc)
                    = set_inventoryRequested false (queue s)).
      { rewrite Rq, Fq. reflexivity. }
      assert (Hgm : gate (inventory_reported v d sc)
                    = set_inventoryPending false (gate s)).
      { rewrite Rg, Fg. reflexivity. }
      assert (Hbm : bin_allowed (inventory_reported v d sc) = true).
      { unfold bin_allowed. rewrite Hqm, Hgm. cbn. rewrite Hb, Hl.
        reflexivity. }
      assert (Him : inventory_allowed (inventory_reported v d sc) = false).
      { unfold inventory_allowed. rewrite Hgm. cbn. apply andb_false_r. }
      destruct fuel as [|fuel]; [discriminate Hdrain|].
      pose proof Hdrain as Hdrain'.
      rewrite tryRunQueuedCommands_unfold, Re, Hec, Him, Hbm, Hqm in Hdrain.
      cbn [requestedBin set_inventoryRequested] in Hdrain.
      destruct (moveToBin v (requestedBin (queue s))
                  (bin_started (inventory_reported v d sc)))
        as [[okb se]|] eqn:Emv; [|discriminate].
      apply Some_pair_inv in Hdrain. destruct Hdrain as (_ & <-).
      exists d, sc, okb, se.
      split; [exact Hec|]. split; [rewrite Hgm; reflexivity|].
      split; [exact Hbm|]. split; [exact Hdrain'|].
      split; [exact Emv|]. split; [reflexivity|].
      destruct (bin_returned_fields (requestedBin (queue s)) okb se)
        as (_ & _ & Bq & _ & Bc & Bl).
      rewrite Bq, Bc, Bl.
      destruct (gq_view_fields _ _ (moveToBin_gq _ _ _ _ _ Emv))
        as (_ & _ & Mq & _).
      split; [rewrite Mq; reflexivity|].
      intros ->. split; [|split; [reflexivity|]].
      all: assert (Hok : nav_ok (bin_started (inventory_reported v d sc)));
        [ unfold nav_ok, bin_started; rewrite emit_nav;
          cbn [nav upd_queue]; rewrite Rn, Hnav; split;
          [ destruct (gq_view_fields _ _ (moveBins_gq _ _ _ _ _ Hm))
              as (_ & _ & _ & Mh & _);
            rewrite Mh, emit_nav;
            apply (inventory_ready_true _ Hready)
          | apply (moveBins_range _ _ _ _ _ Hm); rewrite emit_nav;
            exact Hc ]
        | ];
        destruct (moveToBin_spec _ _ _ _ _ Hok Emv) as (_ & Hs);
        destruct (Hs eq_refl) as (_ & Hcur & Hcalls).
      { exact Hcur. }
      { assert (Hcalls' : moveOneBinCalls
                            (nav (bin_returned (requestedBin (queue s))
                                    true se))
                          = moveOneBinCalls (nav se)) by reflexivity.
        rewrite Hcalls'.
        unfold moveBins in Hm. change (Z.to_nat 2) with 2%nat in Hm.
        destruct (moveBins_loop_spec _ _ _ _ _ Hm
                    ltac:(rewrite emit_nav; exact Hc)) as (_ & Hmv).
        destruct (Hmv eq_refl) as (Hc2 & Hb2).
        rewrite emit_nav in Hc2, Hb2. cbn [inventory_started nav upd_queue]
          in Hc2, Hb2. rewrite emit_nav in Hc2, Hb2.
        unfold bin_started in Hcalls. rewrite emit_nav in Hcalls.
        cbn [nav upd_queue] in Hcalls. rewrite Rn, Hnav in Hcalls.
        rewrite Hb2, Hc2 in Hcalls. cbn [Z.of_nat Pos.of_succ_nat
          Pos.succ] in Hcalls. lia. }
Qed.

(** The claim of C8 as stated fails when an inventory request and a bin
    request are both queued: the pass in which the gate re-arms runs the
    inventory and then, by the drain that the inventory run calls, the move
    to bin 3; the bin request is gone when the pass returns. *)
Lemma deferred_claim_counterexample :
  ~ deferred_claim_as_stated CommandQueue 12
      (Bench.rearming_with_requests Bench.env_rearm_and_moves).
Proof.
  intros C.
  set (s := Bench.rearming_with_requests Bench.env_rearm_and_moves) in *.
  set (sm := snd (Bench.run beam_debounce s tt)).
  set (sr := snd (Bench.run gate_rearm sm false)).
  set (s' := snd (Bench.run (tryRunQueuedCommands CommandQueue 12) sr tt)).
  assert (H1 : beam_debounce s = Some (tt, sm)) by (vm_compute; reflexivity).
  assert (H2 : gate_rearm sm = Some (true, sr)) by (vm_compute; reflexivity).
  assert (H3 : tryRunQueuedCommands CommandQueue 12 sr = Some (tt, s'))
    by (vm_compute; reflexivity).
  assert (H4 : binRequested (queue sr) = true) by (vm_compute; reflexivity).
  destruct (C _ _ _ H1 H2 H3 H4) as (Hq & _).
  vm_compute in Hq. discriminate Hq.
Qed.

(** In that pass the carousel goes from bin 0 to the sensor and on to bin
    3, the target of the queued request. *)
Lemma deferred_bin_runs_in_the_pass :
  exists s',
    updateBeamDebounce CommandQueue 12
      (Bench.rearming_with_requests Bench.env_rearm_and_moves)
      = Some (tt, s') /\
    currentBin (nav s') = 3 /\ lastSelectedBin (nav s') = 3 /\
    moveOneBinCalls (nav s') = 3 /\
    inventoryPending (gate s') = false /\
    queue s' = mkQueue false false (-1).
Proof.
  exists (snd (Bench.run (updateBeamDebounce CommandQueue 12)
                 (Bench.rearming_with_requests Bench.env_rearm_and_moves)
                 tt)).
  split; [vm_compute; reflexivity|].
  split; [vm_compute; reflexivity|].
  split; [vm_compute; reflexivity|].
  split; [vm_compute; reflexivity|].
  split; vm_compute; reflexivity.
Qed.

(* ================================================================== *)
(** ** The latch and [homeRoutine] *)

(** [homeRoutine] writes the latch: whatever [estop] was, it is false when
    the first seek of the homing run starts. *)
Lemma home_reset_clears_estop v s :
  exists s', home_reset v s = Some (tt, s') /\ estop s' = false.
Proof.
  exists (home_reset_state v s). split; [apply home_reset_run|].
  destruct v; reflexivity.
Qed.

(** C1.  The latch is not write-once.  In the session of
    [Bench.env_estop_then_home], five passes of [loop] leave the carousel
    homed with an inventory request queued; in the sixth pass the gate
    re-arms, the queued inventory starts, and an [e] on the serial port sets
    the latch during its first move.  The pass then reads the line [h] and
    calls [homeRoutine], which sets [estop] back to false and homes the
    carousel: the pass ends with the latch clear and 782 more step pulses
    issued than when the latch was set. *)
Theorem estop_cleared_by_homeRoutine :
  let v := CommandQueue in
  let fuel := 20%nat in
  let s5 := snd (Bench.run (Bench.loops v fuel 5)
                   (Bench.boot Bench.env_estop_then_home) tt) in
  let sa := snd (Bench.run (pollEstop ;; updateBeamDebounce v fuel) s5 tt) in
  let sb := snd (Bench.run readLine sa None) in
  let sc := snd (Bench.run (homeRoutine v fuel)
                   (emit [Txt "Homing... (type 'e' to stop)"; NL] sb)
                   false) in
  Bench.loops v fuel 5 (Bench.boot Bench.env_estop_then_home)
    = Some (tt, s5) /\
  estop s5 = false /\
  (pollEstop ;; updateBeamDebounce v fuel) s5 = Some (tt, sa) /\
  estop sa = true /\
  tryRunQueuedCommands v fuel sa = Some (tt, sa) /\
  readLine sa = Some (Some "h"%string, sb) /\
  homeRoutine v fuel (emit [Txt "Homing... (type 'e' to stop)"; NL] sb)
    = Some (true, sc) /\
  loop v fuel s5 = Some (tt, emit [Txt "Enter command:"; NL] sc) /\
  estop sc = false /\
  homed (nav sc) = true /\
  step_edges (hw sc) = step_edges (hw sa) + 782.
Proof.
  intros v fuel s5 sa sb sc.
  do 10 (split; [vm_compute; reflexivity|]).
  vm_compute; reflexivity.
Qed.

(* ================================================================== *)
(** ** Runs on the bench *)

(** Homing on the bench: ten gaps of 60 steps, one more, then the short gap
    of 31. *)
Lemma homeRoutine_sets_lastSelectedBin_witness :
  let v := InventoryOutputs in
  let fuel := 5%nat in
  let s := Bench.boot Bench.env_homing in
  let s' := snd (Bench.run (homeRoutine v fuel) s false) in
  (homeRoutine v fuel s = Some (true, s')) /\
  (lastSelectedBin (nav s') = 0 /\
  currentBin (nav s') = 0 /\
  homed (nav s') = true /\
  (lastSelectedBin (nav s') <? 0) || (3 <? lastSelectedBin (nav s')) = false).
Proof.
  intros v fuel s s'.
  assert (H : homeRoutine v fuel s = Some (true, s'))
    by (vm_compute; reflexivity).
  split; [exact H|].
  exact (homeRoutine_sets_lastSelectedBin v fuel s s' H).
Defined.

(** A homing run with uneven gaps: the two middle values are 70 and 75,
    and the threshold is 45. *)
Lemma homeRoutine_calibration_witness :
  let v := CommandQueue in
  let fuel := 5%nat in
  let s := Bench.boot Bench.env_uneven_gaps in
  let s' := snd (Bench.run (homeRoutine v fuel) s false) in
  (homeRoutine v fuel s = Some (true, s')) /\
  (exists (first : Z) (gaps skipped : list Z) (m short : Z)
         (s1 s2 s3 s4 s5 : State),
    seekNextPressEventCCW (home_reset_state v (emit home_banner s))
      = Some ((true, first), s1) /\
    seek_chain gaps s1 s2 /\
    List.length gaps = 10%nat /\
    upper_median m gaps /\
    (forall m', upper_median m' gaps -> m' = m) /\
    encoderGapThresholdSteps (nav s')
      = round_Q (inject_Z m * (6 # 10))%Q /\
    seek_chain skipped (home_calibrated gaps s2) s3 /\
    Forall (fun g => encoderGapThresholdSteps (nav s') <= g) skipped /\
    seekNextPressEventCCW s3 = Some ((true, short), s4) /\
    short < encoderGapThresholdSteps (nav s') /\
    applyIndexOffset v (short_gap_found short s4) = Some (true, s5) /\
    s' = home_done s5 /\
    currentBin (nav s') = 0 /\
    homed (nav s') = true).
Proof.
  intros v fuel s s'.
  assert (H : homeRoutine v fuel s = Some (true, s'))
    by (vm_compute; reflexivity).
  split; [exact H|].
  exact (homeRoutine_calibration v fuel s s' H).
Defined.

(** From bin 1 a first call moves to bin 3; the call that follows moves
    from bin 3 to bin 0, one bin further counter-clockwise. *)
Lemma moveToBin_sequence_witness :
  let v := CommandQueue in
  let s0 := Bench.homed_at 1 Bench.env_moves in
  let s := snd (Bench.run (moveToBin v 3) s0 false) in
  let t := 0 in
  (nav_ok s0) /\
  (nav_reach v s0 s) /\
  ((exists r s',
     moveToBin v t s = Some (r, s') /\
     (r = true ->
      0 <= t <= 3 /\
      currentBin (nav s') = t /\
      moveOneBinCalls (nav s') - moveOneBinCalls (nav s)
        = (t - currentBin (nav s) + 4) mod 4) /\
     (t = currentBin (nav s) ->
      r = true /\
      s' = emit [Txt "Already at BIN"; Num t; NL] s /\
      moveOneBinCalls (nav s') = moveOneBinCalls (nav s) /\
      step_edges (hw s') = step_edges (hw s)) /\
     (t < 0 \/ 3 < t ->
      r = false /\
      s' = emit [Txt "ERROR: targetBin must be 0..3"; NL] s /\
      currentBin (nav s') = currentBin (nav s) /\
      step_edges (hw s') = step_edges (hw s))) /\
  (forall u : State,
     homed (nav u) = false ->
     exists u',
       moveToBin v t u = Some (false, u') /\
       u' = emit [Txt "ERROR: Not homed. Use 'h' first."; NL] u /\
       currentBin (nav u') = currentBin (nav u) /\
       step_edges (hw u') = step_edges (hw u))).
Proof.
  intros v s0 s t.
  assert (H0 : nav_ok s0) by (split; [reflexivity|cbn; lia]).
  assert (H1 : nav_reach v s0 s).
  { apply (nav_reach_call v s0 s0 3 true s (nav_reach_start v s0)).
    vm_compute. reflexivity. }
  split; [exact H0|]. split; [exact H1|].
  exact (moveToBin_sequence v s0 s t H0 H1).
Defined.

(** The beam has been open since 100 ms and the clock reads 3000 ms: the
    re-arm delay has passed and the gate enters INVENTORY_PENDING. *)
Lemma gate_state_machine_witness :
  let v := CommandQueue in
  let fuel := 5%nat in
  let s := Bench.rearming Bench.env_rearmed in
  let s' := snd (Bench.run (updateBeamDebounce v fuel) s tt) in
  (updateBeamDebounce v fuel s = Some (tt, s')) /\
  (exists (sm : State) (fired : bool) (sr : State),
    beam_debounce s = Some (tt, sm) /\
    gate_rearm sm = Some (fired, sr) /\
    (if fired then tryRunQueuedCommands v fuel sr = Some (tt, s')
     else s' = sr) /\
    inventoryPending (gate sm) = inventoryPending (gate s) /\
    (fired = false -> gate sr = gate sm) /\
    (fired = true ->
     REARMING (gate sm) /\ ~ BLOCKED (gate sm) /\
     BEAM_ARM_DELAY_MS <= u32 (clock_now sm - gateOpenedAtMs (gate sm)) /\
     INVENTORY_PENDING (gate sr) /\
     gateLockout (gate sr) = false /\ gateOpenedAtMs (gate sr) = 0) /\
    (BLOCKED (gate s) ->
     u32 (clock_now sm - clock_now s) < BEAM_ARM_DELAY_MS ->
     fired = false) /\
    (stable_blocked_event s ->
     BLOCKED (gate sm) /\ gateOpenedAtMs (gate sm) = 0 /\
     fired = false /\ s' = sr /\ gate s' = gate sm /\
     forall n, tryRunQueuedCommands v (S n) s' = Some (tt, s'))).
Proof.
  intros v fuel s s'.
  assert (H : updateBeamDebounce v fuel s = Some (tt, s'))
    by (vm_compute; reflexivity).
  split; [exact H|].
  exact (gate_state_machine v fuel s s' H).
Defined.

(** An inventory run from bin 1 with a sensor that echoes after 600 us:
    two bins counter-clockwise, a distance of about 10 cm, HI. *)
Lemma inventory_classification_witness :
  let v := InventoryOutputs in
  let fuel := 10%nat in
  let drain := tryRunQueuedCommands v fuel in
  let s := Bench.inventory_due (mkQueue false false (-1)) Bench.env_moves in
  let r := fst (Bench.run (runInventorySequence v fuel drain) s false) in
  let s' := snd (Bench.run (runInventorySequence v fuel drain) s false) in
  (runInventorySequence v fuel drain s = Some (r, s')) /\
  ((r = false ->
   inventoryPending (gate s') = inventoryPending (gate s) /\
   ((inventory_ready s = false /\
     s' = emit [Txt (inventory_refusal s); NL] s) \/
    (inventory_ready s = true /\
     moveBins v 2 (emit inventory_banner s) = Some (false, s')) \/
    (inventory_ready s = true /\ estop s' = true /\
     exists sa d,
       moveBins v 2 (emit inventory_banner s) = Some (true, sa) /\
       readRobustDistance4sCm fuel (emit inventory_measuring sa)
         = Some (d, s')))) /\
  (r = true ->
   exists (sa : State) (d : F32.t) (sb : State),
     moveBins v 2 (emit inventory_banner s) = Some (true, sa) /\
     readRobustDistance4sCm fuel (emit inventory_measuring sa)
       = Some (d, sb) /\
     drain (inventory_reported v d sb) = Some (tt, s') /\
     (F32.isnan d = false ->
      classification d = F32.ltb d INVENTORY_THRESH_CM) /\
     (F32.isnan d = true -> classification d = false) /\
     (exists rest,
        distance_report d = Txt (HI_LO (classification d)) :: NL :: rest) /\
     0 <= lastSelectedBin (nav s) <= 3 /\
     out (hw (inventory_reported v d sb))
       = out (hw sb)
         ++ inventory_output v (lastSelectedBin (nav s)) d (clock_now sb) /\
     inventory_output InventoryOutputs (lastSelectedBin (nav s)) d
                      (clock_now sb)
       = distance_report d
         ++ log_line (lastSelectedBin (nav s)) (classification d)
                     (clock_now sb)
         ++ inventory_complete /\
     render (log_line (lastSelectedBin (nav s)) (classification d)
                      (clock_now sb))
       = Some (csv_line (lastSelectedBin (nav s)) (classification d)
                        (clock_now sb)))).
Proof.
  intros v fuel drain s r s'.
  assert (H : runInventorySequence v fuel drain s = Some (r, s'))
    by (vm_compute; reflexivity).
  split; [exact H|].
  exact (inventory_classification v fuel drain s r s' H).
Defined.

(** A queued request for bin 2 at bin 1, with the gate ready: the drain
    moves one bin and clears the request. *)
Lemma queue_drain_idempotent_witness :
  let v := CommandQueue in
  let fuel := 3%nat in
  let s := upd_queue (fun _ => mkQueue false true 2) (Bench.homed_at 1 Bench.env_moves) in
  let s' := snd (Bench.run (tryRunQueuedCommands v fuel) s tt) in
  (tryRunQueuedCommands v fuel s = Some (tt, s')) /\
  ((estop s = false -> inventory_allowed s = true ->
   inventoryRequested (queue s') = false) /\
  (estop s = false -> inventory_allowed s = false -> bin_allowed s = true ->
   binRequested (queue s') = false /\ requestedBin (queue s') = -1) /\
  queue_le (queue s') (queue s) /\
  (forall n, tryRunQueuedCommands v (S n) s' = Some (tt, s')) /\
  (forall s2, idle_reach v s' s2 ->
     (inventoryRequested (queue s') = false ->
      inventoryRequested (queue s2) = false /\ inventory_allowed s2 = false)
     /\
     (binRequested (queue s') = false ->
      binRequested (queue s2) = false /\ bin_allowed s2 = false)) /\
  (forall u t n,
     gateLockout (gate u) = true \/ inventoryPending (gate u) = true ->
     exists u',
       cmd_bin v n t u = Some (tt, u') /\
       queue u' = mkQueue (inventoryRequested (queue u)) true t)).
Proof.
  intros v fuel s s'.
  assert (H : tryRunQueuedCommands v fuel s = Some (tt, s'))
    by (vm_compute; reflexivity).
  split; [exact H|].
  exact (queue_drain_idempotent v fuel s s' H).
Defined.

(** A queued request for bin 2 on a carousel that is not homed: the move
    fails and the request is gone. *)
Lemma failed_request_discarded_witness :
  let v := InventoryOutputs in
  let fuel := 3%nat in
  let s := upd_queue (fun _ => mkQueue false true 2) (Bench.boot Bench.env_moves) in
  let s' := snd (Bench.run (tryRunQueuedCommands v (S fuel)) s tt) in
  (estop s = false) /\
  (tryRunQueuedCommands v (S fuel) s = Some (tt, s')) /\
  ((inventory_allowed s = true ->
   inventoryRequested (queue (inventory_started s)) = false /\
   exists ok sb,
     runInventorySequence v fuel (tryRunQueuedCommands v fuel)
       (inventory_started s) = Some (ok, sb) /\
     s' = inventory_returned ok sb /\
     inventoryRequested (queue s') = false /\
     (ok = false ->
      lastSelectedBin (nav s') = lastSelectedBin (nav s) /\
      binRequested (queue s') = binRequested (queue s) /\
      requestedBin (queue s') = requestedBin (queue s) /\
      forall n, tryRunQueuedCommands v (S n) s' = Some (tt, s'))) /\
  (inventory_allowed s = false -> bin_allowed s = true ->
   binRequested (queue (bin_started s)) = false /\
   requestedBin (queue (bin_started s)) = -1 /\
   exists ok sb,
     moveToBin v (requestedBin (queue s)) (bin_started s) = Some (ok, sb) /\
     s' = bin_returned (requestedBin (queue s)) ok sb /\
     binRequested (queue s') = false /\
     requestedBin (queue s') = -1 /\
     lastSelectedBin (nav s')
       = (if ok then requestedBin (queue s) else lastSelectedBin (nav s)) /\
     forall n, tryRunQueuedCommands v (S n) s' = Some (tt, s'))).
Proof.
  intros v fuel s s'.
  assert (He : estop s = false) by reflexivity.
  assert (H : tryRunQueuedCommands v (S fuel) s = Some (tt, s'))
    by (vm_compute; reflexivity).
  split; [exact He|]. split; [exact H|].
  exact (failed_request_discarded v fuel s s' He H).
Defined.

(** Inventory pending at bin 1, with an inventory request and a request
    for bin 0 queued: the drain runs the inventory at bin 3, then the move
    to bin 0. *)
Lemma deferred_bin_waits_for_inventory_witness :
  let v := CommandQueue in
  let fuel := 11%nat in
  let s := Bench.inventory_due (mkQueue true true 0) Bench.env_moves in
  let s' := snd (Bench.run (tryRunQueuedCommands v (S fuel)) s tt) in
  (inventoryPending (gate s) = true) /\
  (binRequested (queue s) = true) /\
  (0 <= currentBin (nav s) <= 3) /\
  (tryRunQueuedCommands v (S fuel) s = Some (tt, s')) /\
  (bin_allowed s = false /\
  (estop s = true \/ inventory_allowed s = false -> s' = s) /\
  (estop s = false -> inventory_allowed s = true ->
   exists ok sb,
     runInventorySequence v fuel (tryRunQueuedCommands v fuel)
       (inventory_started s) = Some (ok, sb) /\
     s' = inventory_returned ok sb /\
     (ok = false ->
      binRequested (queue s') = true /\
      requestedBin (queue s') = requestedBin (queue s) /\
      inventoryPending (gate s') = true) /\
     (ok = true ->
      exists d sc okb se,
        estop sc = false /\
        inventoryPending (gate (inventory_reported v d sc)) = false /\
        bin_allowed (inventory_reported v d sc) = true /\
        tryRunQueuedCommands v fuel (inventory_reported v d sc)
          = Some (tt, sb) /\
        moveToBin v (requestedBin (queue s))
                  (bin_started (inventory_reported v d sc))
          = Some (okb, se) /\
        sb = bin_returned (requestedBin (queue s)) okb se /\
        binRequested (queue s') = false /\
        (okb = true ->
         currentBin (nav s') = requestedBin (queue s) /\
         lastSelectedBin (nav s') = requestedBin (queue s) /\
         moveOneBinCalls (nav s')
           = moveOneBinCalls (nav s) + 2
             + ccw_steps ((currentBin (nav s) + 2) mod 4)
                         (requestedBin (queue s)))))).
Proof.
  intros v fuel s s'.
  assert (Hp : inventoryPending (gate s) = true) by reflexivity.
  assert (Hb : binRequested (queue s) = true) by reflexivity.
  assert (Hc : 0 <= currentBin (nav s) <= 3) by (cbn; lia).
  assert (H : tryRunQueuedCommands v (S fuel) s = Some (tt, s'))
    by (vm_compute; reflexivity).
  split; [exact Hp|]. split; [exact Hb|]. split; [exact Hc|].
  split; [exact H|].
  exact (deferred_bin_waits_for_inventory v fuel s s' Hp Hb Hc H).
Defined.

(* ================================================================== *)
(** * Command lines *)


Lemma ascii_eqb_refl c : Ascii.eqb c c = true.
Proof. apply Ascii.eqb_eq. reflexivity. Qed.

Fixpoint lower (s : string) : string :=
  match s with
  | EmptyString => EmptyString
  | String c s' => String (to_lower c) (lower s')
  end.

(** X1.  [equalsIgnoreCase] holds exactly of two strings that are equal
    once the letters [A] .. [Z] are put in lower case; other characters
    are compared as they are. *)
Theorem equalsIgnoreCase_iff (a b : string) :
  equalsIgnoreCase a b = true <-> lower a = lower b.
Proof.
  revert b. induction a as [|ca a IH]; intros [|cb b]; cbn.
  - split; auto.
  - split; discriminate.
  - split; discriminate.
  - rewrite andb_true_iff, Ascii.eqb_eq, IH. split.
    + intros [-> ->]. reflexivity.
    + intros H. injection H. auto.
Qed.

Lemma to_lower_code c :
  nat_of_ascii (to_lower c)
  = (if (65 <=? nat_of_ascii c)%nat && (nat_of_ascii c <=? 90)%nat
     then nat_of_ascii c + 32 else nat_of_ascii c)%nat.
Proof.
  unfold to_lower.
  destruct ((65 <=? nat_of_ascii c)%nat && (nat_of_ascii c <=? 90)%nat) eqn:E;
    [|reflexivity].
  apply andb_true_iff in E. destruct E as (E1 & E2).
  apply Nat.leb_le in E1, E2.
  apply nat_ascii_embedding. lia.
Qed.

Definition digit (b : Z) : ascii := ascii_of_nat (48 + Z.to_nat b).

Lemma parseBinCommand_Some (s : string) (b : Z) :
  parseBinCommand s = Some b <->
  0 <= b <= 3 /\
  lower (trim s) = String "b" (String "i" (String "n" (String (digit b) ""))).
Proof.
  unfold parseBinCommand.
  destruct (trim s) as [|c0 [|c1 [|c2 [|c3 [|c4 r]]]]]; cbn [lower];
    try (split; [discriminate | intros (_ & H); discriminate H]).
  destruct (Ascii.eqb (to_lower c0) "b") eqn:E0; cbn [andb];
    [apply Ascii.eqb_eq in E0
    | apply Ascii.eqb_neq in E0; split;
      [discriminate | intros (_ & H); injection H; intros; contradiction]].
  destruct (Ascii.eqb (to_lower c1) "i") eqn:E1; cbn [andb];
    [apply Ascii.eqb_eq in E1
    | apply Ascii.eqb_neq in E1; split;
      [discriminate | intros (_ & H); injection H; intros; contradiction]].
  destruct (Ascii.eqb (to_lower c2) "n") eqn:E2; cbn [andb];
    [apply Ascii.eqb_eq in E2
    | apply Ascii.eqb_neq in E2; split;
      [discriminate | intros (_ & H); injection H; intros; contradiction]].
  rewrite E0, E1, E2.
  destruct ((48 <=? nat_of_ascii (to_lower c3))%nat
            && (nat_of_ascii (to_lower c3) <=? 51)%nat) eqn:Ed.
  - apply andb_true_iff in Ed. destruct Ed as (D1 & D2).
    apply Nat.leb_le in D1, D2. split.
    + intros H. injection H as <-. split; [lia|].
      unfold digit.
      replace (48 + Z.to_nat (Z.of_nat (nat_of_ascii (to_lower c3)) - 48))%nat
        with (nat_of_ascii (to_lower c3)) by lia.
      rewrite ascii_nat_embedding. reflexivity.
    + intros (Hb & H). injection H as H. f_equal.
      rewrite H. unfold digit. rewrite nat_ascii_embedding by lia. lia.
  - split; [discriminate|]. intros (Hb & H). injection H as H. exfalso.
    rewrite H in Ed. unfold digit in Ed.
    rewrite nat_ascii_embedding in Ed by lia.
    apply andb_false_iff in Ed.
    destruct Ed as [Ed|Ed]; apply Nat.leb_gt in Ed; lia.
Qed.

(** X2.  [parseBinCommand] of the command-queue sketch accepts exactly the
    lines that, once trimmed and put in lower case, read [bin0] .. [bin3],
    and yields the digit. *)
Theorem parseBinCommand_iff (s : string) (b : Z) :
  parseBinCommand s = Some b <->
  0 <= b <= 3 /\
  lower (trim s) = String "b" (String "i" (String "n" (String (digit b) ""))).
Proof. exact (parseBinCommand_Some s b). Qed.

(** ** [trimInPlace] *)

Lemma c_str_no_NUL l : ~ In NUL (c_str l).
Proof.
  induction l as [|c l IH]; cbn [c_str]; [intros []|].
  destruct (Ascii.eqb c NUL) eqn:E; [intros []|].
  apply Ascii.eqb_neq in E. intros [H|H]; [congruence|auto].
Qed.

Lemma c_str_id l : ~ In NUL l -> c_str l = l.
Proof.
  induction l as [|c l IH]; cbn [c_str]; [reflexivity|]. intros H.
  destruct (Ascii.eqb c NUL) eqn:E.
  - apply Ascii.eqb_eq in E. subst. exfalso. apply H. left. reflexivity.
  - rewrite IH; [reflexivity|]. intros H'. apply H. right. exact H'.
Qed.

Lemma skip_blanks_split s :
  exists l, s = l ++ skip_blanks s /\ forallb is_blank l = true.
Proof.
  induction s as [|c s (l & E & Hl)]; cbn.
  - exists []. auto.
  - destruct (is_blank c) eqn:Ec.
    + exists (c :: l). cbn. rewrite Ec, Hl. rewrite <- E. auto.
    + exists []. auto.
Qed.

Lemma skip_blanks_head s : is_blank (hd NUL (skip_blanks s)) = false.
Proof.
  induction s as [|c s IH]; cbn; [reflexivity|].
  destruct (is_blank c) eqn:Ec; [exact IH | exact Ec].
Qed.

Lemma skip_blanks_id s : is_blank (hd NUL s) = false -> skip_blanks s = s.
Proof. destruct s as [|c s]; cbn; [reflexivity|]. intros ->. reflexivity. Qed.

Lemma strip_tail_spec s : forall n,
  (strip_tail n s <= n)%nat /\
  (forall i, (strip_tail n s <= i < n)%nat -> is_blank (nth i s NUL) = true) /\
  (forall k, strip_tail n s = S k -> is_blank (nth k s NUL) = false).
Proof.
  induction n as [|n (IH1 & IH2 & IH3)]; cbn [strip_tail].
  - split; [lia|]. split; [intros; lia | discriminate].
  - destruct (is_blank (nth n s NUL)) eqn:E.
    + split; [lia|]. split; [| exact IH3].
      intros i Hi. destruct (Nat.eq_dec i n) as [->|]; [exact E|].
      apply IH2. lia.
    + split; [lia|]. split; [intros; lia |].
      intros k Hk. injection Hk as <-. exact E.
Qed.

Lemma forallb_nth {A} (p : A -> bool) d l :
  (forall i, (i < List.length l)%nat -> p (nth i l d) = true) ->
  forallb p l = true.
Proof.
  induction l as [|x l IH]; cbn; [reflexivity|]. intros H.
  rewrite (H 0%nat) by lia. apply IH. intros i Hi. apply (H (S i)). lia.
Qed.

Lemma last_firstn_S {A} (d : A) k l :
  (S k <= List.length l)%nat -> last (firstn (S k) l) d = nth k l d.
Proof.
  revert l. induction k as [|k IH]; intros [|x l] H; cbn in *; try lia.
  - destruct l; reflexivity.
  - specialize (IH l ltac:(lia)). cbn in IH.
    destruct l as [|y l]; [cbn in H; lia|]. exact IH.
Qed.

(** What [trimInPlace] leaves: [t] neither starts nor ends with a space or
    a tab. *)
Definition trimmed (t : list ascii) : Prop :=
  is_blank (hd NUL t) = false /\ is_blank (last t NUL) = false.

Lemma is_blank_NUL : is_blank NUL = false.
Proof. reflexivity. Qed.

Lemma trimInPlace_id t : ~ In NUL t -> trimmed t -> trimInPlace t = t.
Proof.
  intros Hn (Hh & Hl). unfold trimInPlace.
  rewrite (c_str_id _ Hn), (skip_blanks_id _ Hh).
  destruct (strip_tail_spec t (List.length t)) as (H1 & H2 & _).
  assert (E : strip_tail (List.length t) t = List.length t).
  { destruct (List.length t) as [|n] eqn:En; [lia|].
    assert (Hb : is_blank (nth n t NUL) = false).
    { rewrite <- Hl. rewrite <- (firstn_all t) at 2. rewrite En.
      symmetry. f_equal. apply last_firstn_S. lia. }
    cbn [strip_tail]. rewrite Hb. reflexivity. }
  rewrite E. apply firstn_all.
Qed.

(** X3.  [trimInPlace] returns the C string at its argument without the
    spaces and tabs at its two ends: what it removes is only spaces and
    tabs, the result neither starts nor ends with one, holds no NUL, and
    trimming it again changes nothing. *)
Theorem trimInPlace_spec (s : list ascii) :
  (exists l r,
     c_str s = l ++ trimInPlace s ++ r /\
     forallb is_blank l = true /\ forallb is_blank r = true) /\
  trimmed (trimInPlace s) /\
  ~ In NUL (trimInPlace s) /\
  trimInPlace (trimInPlace s) = trimInPlace s.
Proof.
  assert (Hsplit : exists l r,
     c_str s = l ++ trimInPlace s ++ r /\
     forallb is_blank l = true /\ forallb is_blank r = true).
  { unfold trimInPlace.
    destruct (skip_blanks_split (c_str s)) as (l & E & Hl).
    set (t := skip_blanks (c_str s)) in *.
    destruct (strip_tail_spec t (List.length t)) as (H1 & H2 & _).
    set (k := strip_tail (List.length t) t) in *.
    exists l, (skipn k t). split; [|split; [exact Hl|]].
    - rewrite firstn_skipn. exact E.
    - apply (forallb_nth _ NUL). intros i Hi.
      rewrite length_skipn in Hi.
      rewrite nth_skipn. apply H2. lia. }
  assert (Htr : trimmed (trimInPlace s)).
  { unfold trimInPlace.
    set (t := skip_blanks (c_str s)).
    destruct (strip_tail_spec t (List.length t)) as (H1 & _ & H3).
    destruct (strip_tail (List.length t) t) as [|k] eqn:Ek.
    - split; reflexivity.
    - split.
      + pose proof (skip_blanks_head (c_str s)) as Hh. fold t in Hh.
        destruct t as [|c t']; [cbn in H1; lia|]. exact Hh.
      + rewrite last_firstn_S by lia. apply H3. reflexivity. }
  assert (Hn : ~ In NUL (trimInPlace s)).
  { destruct Hsplit as (l & r & E & _). intros H.
    apply (c_str_no_NUL s). rewrite E.
    apply in_or_app. right. apply in_or_app. left. exact H. }
  split; [exact Hsplit|]. split; [exact Htr|]. split; [exact Hn|].
  apply trimInPlace_id; assumption.
Qed.

(** ** [readCommandLine] *)

(** A byte that [readCommandLine] stores: not CR, LF, backspace or DEL. *)
Definition stored_byte (c : ascii) : bool :=
  negb (Ascii.eqb c CR || Ascii.eqb c NEWLINE || Ascii.eqb c BS
        || Ascii.eqb c DEL).

Lemma removelast_length {A} (l : list A) :
  List.length (removelast l) = pred (List.length l).
Proof.
  induction l as [|x l IH]; [reflexivity|].
  destruct l as [|y l]; [reflexivity|].
  cbn [removelast List.length] in *. rewrite IH. reflexivity.
Qed.

(** X4.  [readCommandLine] never stores more than [CMD_BUF_LEN - 1]
    characters, so that the terminating NUL fits: whatever arrives, a
    [cmdLen] within the bound stays within it. *)
Theorem readCommandLine_bounded (rx buf : list ascii) :
  (List.length buf <= CMD_BUF_LEN - 1)%nat ->
  (List.length (snd (readCommandLine rx buf)) <= CMD_BUF_LEN - 1)%nat.
Proof.
  revert buf. induction rx as [|c rx IH]; intros buf Hb;
    cbn [readCommandLine snd]; [exact Hb|].
  destruct (Ascii.eqb c CR); [apply IH; exact Hb|].
  destruct (Ascii.eqb c NEWLINE); [exact Hb|].
  destruct (Ascii.eqb c BS || Ascii.eqb c DEL).
  - apply IH. rewrite removelast_length. lia.
  - destruct (List.length buf <? CMD_BUF_LEN - 1)%nat eqn:E.
    + apply IH. apply Nat.ltb_lt in E. rewrite length_app.
      cbn [List.length]. lia.
    + apply IH. exact Hb.
Qed.

Lemma firstn_app_one {A} n (l : list A) x :
  (List.length l < n)%nat -> firstn n (l ++ [x] ) = firstn n l ++ [x].
Proof.
  intros H. rewrite firstn_app.
  rewrite (firstn_all2 l) by lia.
  replace (n - List.length l)%nat with (S (n - List.length l - 1)) by lia.
  cbn. rewrite firstn_nil. reflexivity.
Qed.

(** X5.  A line of stored bytes followed by LF: the call returns true, the
    buffer holds the line cut at the capacity of the buffer, and the line
    ends that follow are swallowed. *)
Theorem readCommandLine_line (line rest buf : list ascii) :
  forallb stored_byte line = true ->
  (List.length buf <= CMD_BUF_LEN - 1)%nat ->
  readCommandLine (line ++ NEWLINE :: rest) buf
    = (true, swallow_eol rest, firstn (CMD_BUF_LEN - 1) (buf ++ line)).
Proof.
  revert buf. induction line as [|c line IH]; intros buf Hs Hb.
  - cbn [app readCommandLine]. rewrite app_nil_r.
    rewrite firstn_all2 by exact Hb. reflexivity.
  - cbn [forallb] in Hs. apply andb_true_iff in Hs. destruct Hs as (Hc & Hs).
    unfold stored_byte in Hc. apply negb_true_iff in Hc.
    apply orb_false_iff in Hc. destruct Hc as (Hc & Hdel).
    apply orb_false_iff in Hc. destruct Hc as (Hc & Hbs).
    apply orb_false_iff in Hc. destruct Hc as (Hcr & Hnl).
    cbn [app readCommandLine]. rewrite Hcr, Hnl, Hbs, Hdel. cbn [orb].
    destruct (List.length buf <? CMD_BUF_LEN - 1)%nat eqn:E.
    + apply Nat.ltb_lt in E. rewrite IH; [|exact Hs|].
      * rewrite <- app_assoc. reflexivity.
      * rewrite length_app. cbn [List.length]. lia.
    + apply Nat.ltb_ge in E. rewrite IH by assumption.
      rewrite !firstn_app.
      replace (CMD_BUF_LEN - 1 - List.length buf)%nat with 0%nat by lia.
      reflexivity.
Qed.

(** X6.  Input without LF is consumed whole and completes no line; what
    arrives later is read as if it had come in the same call. *)
Theorem readCommandLine_chunks (a b buf : list ascii) :
  ~ In NEWLINE a ->
  fst (readCommandLine a buf) = (false, []) /\
  readCommandLine (a ++ b) buf
    = readCommandLine b (snd (readCommandLine a buf)).
Proof.
  revert buf. induction a as [|c a IH]; intros buf Hn.
  - split; reflexivity.
  - assert (Hc : Ascii.eqb c NEWLINE = false).
    { apply Ascii.eqb_neq. intros ->. apply Hn. left. reflexivity. }
    assert (Ha : ~ In NEWLINE a) by (intros H; apply Hn; right; exact H).
    cbn [app readCommandLine]. rewrite Hc.
    destruct (Ascii.eqb c CR); [apply IH; exact Ha|].
    destruct (Ascii.eqb c BS || Ascii.eqb c DEL); [apply IH; exact Ha|].
    destruct (List.length buf <? CMD_BUF_LEN - 1)%nat; apply IH; exact Ha.
Qed.

(** X7.  Backspace: on an empty buffer it does nothing; after a byte that
    was stored it removes that byte; after a byte that found the buffer
    full it removes the last byte that was stored. *)
Theorem readCommandLine_backspace (c : ascii) (rx buf : list ascii) :
  stored_byte c = true ->
  readCommandLine (BS :: rx) [] = readCommandLine rx [] /\
  ((List.length buf < CMD_BUF_LEN - 1)%nat ->
   readCommandLine (c :: BS :: rx) buf = readCommandLine rx buf) /\
  ((List.length buf = CMD_BUF_LEN - 1)%nat ->
   readCommandLine (c :: BS :: rx) buf
     = readCommandLine rx (removelast buf)).
Proof.
  intros Hc. unfold stored_byte in Hc. apply negb_true_iff in Hc.
  apply orb_false_iff in Hc. destruct Hc as (Hc & Hdel).
  apply orb_false_iff in Hc. destruct Hc as (Hc & Hbs).
  apply orb_false_iff in Hc. destruct Hc as (Hcr & Hnl).
  split; [reflexivity|]. split; intros Hb.
  - cbn [readCommandLine]. rewrite Hcr, Hnl, Hbs, Hdel. cbn [orb].
    apply Nat.ltb_lt in Hb. rewrite Hb.
    change (Ascii.eqb BS CR) with false. change (Ascii.eqb BS NEWLINE) with false.
    change (Ascii.eqb BS BS) with true. cbn [orb].
    rewrite removelast_last. reflexivity.
  - cbn [readCommandLine]. rewrite Hcr, Hnl, Hbs, Hdel. cbn [orb].
    replace (List.length buf <? CMD_BUF_LEN - 1)%nat with false
      by (symmetry; apply Nat.ltb_ge; lia).
    change (Ascii.eqb BS CR) with false. change (Ascii.eqb BS NEWLINE) with false.
    change (Ascii.eqb BS BS) with true. cbn [orb]. reflexivity.
Qed.

(** ** The two parsers of bin commands *)

Fixpoint lower_list (l : list ascii) : list ascii :=
  match l with
  | [] => []
  | c :: l' => to_lower c :: lower_list l'
  end.

Lemma to_lower_digit c :
  (48 <= nat_of_ascii c <= 51)%nat -> to_lower c = c.
Proof.
  intros H. unfold to_lower.
  replace (65 <=? nat_of_ascii c)%nat with false
    by (symmetry; apply Nat.leb_gt; lia).
  reflexivity.
Qed.

Lemma to_lower_is_digit c :
  (48 <= nat_of_ascii (to_lower c) <= 51)%nat ->
  (48 <= nat_of_ascii c <= 51)%nat.
Proof.
  rewrite to_lower_code.
  destruct ((65 <=? nat_of_ascii c)%nat && (nat_of_ascii c <=? 90)%nat) eqn:E;
    [|auto].
  apply andb_true_iff in E. destruct E as (E1 & E2).
  apply Nat.leb_le in E1, E2. lia.
Qed.

Lemma parseBinCommand_ino_iff
    (str : list ascii) (junk : nat -> ascii) (b : Z) :
  ~ In NUL str ->
  (parseBinCommand_ino (c_mem str junk) = Some b <->
   0 <= b <= 3 /\ lower_list str = ["b"; "i"; "n"; digit b]%char).
Proof.
  intros Hn. unfold parseBinCommand_ino.
  assert (Hnz : forall i, (i < List.length str)%nat ->
                          Ascii.eqb (nth i str NUL) NUL = false).
  { intros i Hi. apply Ascii.eqb_neq. intros E. apply Hn.
    rewrite <- E. apply nth_In. exact Hi. }
  destruct str as [|c0 [|c1 [|c2 [|c3 [|c4 r]]]]].
  1-4: split; [|intros (_ & H); discriminate H];
       unfold c_mem; intros H; cbn in H; rewrite ?andb_false_r in H;
       cbn in H;
       repeat match type of H with
              | (if ?c then _ else _) = _ => destruct c; cbn in H
              end; discriminate H.
  - (* four characters *)
    change (c_mem [c0; c1; c2; c3] junk 0%nat) with c0.
    change (c_mem [c0; c1; c2; c3] junk 1%nat) with c1.
    change (c_mem [c0; c1; c2; c3] junk 2%nat) with c2.
    change (c_mem [c0; c1; c2; c3] junk 3%nat) with c3.
    change (c_mem [c0; c1; c2; c3] junk 4%nat) with NUL.
    change (Ascii.eqb NUL NUL) with true. cbn [negb lower_list].
    destruct (Ascii.eqb (to_lower c0) "b") eqn:E0; cbn [andb negb];
      [apply Ascii.eqb_eq in E0
      | apply Ascii.eqb_neq in E0; split;
        [discriminate | intros (_ & H); injection H; intros; contradiction]].
    destruct (Ascii.eqb (to_lower c1) "i") eqn:E1; cbn [andb negb];
      [apply Ascii.eqb_eq in E1
      | apply Ascii.eqb_neq in E1; split;
        [discriminate | intros (_ & H); injection H; intros; contradiction]].
    destruct (Ascii.eqb (to_lower c2) "n") eqn:E2; cbn [andb negb];
      [apply Ascii.eqb_eq in E2
      | apply Ascii.eqb_neq in E2; split;
        [discriminate | intros (_ & H); injection H; intros; contradiction]].
    rewrite E0, E1, E2.
    destruct ((nat_of_ascii c3 <? 48)%nat || (51 <? nat_of_ascii c3)%nat)
      eqn:Ed.
    + split; [discriminate|]. intros (Hb & H). injection H as H. exfalso.
      assert (Hd : (48 <= nat_of_ascii (to_lower c3) <= 51)%nat).
      { rewrite H. unfold digit. rewrite nat_ascii_embedding by lia. lia. }
      apply to_lower_is_digit in Hd.
      apply orb_true_iff in Ed.
      destruct Ed as [Ed|Ed]; apply Nat.ltb_lt in Ed; lia.
    + apply orb_false_iff in Ed. destruct Ed as (D1 & D2).
      apply Nat.ltb_ge in D1, D2.
      rewrite (to_lower_digit c3) by lia. split.
      * intros H. injection H as <-. split; [lia|].
        unfold digit.
        replace (48 + Z.to_nat (Z.of_nat (nat_of_ascii c3) - 48))%nat
          with (nat_of_ascii c3) by lia.
        rewrite ascii_nat_embedding. reflexivity.
      * intros (Hb & H). injection H as H. f_equal.
        rewrite H. unfold digit. rewrite nat_ascii_embedding by lia. lia.
  - (* five or more: s[4] is not NUL *)
    split; [|intros (_ & H); discriminate H].
    change (c_mem (c0 :: c1 :: c2 :: c3 :: c4 :: r) junk 4%nat) with c4.
    pose proof (Hnz 4%nat ltac:(cbn; lia)) as H4. cbn [nth] in H4.
    rewrite H4. discriminate.
Qed.

Lemma lower_list_of_string s :
  lower_list (list_ascii_of_string s) = list_ascii_of_string (lower s).
Proof. induction s as [|c s IH]; cbn; [reflexivity|]. rewrite IH. reflexivity. Qed.

Lemma option_ext {A} (x y : option A) :
  (forall b, x = Some b <-> y = Some b) -> x = y.
Proof.
  intros H. destruct x as [a|], y as [b|]; auto.
  - symmetry. apply H. reflexivity.
  - symmetry. apply H. reflexivity.
  - apply H. reflexivity.
Qed.

(** X8.  The two sketches accept the same bin commands: on a line that
    [String::trim] leaves as it is, the parser of the ino returns what the
    parser of the command-queue sketch returns, whatever the buffer holds
    behind the terminating NUL. *)
Theorem parseBinCommand_agree (s : string) (junk : nat -> ascii) :
  ~ In NUL (list_ascii_of_string s) ->
  trim s = s ->
  parseBinCommand_ino (c_mem (list_ascii_of_string s) junk)
    = parseBinCommand s.
Proof.
  intros Hn Ht. apply option_ext. intros b.
  rewrite (parseBinCommand_ino_iff _ junk b Hn), parseBinCommand_Some, Ht.
  rewrite lower_list_of_string.
  split; intros (Hb & H); (split; [exact Hb|]).
  - rewrite <- (string_of_list_ascii_of_string (lower s)), H. reflexivity.
  - rewrite H. reflexivity.
Qed.

(* ================================================================== *)
(** * Invariants of the main loop *)

(** ** Invariants: what a statement preserves *)

Definition Pres {A} (P : State -> Prop) (m : M A) : Prop :=
  forall s a s', m s = Some (a, s') -> P s -> P s'.

Section PresRules.
Context (P : State -> Prop).

Lemma Pres_ret {A} (a : A) : Pres P (ret a).
Proof. intros s b s' H. apply ret_inv in H. destruct H; subst; auto. Qed.

Lemma Pres_gets {A} (f : State -> A) : Pres P (gets f).
Proof. intros s b s' H. apply gets_inv in H. destruct H; subst; auto. Qed.

Lemma Pres_out_of_fuel {A} : Pres P (@out_of_fuel A).
Proof. intros s b s' H. discriminate H. Qed.

Lemma Pres_modify f : (forall s, P s -> P (f s)) -> Pres P (modify f).
Proof. intros Hf s b s' H. apply modify_inv in H. subst. apply Hf. Qed.

Lemma Pres_bind {A B} (m : M A) (k : A -> M B) :
  Pres P m -> (forall a, Pres P (k a)) -> Pres P (bind m k).
Proof.
  intros Hm Hk s b s' H Hs. apply bind_inv in H.
  destruct H as (a & s1 & H1 & H2).
  eapply Hk; [exact H2|]. eapply Hm; eauto.
Qed.
End PresRules.

Create HintDb pres.

Ltac pres_step :=
  lazymatch goal with
  | |- Pres _ (ret _) => apply Pres_ret
  | |- Pres _ (gets _) => apply Pres_gets
  | |- Pres _ out_of_fuel => apply Pres_out_of_fuel
  | |- Pres _ (bind _ _) => apply Pres_bind; [ | intros ]
  | |- Pres _ (if ?b then _ else _) => destruct b
  | |- Pres _ (match ?x with _ => _ end) => destruct x
  | |- Pres _ _ => solve [ eauto with pres ]
  end.

Ltac pres := cbv zeta; repeat pres_step.

(** A predicate that does not look at what the program prints, at the
    read cursors, or at the navigation, gate and queue variables, and that
    setting the latch preserves. *)
Record Soft (P : State -> Prop) : Prop := mkSoft {
  soft_emit : forall t s, P s -> P (upd_hw (hw_emit t) s);
  soft_next : forall p s, P s -> P (upd_hw (hw_next p) s);
  soft_nav : forall f s, P s -> P (upd_nav f s);
  soft_gate : forall f s, P s -> P (upd_gate f s);
  soft_queue : forall f s, P s -> P (upd_queue f s);
  soft_latch : forall s, P s -> P (set_estop true s)
}.

Section SoftFrames.
Context (P : State -> Prop) (HP : Soft P).

Lemma Pres_print t : Pres P (print t).
Proof. apply Pres_modify. intros. apply soft_emit; assumption. Qed.

Lemma Pres_println t : Pres P (println t).
Proof. unfold println. pres; apply Pres_print. Qed.

Lemma Pres_upd_nav f : Pres P (modify (upd_nav f)).
Proof. apply Pres_modify. intros. apply soft_nav; assumption. Qed.

Lemma Pres_upd_gate f : Pres P (modify (upd_gate f)).
Proof. apply Pres_modify. intros. apply soft_gate; assumption. Qed.

Lemma Pres_upd_queue f : Pres P (modify (upd_queue f)).
Proof. apply Pres_modify. intros. apply soft_queue; assumption. Qed.

Lemma Pres_set_estop_true : Pres P (modify (set_estop true)).
Proof. apply Pres_modify. intros. apply soft_latch; assumption. Qed.

Lemma Pres_digitalRead_INDEX : Pres P digitalRead_INDEX.
Proof. intros s a s' H Hs. inversion H. apply soft_next; assumption. Qed.

Lemma Pres_digitalRead_BEAM : Pres P digitalRead_BEAM.
Proof. intros s a s' H Hs. inversion H. apply soft_next; assumption. Qed.

Lemma Pres_millis : Pres P millis.
Proof. intros s a s' H Hs. inversion H. apply soft_next; assumption. Qed.

Lemma Pres_pulseIn_ECHO t : Pres P (pulseIn_ECHO t).
Proof. intros s a s' H Hs. inversion H. apply soft_next; assumption. Qed.

Lemma Pres_Serial_drain : Pres P Serial_drain.
Proof. intros s a s' H Hs. inversion H. apply soft_next; assumption. Qed.

Lemma Pres_readLine : Pres P readLine.
Proof. intros s a s' H Hs. inversion H. apply soft_next; assumption. Qed.

Hint Resolve Pres_print Pres_println Pres_upd_nav Pres_upd_gate
  Pres_upd_queue Pres_set_estop_true Pres_digitalRead_INDEX
  Pres_digitalRead_BEAM Pres_millis Pres_pulseIn_ECHO Pres_Serial_drain
  Pres_readLine : pres.

Lemma Pres_indexPressedRaw : Pres P indexPressedRaw.
Proof. unfold indexPressedRaw. pres. Qed.

Lemma Pres_pollEstop : Pres P pollEstop.
Proof. unfold pollEstop. pres. Qed.

Lemma Pres_beamBlockedRaw : Pres P beamBlockedRaw.
Proof. unfold beamBlockedRaw. pres. Qed.

Hint Resolve Pres_indexPressedRaw Pres_pollEstop Pres_beamBlockedRaw : pres.

Lemma Pres_confirm_polls want n : forall ok,
  Pres P (confirm_polls want n ok).
Proof. induction n; intros; cbn [confirm_polls]; pres. Qed.

Hint Resolve Pres_confirm_polls : pres.

Lemma Pres_confirmPressed : Pres P confirmPressed.
Proof. unfold confirmPressed. pres. Qed.

Lemma Pres_confirmReleased : Pres P confirmReleased.
Proof. unfold confirmReleased. pres. Qed.

Hint Resolve Pres_confirmPressed Pres_confirmReleased : pres.

Lemma Pres_stepPulseChecked d :
  (forall l s, P s -> P (upd_hw (hw_write PUL_PIN l) s)) ->
  Pres P (stepPulseChecked d).
Proof.
  intros P_pul.
  assert (W : forall l, Pres P (digitalWrite PUL_PIN l))
    by (intros l; apply Pres_modify, P_pul).
  unfold stepPulseChecked. pres; apply W.
Qed.

(** *** Motion, for a predicate that the writes of DIR and EN and a
    checked pulse preserve *)
Section Motion.
Hypothesis P_dir :
  forall s, P s -> P (upd_hw (hw_write DIR_PIN CCW_DIR_LEVEL) s).
Hypothesis P_en : forall l s, P s -> P (upd_hw (hw_write EN_PIN l) s).
Hypothesis P_pulse : forall d, Pres P (stepPulseChecked d).

Lemma Pres_write_DIR : Pres P (digitalWrite DIR_PIN CCW_DIR_LEVEL).
Proof. apply Pres_modify. exact P_dir. Qed.

Lemma Pres_enableDriver on : Pres P (enableDriver on).
Proof. unfold enableDriver. apply Pres_modify. apply P_en. Qed.

Hint Resolve Pres_write_DIR Pres_enableDriver P_pulse : pres.

Lemma Pres_stepCCW_pulses n d : Pres P (stepCCW_pulses n d).
Proof. induction n; cbn [stepCCW_pulses]; pres. Qed.

Hint Resolve Pres_stepCCW_pulses : pres.

Lemma Pres_stepCCW n d : Pres P (stepCCW n d).
Proof. unfold stepCCW. pres. Qed.

Lemma Pres_seek_until_released fuel d : forall sm g,
  Pres P (seek_until_released fuel d sm g).
Proof. induction fuel; intros; cbn [seek_until_released]; pres. Qed.

Lemma Pres_seek_escape n : forall sm, Pres P (seek_escape n sm).
Proof. induction n; intros; cbn [seek_escape]; pres. Qed.

Hint Resolve Pres_seek_until_released Pres_seek_escape : pres.

Lemma Pres_seek_until_pressed fuel : forall sm g ac,
  Pres P (seek_until_pressed fuel sm g ac).
Proof. induction fuel; intros; cbn [seek_until_pressed]; pres. Qed.

Hint Resolve Pres_seek_until_pressed : pres.

Lemma Pres_seekNextPressEventCCW : Pres P seekNextPressEventCCW.
Proof. unfold seekNextPressEventCCW. pres. Qed.
End Motion.
End SoftFrames.

(** *** The operations, for a predicate that seeks, step bursts, pings and
    the release of the driver preserve *)
Section Operations.
Context (P : State -> Prop) (HP : Soft P).
Hypothesis P_seek : Pres P seekNextPressEventCCW.
Hypothesis P_step : forall n d, Pres P (stepCCW n d).
Hypothesis P_ping : Pres P pingDistanceCm.
Hypothesis P_release : Pres P (enableDriver false).

Hint Resolve P_seek P_step P_ping P_release : pres.
Hint Resolve Pres_print Pres_println Pres_upd_nav Pres_upd_gate
  Pres_upd_queue Pres_set_estop_true Pres_millis Pres_readLine
  Pres_pollEstop Pres_beamBlockedRaw : pres.

Lemma Pres_applyIndexOffset v : Pres P (applyIndexOffset v).
Proof. unfold applyIndexOffset. pres. Qed.

Lemma Pres_median_collect fuel : forall l, Pres P (median_collect fuel l).
Proof. induction fuel; intros; cbn [median_collect]; pres. Qed.

Hint Resolve Pres_applyIndexOffset Pres_median_collect : pres.

Lemma Pres_medianOfBlockCm fuel : Pres P (medianOfBlockCm fuel).
Proof. unfold medianOfBlockCm. pres. Qed.

Hint Resolve Pres_medianOfBlockCm : pres.

Lemma Pres_robust_collect fuel n : forall t0 l,
  Pres P (robust_collect fuel n t0 l).
Proof. induction n; intros; cbn [robust_collect]; pres. Qed.

Hint Resolve Pres_robust_collect : pres.

Lemma Pres_readRobustDistance4sCm fuel : Pres P (readRobustDistance4sCm fuel).
Proof. unfold readRobustDistance4sCm. pres. Qed.

Lemma Pres_moveOneBin v : Pres P (moveOneBin v).
Proof. unfold moveOneBin. pres. Qed.

Hint Resolve Pres_readRobustDistance4sCm Pres_moveOneBin : pres.

Lemma Pres_moveBins_loop v n : Pres P (moveBins_loop v n).
Proof. induction n; cbn [moveBins_loop]; pres. Qed.

Hint Resolve Pres_moveBins_loop : pres.

Lemma Pres_moveBins v n : Pres P (moveBins v n).
Proof. unfold moveBins. pres. Qed.

Hint Resolve Pres_moveBins : pres.

Lemma Pres_moveToBin v t : Pres P (moveToBin v t).
Proof. unfold moveToBin. pres. Qed.

Lemma Pres_printInventoryLogLine b hi : Pres P (printInventoryLogLine b hi).
Proof. unfold printInventoryLogLine. pres. Qed.

Lemma Pres_report_distance d : Pres P (report_distance d).
Proof. unfold report_distance. pres. Qed.

Hint Resolve Pres_moveToBin Pres_printInventoryLogLine Pres_report_distance
  : pres.

Lemma Pres_runInventorySequence v fuel drain :
  Pres P drain -> Pres P (runInventorySequence v fuel drain).
Proof. intros Hd. unfold runInventorySequence. pres. Qed.

Lemma Pres_tryRunQueuedCommands v fuel : Pres P (tryRunQueuedCommands v fuel).
Proof.
  induction fuel as [|fuel IH]; cbn [tryRunQueuedCommands]; pres.
  apply Pres_runInventorySequence. exact IH.
Qed.

Hint Resolve Pres_tryRunQueuedCommands Pres_runInventorySequence : pres.

Lemma Pres_beam_debounce : Pres P beam_debounce.
Proof. unfold beam_debounce. pres. Qed.

Lemma Pres_gate_rearm : Pres P gate_rearm.
Proof. unfold gate_rearm. pres. Qed.

Hint Resolve Pres_beam_debounce Pres_gate_rearm : pres.

Lemma Pres_updateBeamDebounce v fuel : Pres P (updateBeamDebounce v fuel).
Proof. unfold updateBeamDebounce. pres. Qed.

Lemma Pres_doEstop why : Pres P (doEstop why).
Proof. unfold doEstop. pres. Qed.

Hint Resolve Pres_updateBeamDebounce Pres_doEstop : pres.

Lemma Pres_cmd_inventory v fuel : Pres P (cmd_inventory v fuel).
Proof. unfold cmd_inventory. pres. Qed.

Lemma Pres_cmd_bin v fuel t : Pres P (cmd_bin v fuel t).
Proof. unfold cmd_bin. pres. Qed.

Hint Resolve Pres_cmd_inventory Pres_cmd_bin : pres.

(** Every command but [h]. *)
Lemma Pres_dispatch_but_h v fuel line :
  equalsIgnoreCase line "h" = false -> Pres P (dispatch v fuel line).
Proof.
  intros Hh. unfold dispatch.
  destruct (equalsIgnoreCase line "e"); [pres|]. rewrite Hh. pres.
Qed.

(** *** Homing, for a predicate that clearing the latch preserves too *)
Section Homing.
Hypothesis P_unlatch : forall s, P s -> P (set_estop false s).

Lemma Pres_home_sample n : forall gaps, Pres P (home_sample n gaps).
Proof. induction n; intros; cbn [home_sample]; pres. Qed.

Lemma Pres_home_scan v fuel : Pres P (home_scan v fuel).
Proof. induction fuel; cbn [home_scan]; pres. Qed.

Lemma Pres_home_reset v : Pres P (home_reset v).
Proof.
  unfold home_reset. pres.
  apply Pres_modify. exact P_unlatch.
Qed.

Hint Resolve Pres_home_sample Pres_home_scan Pres_home_reset : pres.

Lemma Pres_homeRoutine v fuel : Pres P (homeRoutine v fuel).
Proof. unfold homeRoutine. pres. Qed.

Hint Resolve Pres_homeRoutine : pres.

Lemma Pres_dispatch v fuel line : Pres P (dispatch v fuel line).
Proof. unfold dispatch. pres. Qed.

Hint Resolve Pres_dispatch : pres.

Lemma Pres_loop v fuel : Pres P (loop v fuel).
Proof. unfold loop. pres. Qed.
End Homing.
End Operations.

(* ================================================================== *)
(** ** The latch stops motion *)

(** The latch is set and [n] step pulses have been issued. *)
Definition Latched (n : Z) (s : State) : Prop :=
  estop s = true /\ step_edges (hw s) = n.

Lemma Latched_soft n : Soft (Latched n).
Proof. split; intros; destruct H; split; auto; destruct p; auto. Qed.

Lemma Latched_pin n p l s :
  p <> PUL_PIN -> Latched n s -> Latched n (upd_hw (hw_write p l) s).
Proof. intros Hp (He & Hn). destruct p; [contradiction|..]; split; auto. Qed.

Lemma stepPulseChecked_latched d s r s' :
  estop s = true ->
  stepPulseChecked d s = Some (r, s') ->
  r = false /\ estop s' = true /\ step_edges (hw s') = step_edges (hw s).
Proof.
  intros He H. unfold stepPulseChecked in H.
  apply bind_inv in H. destruct H as ([] & s1 & Hp & H).
  assert (L : Latched (step_edges (hw s)) s1).
  { assert (R : Pres (Latched (step_edges (hw s))) pollEstop)
      by (apply Pres_pollEstop, Latched_soft).
    apply (R _ _ _ Hp). split; auto. }
  destruct L as (L1 & L2).
  unfold bind, gets in H. rewrite L1 in H. apply ret_inv in H.
  destruct H as (-> & ->). auto.
Qed.

Lemma Latched_pulse n d : Pres (Latched n) (stepPulseChecked d).
Proof.
  intros s r s' H (He & Hn).
  destruct (stepPulseChecked_latched _ _ _ _ He H) as (_ & He' & Hn').
  split; congruence.
Qed.

Ltac latched_side :=
  first [ apply Latched_soft
        | apply Latched_pulse
        | intros; apply Latched_pin; [discriminate | assumption] ].

Lemma Latched_seek n : Pres (Latched n) seekNextPressEventCCW.
Proof. apply Pres_seekNextPressEventCCW; latched_side. Qed.

Lemma Latched_step n k d : Pres (Latched n) (stepCCW k d).
Proof. apply Pres_stepCCW; latched_side. Qed.

Lemma Latched_ping n : Pres (Latched n) pingDistanceCm.
Proof.
  pose proof (Latched_soft n) as HS.
  assert (HT : forall l, Pres (Latched n) (digitalWrite TRIG_PIN l)).
  { intros l. apply Pres_modify. intros.
    apply Latched_pin; [discriminate | assumption]. }
  unfold pingDistanceCm.
  repeat (apply Pres_bind; [solve [apply HT | apply Pres_pulseIn_ECHO; exact HS]
                           | intros ]).
  destruct (_ =? _); apply Pres_ret.
Qed.

Lemma Latched_release n : Pres (Latched n) (enableDriver false).
Proof.
  unfold enableDriver. apply Pres_modify. intros.
  apply Latched_pin; [discriminate | assumption].
Qed.

(** With the latch set a seek fails. *)
Lemma seek_latched s ok g s' :
  estop s = true ->
  seekNextPressEventCCW s = Some ((ok, g), s') -> ok = false.
Proof.
  intros He H. unfold seekNextPressEventCCW in H.
  apply bind_inv in H. destruct H as ([] & s1 & H1 & H).
  apply bind_inv in H. destruct H as ([] & s2 & H2 & H).
  apply bind_inv in H. destruct H as ([ok1 sm] & s3 & H3 & H).
  destruct ok1; cbn [negb] in H;
    [|apply ret_inv in H; destruct H as (H & _); congruence].
  assert (L : Latched (step_edges (hw s)) s3).
  { assert (R : Pres (Latched (step_edges (hw s)))
                   (seek_until_released seek_fuel SEEK_DELAY_US 0 0))
      by (apply Pres_seek_until_released; latched_side).
    apply (R _ _ _ H3).
    apply modify_inv in H1, H2. subst. split; [exact He | reflexivity]. }
  rewrite seek_fuel_eq in H. cbn [seek_until_pressed] in H.
  apply bind_inv in H. destruct H as (p & s4 & H4 & H).
  apply bind_inv in H. destruct H as (okp & s5 & H5 & H).
  assert (L4 : Latched (step_edges (hw s)) s4).
  { assert (R : Pres (Latched (step_edges (hw s))) indexPressedRaw)
      by (apply Pres_indexPressedRaw; latched_side).
    apply (R _ _ _ H4 L). }
  destruct (stepPulseChecked_latched _ _ _ _ (proj1 L4) H5) as (-> & _).
  cbn [negb] in H. apply bind_inv in H. destruct H as ([] & s6 & _ & H).
  apply ret_inv in H. destruct H as (H & _). congruence.
Qed.

Lemma moveOneBin_latched v s r s' :
  estop s = true -> moveOneBin v s = Some (r, s') -> r = false.
Proof.
  intros He H. unfold moveOneBin in H. minv; try reflexivity.
  all: exfalso;
    match goal with
    | Hs : seekNextPressEventCCW ?u = Some ((true, _), _) |- _ =>
        assert (Hu : estop u = true) by exact He;
        pose proof (seek_latched _ _ _ _ Hu Hs); discriminate
    end.
Qed.

Lemma moveBins_loop_latched v n s r s' :
  estop s = true -> moveBins_loop v (S n) s = Some (r, s') -> r = false.
Proof.
  intros He H. cbn [moveBins_loop] in H.
  apply bind_inv in H. destruct H as (ok & s1 & H1 & H).
  rewrite (moveOneBin_latched _ _ _ _ He H1) in H. cbn [negb] in H.
  apply ret_inv in H. apply H.
Qed.

Lemma moveToBin_latched v t s s' :
  estop s = true -> 0 <= currentBin (nav s) <= 3 ->
  moveToBin v t s = Some (true, s') ->
  s' = emit [Txt "Already at BIN"; Num t; NL] s.
Proof.
  intros He Hc H. unfold moveToBin in H. minv; try discriminate.
  - reflexivity.
  - exfalso. unfold moveBins in *.
    match goal with
    | Hb : _ || _ = false |- _ =>
        apply orb_false_iff in Hb; rewrite !Z.ltb_ge in Hb
    end.
    match goal with
    | Hk : (_ =? 0) = false |- _ =>
        rewrite moveToBin_steps in Hk by lia; apply Z.eqb_neq in Hk
    end.
    match goal with
    | Hm : moveBins_loop _ (Z.to_nat _) _ = Some (true, _) |- _ =>
        rewrite moveToBin_steps in Hm by lia
    end.
    match goal with
    | Hm : moveBins_loop _ (Z.to_nat _) ?u = Some (true, _) |- _ =>
        assert (Hu : estop u = true) by exact He;
        destruct (Z.to_nat (ccw_steps (currentBin (nav s)) t)) eqn:En;
        [ | pose proof (moveBins_loop_latched _ _ _ _ _ Hu Hm); discriminate ]
    end.
    unfold ccw_steps in *.
    pose proof (Z.mod_pos_bound (t - currentBin (nav s) + 4) 4). lia.
Qed.

Lemma readRobustDistance4sCm_latched fuel s d s' :
  estop s = true ->
  readRobustDistance4sCm fuel s = Some (d, s') -> d = F32.NAN.
Proof.
  intros He H. unfold readRobustDistance4sCm in H.
  apply bind_inv in H. destruct H as (t0 & s1 & H1 & H).
  apply bind_inv in H. destruct H as ([fin meds] & s2 & H2 & H).
  destruct fuel as [|fuel]; [discriminate H2|].
  cbn [robust_collect] in H2.
  apply bind_inv in H2. destruct H2 as (now & s3 & H3 & H2).
  destruct (u32 (now - t0) <? US_WINDOW_MS).
  - apply bind_inv in H2. destruct H2 as ([] & s4 & H4 & H2).
    assert (L : Latched (step_edges (hw s)) s4).
    { assert (R : Pres (Latched (step_edges (hw s)))
                    (millis ;; millis ;; pollEstop)).
      { pose proof (Latched_soft (step_edges (hw s))) as HS.
        apply Pres_bind; [apply Pres_millis; exact HS | intros].
        apply Pres_bind; [apply Pres_millis; exact HS | intros].
        apply Pres_pollEstop; exact HS. }
      apply (R s tt s4); [|split; auto].
      unfold bind at 1. rewrite H1. unfold bind at 1. rewrite H3. cbv beta iota.
      unfold bind. rewrite H4. reflexivity. }
    unfold bind, gets in H2. rewrite (proj1 L) in H2.
    apply ret_inv in H2. destruct H2 as (E & ->). injection E as -> ->.
    cbn [negb] in H. apply ret_inv in H. apply H.
  - apply ret_inv in H2. destruct H2 as (E & ->). injection E as -> ->.
    cbn [negb] in H. apply ret_inv in H. destruct H as (-> & _).
    reflexivity.
Qed.

(** X9.  With the latch set, the operations that move the carousel issue
    no step pulse and leave the latch set: [moveToBin] succeeds only when
    the carousel is already at the target, [runInventorySequence] fails,
    and [readRobustDistance4sCm] returns NAN. *)
Theorem latched_motion_fails (v : Sketch) (fuel : nat) (s : State) :
  estop s = true ->
  0 <= currentBin (nav s) <= 3 ->
  (forall t r s',
     moveToBin v t s = Some (r, s') ->
     estop s' = true /\ step_edges (hw s') = step_edges (hw s) /\
     (r = true -> s' = emit [Txt "Already at BIN"; Num t; NL] s)) /\
  (forall drain r s',
     runInventorySequence v fuel drain s = Some (r, s') ->
     r = false /\ estop s' = true /\
     step_edges (hw s') = step_edges (hw s)) /\
  (forall d s',
     readRobustDistance4sCm fuel s = Some (d, s') ->
     d = F32.NAN /\ estop s' = true).
Proof.
  intros He Hc.
  pose proof (Latched_soft (step_edges (hw s))) as HS.
  assert (L : Latched (step_edges (hw s)) s) by (split; auto).
  split; [|split].
  - intros t r s' H.
    destruct (Pres_moveToBin _ HS (Latched_seek _)
                (fun n d => Latched_step _ n d) v t _ _ _ H L) as (E1 & E2).
    split; [exact E1|]. split; [exact E2|].
    intros ->. apply (moveToBin_latched _ _ _ _ He Hc H).
  - intros drain r s' H. destruct r.
    + exfalso. apply runInventorySequence_succeeded in H.
      destruct H as (_ & sa & d & sc & Hm & _).
      unfold moveBins in Hm. change (Z.to_nat 2) with 2%nat in Hm.
      assert (Hu : estop (emit inventory_banner s) = true)
        by (rewrite emit_estop; exact He).
      pose proof (moveBins_loop_latched _ _ _ _ _ Hu Hm). discriminate.
    + split; [reflexivity|].
      pose proof H as H'. apply runInventorySequence_failed in H'.
      destruct H' as (_ & [(_ & ->)|[(_ & Hm)|(_ & E & sa & d & Hm & Hd)]]).
      * rewrite emit_estop, emit_step_edges. auto.
      * apply (Pres_moveBins _ HS (Latched_seek _)
                 (fun n d => Latched_step _ n d) v 2 _ _ _ Hm).
        split; [rewrite emit_estop | rewrite emit_step_edges]; auto.
      * split; [exact E|].
        assert (La : Latched (step_edges (hw s)) sa).
        { apply (Pres_moveBins _ HS (Latched_seek _)
                   (fun n d => Latched_step _ n d) v 2 _ _ _ Hm).
          split; [rewrite emit_estop | rewrite emit_step_edges]; auto. }
        refine (proj2 (Pres_readRobustDistance4sCm _ HS (Latched_ping _)
                         fuel _ _ _ Hd _)).
        split; [rewrite emit_estop | rewrite emit_step_edges]; apply La.
  - intros d s' H. split.
    + apply (readRobustDistance4sCm_latched _ _ _ _ He H).
    + apply (Pres_readRobustDistance4sCm _ HS (Latched_ping _)
               fuel _ _ _ H L).
Qed.

Lemma set_estop_same s : estop s = true -> set_estop true s = s.
Proof. destruct s. cbn. intros ->. reflexivity. Qed.

Lemma pollEstop_latched s :
  estop s = true ->
  pollEstop s = Some (tt, upd_hw (hw_next SerialPort) s).
Proof.
  intros He. unfold pollEstop, bind, Serial_drain.
  destruct (existsb _ _); [|reflexivity].
  unfold modify. rewrite set_estop_same by exact He. reflexivity.
Qed.

(** The state after a pass of [loop] that found the latch set: in the
    command-queue sketch the pass has emptied the receive buffer. *)
Definition idle_pass (v : Sketch) (s : State) : State :=
  match v with
  | CommandQueue => upd_hw (hw_next SerialPort) s
  | InventoryOutputs => s
  end.

Lemma loop_latched v fuel s :
  estop s = true -> loop v fuel s = Some (tt, idle_pass v s).
Proof.
  intros He. unfold loop. destruct v.
  - unfold bind at 1. rewrite (pollEstop_latched _ He).
    unfold bind, gets. cbn [estop upd_hw]. rewrite He. reflexivity.
  - unfold bind, ret, gets. rewrite He. reflexivity.
Qed.

Lemma idle_pass_estop v s : estop (idle_pass v s) = estop s.
Proof. destruct v; reflexivity. Qed.

Lemma loops_latched v fuel n : forall s,
  estop s = true ->
  Bench.loops v fuel n s = Some (tt, Nat.iter n (idle_pass v) s).
Proof.
  induction n as [|n IH]; intros s He; [reflexivity|].
  cbn [Bench.loops]. rewrite Nat.iter_succ. unfold bind. rewrite (IH s He).
  apply loop_latched.
  clear IH. induction n as [|n IHn]; [exact He|].
  rewrite Nat.iter_succ, idle_pass_estop. exact IHn.
Qed.

(** X10.  The command [e], in any case: the latch is set, the driver
    disabled, no step pulse issued; every later pass of [loop] reads no
    command, prints nothing and writes no pin. *)
Theorem estop_command_halts
    (v : Sketch) (fuel : nat) (line : string) (s : State) :
  equalsIgnoreCase line "e" = true ->
  exists s1,
    dispatch v fuel line s = Some (tt, s1) /\
    estop s1 = true /\
    en_level (hw s1) = HIGH /\
    step_edges (hw s1) = step_edges (hw s) /\
    nav s1 = nav s /\
    forall n,
      Bench.loops v fuel n s1 = Some (tt, Nat.iter n (idle_pass v) s1).
Proof.
  intros He. unfold dispatch. rewrite He.
  eexists. split; [reflexivity|].
  split; [reflexivity|]. split; [reflexivity|]. split; [reflexivity|].
  split; [reflexivity|].
  intros n. apply loops_latched. reflexivity.
Qed.

(** X11.  Apart from [h], whatever runs with the latch set leaves it set
    and issues no step pulse. *)
Theorem latch_kept_but_by_homing
    (v : Sketch) (fuel : nat) (s : State) :
  estop s = true ->
  (forall s', updateBeamDebounce v fuel s = Some (tt, s') ->
     estop s' = true /\ step_edges (hw s') = step_edges (hw s)) /\
  (forall n, tryRunQueuedCommands v (S n) s = Some (tt, s)) /\
  (forall line s',
     equalsIgnoreCase line "h" = false ->
     dispatch v fuel line s = Some (tt, s') ->
     estop s' = true /\ step_edges (hw s') = step_edges (hw s)) /\
  loop v fuel s = Some (tt, idle_pass v s).
Proof.
  intros He.
  pose proof (Latched_soft (step_edges (hw s))) as HS.
  assert (L : Latched (step_edges (hw s)) s) by (split; auto).
  split; [|split; [|split]].
  - intros s' H.
    apply (Pres_updateBeamDebounce _ HS (Latched_seek _)
             (fun n d => Latched_step _ n d) (Latched_ping _)
             v fuel _ _ _ H L).
  - intros n. rewrite tryRunQueuedCommands_unfold, He. reflexivity.
  - intros line s' Hh H.
    apply (Pres_dispatch_but_h _ HS (Latched_seek _)
             (fun n d => Latched_step _ n d) (Latched_ping _)
             (Latched_release _) v fuel line Hh _ _ _ H L).
  - apply loop_latched. exact He.
Qed.

(* ================================================================== *)
(** ** The pins between operations *)

(** PUL low, DIR at the counter-clockwise level, TRIG low. *)
Definition pins_quiet (s : State) : Prop :=
  pul_level (hw s) = LOW /\ dir_level (hw s) = CCW_DIR_LEVEL /\
  trig_level (hw s) = LOW.

(** The driver is disabled: EN is active low. *)
Definition driver_off (s : State) : Prop := en_level (hw s) = HIGH.

Definition idle_pins (s : State) : Prop := pins_quiet s /\ driver_off s.

Lemma pins_quiet_soft : Soft pins_quiet.
Proof. split; intros; try destruct p; assumption. Qed.

Lemma driver_off_soft : Soft driver_off.
Proof. split; intros; try destruct p; assumption. Qed.

Lemma pins_quiet_pulse d : Pres pins_quiet (stepPulseChecked d).
Proof.
  assert (R : Pres pins_quiet pollEstop)
    by apply (Pres_pollEstop _ pins_quiet_soft).
  intros s r s' H Hs. unfold stepPulseChecked in H.
  apply bind_inv in H. destruct H as ([] & s1 & H1 & H).
  pose proof (R _ _ _ H1 Hs) as Q1.
  apply bind_inv in H. destruct H as (e & s2 & H2 & H).
  apply gets_inv in H2. destruct H2 as (-> & ->).
  destruct (estop s1).
  - apply ret_inv in H. destruct H as (_ & ->). exact Q1.
  - apply bind_inv in H. destruct H as ([] & s3 & H3 & H).
    apply bind_inv in H. destruct H as ([] & s4 & H4 & H).
    apply bind_inv in H. destruct H as ([] & s5 & H5 & H).
    apply modify_inv in H3, H4. subst s3 s4.
    apply bind_inv in H. destruct H as (e & s6 & H6 & H).
    apply gets_inv in H6. destruct H6 as (-> & ->).
    apply ret_inv in H. destruct H as (_ & ->).
    apply (R _ _ _ H5).
    destruct Q1 as (A & B & C). repeat split; assumption.
Qed.

Ltac quiet_side :=
  first [ apply pins_quiet_soft
        | apply pins_quiet_pulse
        | intros ? ? (? & ? & ?); repeat split; assumption
        | intros ? (? & ? & ?); repeat split; assumption ].

Lemma pins_quiet_seek : Pres pins_quiet seekNextPressEventCCW.
Proof. apply Pres_seekNextPressEventCCW; quiet_side. Qed.

Lemma pins_quiet_step n d : Pres pins_quiet (stepCCW n d).
Proof. apply Pres_stepCCW; quiet_side. Qed.

Lemma enableDriver_inv on s a s' :
  enableDriver on s = Some (a, s') ->
  s' = upd_hw (hw_write EN_PIN (negb on)) s.
Proof.
  intros H. unfold enableDriver, digitalWrite, modify in H.
  destruct on; inversion H; reflexivity.
Qed.

(** Every exit of a step burst and of a seek disables the driver. *)
Lemma stepCCW_pulses_releases n d : forall s r s',
  stepCCW_pulses n d s = Some (r, s') -> driver_off s'.
Proof.
  induction n as [|n IH]; intros s r s' H; cbn [stepCCW_pulses] in H.
  - apply bind_inv in H. destruct H as ([] & s1 & H1 & H).
    apply enableDriver_inv in H1. apply ret_inv in H.
    destruct H as (_ & ->). subst. reflexivity.
  - apply bind_inv in H. destruct H as (ok & s1 & _ & H). destruct ok.
    + apply (IH _ _ _ H).
    + apply bind_inv in H. destruct H as ([] & s2 & H2 & H).
      apply enableDriver_inv in H2. apply ret_inv in H.
      destruct H as (_ & ->). subst. reflexivity.
Qed.

Lemma stepCCW_releases n d s r s' :
  stepCCW n d s = Some (r, s') -> driver_off s'.
Proof.
  unfold stepCCW. intros H.
  apply bind_inv in H. destruct H as ([] & s1 & _ & H).
  apply bind_inv in H. destruct H as ([] & s2 & _ & H).
  apply (stepCCW_pulses_releases _ _ _ _ _ H).
Qed.

Ltac released :=
  match goal with
  | H1 : enableDriver false _ = Some (_, ?u) |- driver_off ?u =>
      apply enableDriver_inv in H1; subst; reflexivity
  end.

Lemma seek_until_released_releases fuel d : forall sm g s sm' s',
  seek_until_released fuel d sm g s = Some ((false, sm'), s') ->
  driver_off s'.
Proof.
  induction fuel as [|fuel IH]; intros sm g s sm' s' H;
    cbn [seek_until_released] in H; [discriminate|].
  minv; try discriminate; try released.
  eapply IH; eassumption.
Qed.

Lemma seek_escape_releases n : forall sm s sm' s',
  seek_escape n sm s = Some ((false, sm'), s') -> driver_off s'.
Proof.
  induction n as [|n IH]; intros sm s sm' s' H; cbn [seek_escape] in H.
  - minv. discriminate.
  - minv; try released. eapply IH; eassumption.
Qed.

Lemma seek_until_pressed_releases fuel : forall sm g ac s r s',
  seek_until_pressed fuel sm g ac s = Some (r, s') -> driver_off s'.
Proof.
  induction fuel as [|fuel IH]; intros sm g ac s r s' H;
    cbn [seek_until_pressed] in H; [discriminate|].
  minv; try released.
  - eapply seek_until_released_releases; eassumption.
  - eapply seek_escape_releases; eassumption.
  - eapply IH; eassumption.
Qed.

Lemma seek_releases s r s' :
  seekNextPressEventCCW s = Some (r, s') -> driver_off s'.
Proof.
  unfold seekNextPressEventCCW. intros H. minv.
  - eapply seek_until_pressed_releases; eassumption.
  - eapply seek_until_released_releases; eassumption.
Qed.

Lemma idle_pins_soft : Soft idle_pins.
Proof.
  split; intros; destruct H as (Hq & Hd); split;
    first [ eapply soft_emit | eapply soft_next | eapply soft_nav
          | eapply soft_gate | eapply soft_queue | eapply soft_latch ];
    eauto using pins_quiet_soft, driver_off_soft.
Qed.

Lemma idle_pins_seek : Pres idle_pins seekNextPressEventCCW.
Proof.
  intros s r s' H (Hq & _). split.
  - apply (pins_quiet_seek _ _ _ H Hq).
  - apply (seek_releases _ _ _ H).
Qed.

Lemma idle_pins_step n d : Pres idle_pins (stepCCW n d).
Proof.
  intros s r s' H (Hq & _). split.
  - apply (pins_quiet_step _ _ _ _ _ H Hq).
  - apply (stepCCW_releases _ _ _ _ _ H).
Qed.

Lemma idle_pins_ping : Pres idle_pins pingDistanceCm.
Proof.
  intros s r s' H ((A & B & C) & D). unfold pingDistanceCm in H.
  apply bind_inv in H. destruct H as ([] & s1 & H1 & H).
  apply bind_inv in H. destruct H as ([] & s2 & H2 & H).
  apply bind_inv in H. destruct H as ([] & s3 & H3 & H).
  apply bind_inv in H. destruct H as (w & s4 & H4 & H).
  apply modify_inv in H1, H2, H3. subst s1 s2 s3.
  inversion H4; subst s4.
  assert (E : s' = upd_hw (hw_next EchoPort)
                     (upd_hw (hw_write TRIG_PIN LOW)
                        (upd_hw (hw_write TRIG_PIN HIGH)
                           (upd_hw (hw_write TRIG_PIN LOW) s)))).
  { destruct (w =? 0); apply ret_inv in H; apply H. }
  rewrite E. repeat split; assumption.
Qed.

Lemma idle_pins_release : Pres idle_pins (enableDriver false).
Proof.
  intros s r s' H ((A & B & C) & D). apply enableDriver_inv in H. subst.
  repeat split; assumption.
Qed.

Lemma idle_pins_unlatch s : idle_pins s -> idle_pins (set_estop false s).
Proof. intros H. exact H. Qed.

(** X14.  The pins as [setup] leaves them are the pins after every pass of
    [loop], whatever the pass did: PUL low, DIR at the counter-clockwise
    level, TRIG low, and the driver disabled. *)
Theorem loop_leaves_pins_idle
    (v : Sketch) (fuel n : nat) (s s' : State) :
  idle_pins s ->
  Bench.loops v fuel n s = Some (tt, s') ->
  idle_pins s'.
Proof.
  revert s'. induction n as [|n IH]; intros s' Hs H; cbn [Bench.loops] in H.
  - apply ret_inv in H. destruct H as (_ & ->). exact Hs.
  - apply bind_inv in H. destruct H as ([] & s1 & H1 & H).
    apply (Pres_loop _ idle_pins_soft idle_pins_seek idle_pins_step
             idle_pins_ping idle_pins_release idle_pins_unlatch
             v fuel _ _ _ H).
    apply IH; assumption.
Qed.

(* ================================================================== *)
(** ** Step pulses of a burst and of a seek *)

(** The latch, the level of PUL and the count of its rising edges. *)
Definition pulse_view (s : State) :=
  (estop s, pul_level (hw s), step_edges (hw s)).

Lemma Keeps_pulse_indexPressedRaw : Keeps pulse_view indexPressedRaw.
Proof. intros s a s' H. inversion H. reflexivity. Qed.

Lemma Keeps_pulse_confirm_polls want n : forall ok,
  Keeps pulse_view (confirm_polls want n ok).
Proof.
  induction n; intros; cbn [confirm_polls]; [apply Keeps_ret|].
  apply Keeps_bind; [apply Keeps_pulse_indexPressedRaw | intros; apply IHn].
Qed.

Lemma Keeps_pulse_confirmPressed : Keeps pulse_view confirmPressed.
Proof.
  unfold confirmPressed.
  apply Keeps_bind; [apply Keeps_pulse_confirm_polls | intros; apply Keeps_ret].
Qed.

Lemma Keeps_pulse_confirmReleased : Keeps pulse_view confirmReleased.
Proof.
  unfold confirmReleased.
  apply Keeps_bind; [apply Keeps_pulse_confirm_polls | intros; apply Keeps_ret].
Qed.

Lemma Keeps_pulse_enableDriver on : Keeps pulse_view (enableDriver on).
Proof. intros s a s' H. apply enableDriver_inv in H. subst. reflexivity. Qed.

Lemma Keeps_pulse_write_DIR l : Keeps pulse_view (digitalWrite DIR_PIN l).
Proof. intros s a s' H. apply modify_inv in H. subst. reflexivity. Qed.

Lemma pulse_view_fields s s' :
  pulse_view s' = pulse_view s ->
  estop s' = estop s /\ pul_level (hw s') = pul_level (hw s) /\
  step_edges (hw s') = step_edges (hw s).
Proof. unfold pulse_view. intros H. injection H as -> -> ->. auto. Qed.

Lemma pollEstop_pulse s s' :
  pollEstop s = Some (tt, s') ->
  pul_level (hw s') = pul_level (hw s) /\
  step_edges (hw s') = step_edges (hw s) /\
  (estop s = true -> estop s' = true).
Proof.
  unfold pollEstop, bind, Serial_drain. destruct (existsb _ _); intros H.
  - apply modify_inv in H. subst. auto.
  - apply ret_inv in H. destruct H as (_ & ->). auto.
Qed.

(** One checked pulse, PUL being low before: on success one rising edge
    and the latch is clear; on failure the latch is set, and the pulse may
    have been issued. *)
Lemma stepPulseChecked_spec d s ok s' :
  stepPulseChecked d s = Some (ok, s') ->
  pul_level (hw s) = LOW ->
  pul_level (hw s') = LOW /\
  (ok = true ->
   step_edges (hw s') = step_edges (hw s) + 1 /\ estop s' = false) /\
  (ok = false ->
   estop s' = true /\
   step_edges (hw s) <= step_edges (hw s') <= step_edges (hw s) + 1).
Proof.
  intros H Hl. unfold stepPulseChecked in H.
  apply bind_inv in H. destruct H as ([] & s1 & H1 & H).
  apply pollEstop_pulse in H1. destruct H1 as (P1 & P2 & _).
  apply bind_inv in H. destruct H as (e & s2 & H2 & H).
  apply gets_inv in H2. destruct H2 as (-> & ->).
  destruct (estop s1) eqn:E1.
  - apply ret_inv in H. destruct H as (-> & ->).
    split; [congruence|]. split; [discriminate|]. intros _.
    split; [exact E1 | lia].
  - apply bind_inv in H. destruct H as ([] & s3 & H3 & H).
    apply bind_inv in H. destruct H as ([] & s4 & H4 & H).
    apply bind_inv in H. destruct H as ([] & s5 & H5 & H).
    apply modify_inv in H3, H4. subst s3 s4.
    apply pollEstop_pulse in H5. destruct H5 as (Q1 & Q2 & _).
    apply bind_inv in H. destruct H as (e & s6 & H6 & H).
    apply gets_inv in H6. destruct H6 as (-> & ->).
    apply ret_inv in H. destruct H as (Hok & Hs'). subst ok s'.
    cbn in Q1, Q2. rewrite P1, Hl in Q2. cbn in Q2. rewrite P2 in Q2.
    split; [exact Q1|].
    destruct (estop s5) eqn:E; cbn [negb].
    + split; [discriminate|]. intros _. split; [reflexivity | lia].
    + split; [|discriminate]. intros _. split; [exact Q2 | reflexivity].
Qed.

Lemma stepCCW_pulses_spec n d : forall s ok s',
  stepCCW_pulses n d s = Some (ok, s') ->
  pul_level (hw s) = LOW ->
  pul_level (hw s') = LOW /\
  (ok = true -> step_edges (hw s') = step_edges (hw s) + Z.of_nat n) /\
  (ok = false ->
   estop s' = true /\
   step_edges (hw s) <= step_edges (hw s')
     <= step_edges (hw s) + Z.of_nat n).
Proof.
  induction n as [|n IH]; intros s ok s' H Hl; cbn [stepCCW_pulses] in H.
  - apply bind_inv in H. destruct H as ([] & s1 & H1 & H).
    apply ret_inv in H. destruct H as (-> & ->).
    apply Keeps_pulse_enableDriver, pulse_view_fields in H1.
    destruct H1 as (_ & E2 & E3). rewrite E2, E3.
    split; [exact Hl|]. split; [intros _; cbn; lia | discriminate].
  - apply bind_inv in H. destruct H as (ok1 & s1 & H1 & H).
    destruct (stepPulseChecked_spec _ _ _ _ H1 Hl) as (L1 & T & F).
    destruct ok1.
    + destruct (T eq_refl) as (T1 & _).
      destruct (IH _ _ _ H L1) as (L2 & T2 & F2).
      split; [exact L2|]. split.
      * intros Hok. rewrite (T2 Hok), T1. lia.
      * intros Hok. destruct (F2 Hok) as (Fe & Fs). split; [exact Fe | lia].
    + destruct (F eq_refl) as (Fe & Fs).
      apply bind_inv in H. destruct H as ([] & s2 & H2 & H).
      apply ret_inv in H. destruct H as (-> & ->).
      apply Keeps_pulse_enableDriver, pulse_view_fields in H2.
      destruct H2 as (E1 & E2 & E3). rewrite E1, E2, E3.
      split; [exact L1|]. split; [discriminate|]. intros _.
      split; [exact Fe | lia].
Qed.


Lemma stepCCW_pulse_count (n d : Z) (s : State) (ok : bool) (s' : State) :
  pul_level (hw s) = LOW ->
  stepCCW n d s = Some (ok, s') ->
  (ok = true -> step_edges (hw s') = step_edges (hw s) + Z.max 0 n) /\
  (ok = false ->
   estop s' = true /\
   step_edges (hw s) <= step_edges (hw s')
     <= step_edges (hw s) + Z.max 0 n) /\
  en_level (hw s') = HIGH /\
  dir_level (hw s') = CCW_DIR_LEVEL /\
  pul_level (hw s') = LOW.
Proof.
  intros Hl H.
  pose proof (stepCCW_releases _ _ _ _ _ H) as Hen.
  assert (Hd : dir_level (hw s') = CCW_DIR_LEVEL).
  { unfold stepCCW in H.
    apply bind_inv in H. destruct H as ([] & s1 & H1 & H).
    apply modify_inv in H1. subst s1.
    apply bind_inv in H. destruct H as ([] & s2 & H2 & H).
    apply enableDriver_inv in H2. subst s2.
    refine (Pres_stepCCW_pulses (fun u => dir_level (hw u) = CCW_DIR_LEVEL)
              _ _ _ _ _ _ _ H _); [| | reflexivity].
    - intros l u Hu. exact Hu.
    - intros d0. apply Pres_stepPulseChecked.
      + split; intros; try destruct p; assumption.
      + intros l u Hu. exact Hu. }
  unfold stepCCW in H.
  apply bind_inv in H. destruct H as ([] & s1 & H1 & H).
  apply bind_inv in H. destruct H as ([] & s2 & H2 & H).
  apply Keeps_pulse_write_DIR, pulse_view_fields in H1.
  apply Keeps_pulse_enableDriver, pulse_view_fields in H2.
  destruct H1 as (_ & A2 & A3). destruct H2 as (_ & B2 & B3).
  assert (Hl2 : pul_level (hw s2) = LOW) by congruence.
  destruct (stepCCW_pulses_spec _ _ _ _ _ H Hl2) as (L & T & F).
  rewrite B3, A3 in T, F.
  replace (Z.of_nat (Z.to_nat n)) with (Z.max 0 n) in T, F by lia.
  auto.
Qed.

(** X12.  [stepCCW(n, delayUs)], PUL being low before: on success exactly
    [n] step pulses ([0] when [n] is negative); it fails only with the
    latch set, having issued at most [n]; either way the driver is
    disabled at the end, DIR is at the counter-clockwise level and PUL is
    low. *)
Theorem stepCCW_counts (n d : Z) (s : State) (ok : bool) (s' : State) :
  pul_level (hw s) = LOW ->
  stepCCW n d s = Some (ok, s') ->
  (ok = true -> step_edges (hw s') = step_edges (hw s) + Z.max 0 n) /\
  (ok = false ->
   estop s' = true /\
   step_edges (hw s) <= step_edges (hw s')
     <= step_edges (hw s) + Z.max 0 n) /\
  en_level (hw s') = HIGH /\
  dir_level (hw s') = CCW_DIR_LEVEL /\
  pul_level (hw s') = LOW.
Proof. exact (stepCCW_pulse_count n d s ok s'). Qed.

Ltac pulse_kept H :=
  lazymatch type of H with
  | confirmReleased _ = _ => apply Keeps_pulse_confirmReleased in H
  | confirmPressed _ = _ => apply Keeps_pulse_confirmPressed in H
  | indexPressedRaw _ = _ => apply Keeps_pulse_indexPressedRaw in H
  | enableDriver _ _ = _ => apply Keeps_pulse_enableDriver in H
  | digitalWrite DIR_PIN _ _ = _ => apply Keeps_pulse_write_DIR in H
  end;
  apply pulse_view_fields in H;
  let E1 := fresh "Ke" in
  let E2 := fresh "Kp" in
  let E3 := fresh "Ks" in
  destruct H as (E1 & E2 & E3).

Lemma seek_until_released_pulses fuel d : forall sm g s ok sm' s',
  seek_until_released fuel d sm g s = Some ((ok, sm'), s') ->
  pul_level (hw s) = LOW ->
  g <= sm ->
  pul_level (hw s') = LOW /\
  sm <= sm' /\
  (ok = true ->
   step_edges (hw s') - step_edges (hw s) = sm' - sm /\
   (estop s = false -> estop s' = false)) /\
  (ok = false -> estop s' = true \/ MAX_STEPS_TO_FIND_INDEX < sm').
Proof.
  induction fuel as [|fuel IH]; intros sm g s ok sm' s' H Hl Hg;
    cbn [seek_until_released] in H; [discriminate|].
  apply bind_inv in H. destruct H as (rel & s1 & H1 & H).
  pulse_kept H1.
  destruct rel.
  - apply ret_inv in H. destruct H as (E & ->). injection E as -> ->.
    split; [congruence|]. split; [lia|]. split; [|discriminate].
    intros _. split; [lia | congruence].
  - apply bind_inv in H. destruct H as (ok1 & s2 & H2 & H).
    assert (Hl1 : pul_level (hw s1) = LOW) by congruence.
    destruct (stepPulseChecked_spec _ _ _ _ H2 Hl1) as (L2 & T & F).
    destruct ok1; cbn [negb] in H.
    + destruct (T eq_refl) as (T1 & T2). cbv zeta in H.
      destruct (MAX_STEPS_TO_FIND_INDEX <? g + 1) eqn:Eg.
      * apply Z.ltb_lt in Eg.
        apply bind_inv in H. destruct H as ([] & s3 & H3 & H).
        pulse_kept H3.
        apply ret_inv in H. destruct H as (E & ->). injection E as -> ->.
        split; [congruence|]. split; [lia|]. split; [discriminate|].
        intros _. right. lia.
      * destruct (IH _ _ _ _ _ _ H L2 ltac:(lia)) as (L3 & Hm & T3 & F3).
        split; [exact L3|]. split; [lia|]. split.
        -- intros Hok. destruct (T3 Hok) as (D & E).
           split; [lia | intros _; exact (E T2)].
        -- exact F3.
    + destruct (F eq_refl) as (F1 & _).
      apply bind_inv in H. destruct H as ([] & s3 & H3 & H).
      pulse_kept H3.
      apply ret_inv in H. destruct H as (E & ->). injection E as -> ->.
      split; [congruence|]. split; [lia|]. split; [discriminate|].
      intros _. left. congruence.
Qed.

Lemma seek_escape_pulses n : forall sm s ok sm' s',
  seek_escape n sm s = Some ((ok, sm'), s') ->
  pul_level (hw s) = LOW ->
  pul_level (hw s') = LOW /\
  (ok = true ->
   sm' = sm + Z.of_nat n /\
   step_edges (hw s') = step_edges (hw s) + Z.of_nat n /\
   (estop s = false -> estop s' = false)) /\
  (ok = false -> estop s' = true).
Proof.
  induction n as [|n IH]; intros sm s ok sm' s' H Hl; cbn [seek_escape] in H.
  - apply ret_inv in H. destruct H as (E & ->). injection E as -> ->.
    split; [exact Hl|]. split; [|discriminate].
    intros _. split; [cbn; lia|]. split; [cbn; lia | auto].
  - apply bind_inv in H. destruct H as (ok1 & s1 & H1 & H).
    destruct (stepPulseChecked_spec _ _ _ _ H1 Hl) as (L1 & T & F).
    destruct ok1; cbn [negb] in H.
    + destruct (T eq_refl) as (T1 & T2).
      destruct (IH _ _ _ _ _ H L1) as (L2 & T3 & F3).
      split; [exact L2|]. split; [|exact F3].
      intros Hok. destruct (T3 Hok) as (A & B & C).
      split; [lia|]. split; [lia | intros _; exact (C T2)].
    + destruct (F eq_refl) as (F1 & _).
      apply bind_inv in H. destruct H as ([] & s2 & H2 & H).
      pulse_kept H2.
      apply ret_inv in H. destruct H as (E & ->). injection E as -> ->.
      split; [congruence|]. split; [discriminate|]. intros _. congruence.
Qed.

Lemma seek_until_pressed_pulses fuel : forall sm g ac s ok sm' s',
  seek_until_pressed fuel sm g ac s = Some ((ok, sm'), s') ->
  pul_level (hw s) = LOW ->
  0 <= g <= sm ->
  pul_level (hw s') = LOW /\
  (ok = true ->
   step_edges (hw s') - step_edges (hw s) = sm' - sm /\
   sm + POST_HIT_ESCAPE_STEPS < sm' /\
   estop s' = false) /\
  (ok = false -> estop s' = true \/ MAX_STEPS_TO_FIND_INDEX < sm').
Proof.
  induction fuel as [|fuel IH]; intros sm g ac s ok sm' s' H Hl Hg;
    cbn [seek_until_pressed] in H; [discriminate|].
  apply bind_inv in H. destruct H as (p & s1 & H1 & H).
  pulse_kept H1. cbv zeta in H.
  apply bind_inv in H. destruct H as (ok1 & s2 & H2 & H).
  assert (Hl1 : pul_level (hw s1) = LOW) by congruence.
  destruct (stepPulseChecked_spec _ _ _ _ H2 Hl1) as (L2 & T & F).
  destruct ok1; cbn [negb] in H.
  - destruct (T eq_refl) as (T1 & T2).
    destruct (MAX_STEPS_TO_FIND_INDEX <? g + 1) eqn:Eg.
    + apply Z.ltb_lt in Eg.
      apply bind_inv in H. destruct H as ([] & s3 & H3 & H).
      pulse_kept H3.
      apply ret_inv in H. destruct H as (E & ->). injection E as -> ->.
      split; [congruence|]. split; [discriminate|]. intros _. right. lia.
    + apply bind_inv in H. destruct H as (hit & s3 & H3 & H).
      pulse_kept H3.
      assert (Hl3 : pul_level (hw s3) = LOW) by congruence.
      destruct hit.
      * apply bind_inv in H. destruct H as ([ok2 sm2] & s4 & H4 & H).
        destruct (seek_escape_pulses _ _ _ _ _ _ H4 Hl3) as (L4 & T4 & F4).
        destruct ok2; cbn [negb] in H.
        -- destruct (T4 eq_refl) as (A4 & B4 & C4).
           apply bind_inv in H. destruct H as ([ok3 sm3] & s5 & H5 & H).
           destruct (seek_until_released_pulses _ _ _ _ _ _ _ _ H5 L4
                       ltac:(unfold POST_HIT_ESCAPE_STEPS in *; lia))
             as (L5 & M5 & T5 & F5).
           destruct ok3; cbn [negb] in H.
           ++ destruct (T5 eq_refl) as (A5 & B5).
              apply bind_inv in H. destruct H as ([] & s6 & H6 & H).
              pulse_kept H6.
              apply ret_inv in H. destruct H as (E & ->).
              injection E as -> ->.
              split; [congruence|]. split; [|discriminate]. intros _.
              assert (E3 : estop s3 = false) by congruence.
              split; [|split].
              ** rewrite Ks1. unfold POST_HIT_ESCAPE_STEPS in *. lia.
              ** unfold POST_HIT_ESCAPE_STEPS in *. lia.
              ** rewrite Ke1. apply B5, C4, E3.
           ++ apply ret_inv in H. destruct H as (E & ->).
              injection E as -> ->.
              split; [exact L5|]. split; [discriminate|]. intros _.
              apply F5. reflexivity.
        -- apply ret_inv in H. destruct H as (E & ->). injection E as -> ->.
           split; [exact L4|]. split; [discriminate|]. intros _.
           left. apply F4. reflexivity.
      * destruct (IH _ _ _ _ _ _ _ H Hl3 ltac:(lia)) as (L4 & T4 & F4).
        split; [exact L4|]. split; [|exact F4].
        intros Hok. destruct (T4 Hok) as (A & B & C).
        split; [|split; [lia | exact C]].
        rewrite Ks0, T1, Ks in A. lia.
  - destruct (F eq_refl) as (F1 & _).
    apply bind_inv in H. destruct H as ([] & s3 & H3 & H).
    pulse_kept H3.
    apply ret_inv in H. destruct H as (E & ->). injection E as -> ->.
    split; [congruence|]. split; [discriminate|]. intros _. left. congruence.
Qed.


Lemma seek_pulse_count (s : State) (ok : bool) (g : Z) (s' : State) :
  pul_level (hw s) = LOW ->
  seekNextPressEventCCW s = Some ((ok, g), s') ->
  (ok = true ->
   step_edges (hw s') = step_edges (hw s) + g /\
   POST_HIT_ESCAPE_STEPS < g /\
   estop s' = false) /\
  (ok = false -> estop s' = true \/ MAX_STEPS_TO_FIND_INDEX < g) /\
  en_level (hw s') = HIGH /\
  pul_level (hw s') = LOW.
Proof.
  intros Hl H.
  pose proof (seek_releases _ _ _ H) as Hen.
  unfold seekNextPressEventCCW in H.
  apply bind_inv in H. destruct H as ([] & s1 & H1 & H). pulse_kept H1.
  apply bind_inv in H. destruct H as ([] & s2 & H2 & H). pulse_kept H2.
  apply bind_inv in H. destruct H as ([ok1 sm1] & s3 & H3 & H).
  assert (Hl2 : pul_level (hw s2) = LOW) by congruence.
  destruct (seek_until_released_pulses _ _ _ _ _ _ _ _ H3 Hl2 ltac:(lia))
    as (L3 & M3 & T3 & F3).
  destruct ok1; cbn [negb] in H.
  - destruct (T3 eq_refl) as (A3 & B3).
    destruct (seek_until_pressed_pulses _ _ _ _ _ _ _ _ H L3 ltac:(lia))
      as (L4 & T4 & F4).
    split; [|split; [exact F4 | split; [exact Hen | exact L4]]].
    intros Hok. destruct (T4 Hok) as (A & B & C).
    split; [|split; [lia | exact C]].
    rewrite Ks0, Ks in A3. lia.
  - apply ret_inv in H. destruct H as (E & ->). injection E as -> ->.
    split; [discriminate|]. split; [intros _; apply F3; reflexivity|].
    split; [exact Hen | exact L3].
Qed.

(** X13.  A seek, PUL being low before.  On success the value of
    [stepsMoved] is the number of step pulses issued, more than the 30 of
    the escape, and the latch is clear.  It fails only with the latch set
    or with [stepsMoved] beyond the guard.  Every exit disables the
    driver. *)
Theorem seek_accounting (s : State) (ok : bool) (g : Z) (s' : State) :
  pul_level (hw s) = LOW ->
  seekNextPressEventCCW s = Some ((ok, g), s') ->
  (ok = true ->
   step_edges (hw s') = step_edges (hw s) + g /\
   POST_HIT_ESCAPE_STEPS < g /\
   estop s' = false) /\
  (ok = false -> estop s' = true \/ MAX_STEPS_TO_FIND_INDEX < g) /\
  en_level (hw s') = HIGH /\
  pul_level (hw s') = LOW.
Proof. exact (seek_pulse_count s ok g s'). Qed.

(* ================================================================== *)
(** ** Confirmation of the index switch *)

(** Whether the [i]-th read of the index switch from state [s] on finds
    it pressed. *)
Definition index_pressed_at (s : State) (i : nat) : bool :=
  Bool.eqb (index_pin (world s) (i + index_reads (hw s))) INDEX_ACTIVE_LEVEL.

(** The state after [n] reads of the index switch. *)
Definition index_reads_done (n : nat) (s : State) : State :=
  Nat.iter n (upd_hw (hw_next IndexPort)) s.

(** X15.  [confirmPressed] reads the switch five times and holds exactly
    when all five reads find it pressed; [confirmReleased] reads it seven
    times and holds exactly when all seven find it released. One read that
    disagrees anywhere in the run makes the confirmation fail. *)
Theorem confirm_needs_every_read (s : State) :
  confirmPressed s
    = Some (forallb (index_pressed_at s) (seq 0 5), index_reads_done 5 s) /\
  confirmReleased s
    = Some (forallb (fun i => negb (index_pressed_at s i)) (seq 0 7),
            index_reads_done 7 s).
Proof.
  destruct s as [[ip bp ck rx ec cl] e n g q
                 [pl dl el tl se o ir br cr sp er lr]].
  split; vm_compute;
    repeat match goal with
           | |- context [ip ?k] => destruct (ip k)
           end; reflexivity.
Qed.

(* ================================================================== *)
(** ** Angles and echo widths *)

(** The distance that [pingDistanceCm] computes from an echo of [w]
    microseconds. *)
Definition echo_cm (w : Z) : F32.t :=
  F32.div (F32.mul (F32.of_Z w) (F32.lit 343 10000)) (F32.of_Z 2).

(** The width of the echo that the next ping will measure. *)
Definition echo_now (s : State) : Z :=
  u32 (echo_us (world s) (echo_reads (hw s))).

Lemma echo_cm_facts w :
  0 < w < US_ECHO_TIMEOUT_US ->
  F32.isnan (echo_cm w) = false /\
  F32.ltb (echo_cm w) INVENTORY_THRESH_CM = (w <? 700) /\
  F32.ltb (echo_cm w) (echo_cm (w + 1)) = true.
Proof.
  intros Hw.
  assert (H : all_below (Z.to_nat US_ECHO_TIMEOUT_US)
                (fun w => (w =? 0)
                          || (negb (F32.isnan (echo_cm w))
                              && Bool.eqb (F32.ltb (echo_cm w)
                                             INVENTORY_THRESH_CM)
                                          (w <? 700)
                              && F32.ltb (echo_cm w) (echo_cm (w + 1))))
              = true)
    by (vm_compute; reflexivity).
  pose proof (all_below_spec _ _ H w) as Hp. cbv beta in Hp.
  assert (Hr : 0 <= w < Z.of_nat (Z.to_nat US_ECHO_TIMEOUT_US)).
  { rewrite Z2Nat.id; [lia|]. vm_compute. discriminate. }
  specialize (Hp Hr).
  replace (w =? 0) with false in Hp by (symmetry; apply Z.eqb_neq; lia).
  cbn [orb] in Hp.
  apply andb_true_iff in Hp. destruct Hp as (Hp & H3).
  apply andb_true_iff in Hp. destruct Hp as (H1 & H2).
  apply negb_true_iff in H1. apply eqb_prop in H2. auto.
Qed.

(** X16.  One ping. It returns NAN exactly when no echo completes within
    the timeout. Otherwise the distance is a number, smaller than the one
    that an echo one microsecond longer would give, and it is below the
    inventory threshold of 12 cm exactly when the echo is shorter than 700
    microseconds. A ping issues no step pulse, leaves TRIG low and does
    not touch the latch. *)
Theorem pingDistanceCm_result (s : State) :
  exists d s',
    pingDistanceCm s = Some (d, s') /\
    (F32.isnan d = true <->
     echo_now s = 0 \/ US_ECHO_TIMEOUT_US <= echo_now s) /\
    (F32.isnan d = false ->
     d = echo_cm (echo_now s) /\
     F32.ltb d INVENTORY_THRESH_CM = (echo_now s <? 700) /\
     F32.ltb d (echo_cm (echo_now s + 1)) = true) /\
    step_edges (hw s') = step_edges (hw s) /\
    trig_level (hw s') = LOW /\
    estop s' = estop s.
Proof.
  unfold pingDistanceCm.
  assert (Hu : 0 <= echo_now s) by (unfold echo_now, u32; apply Z.mod_pos_bound; lia).
  set (w := echo_now s) in *.
  destruct (w <? US_ECHO_TIMEOUT_US) eqn:Et.
  - apply Z.ltb_lt in Et.
    destruct (w =? 0) eqn:E0.
    + apply Z.eqb_eq in E0.
      exists F32.NAN. eexists. split.
      { unfold bind, digitalWrite, modify, pulseIn_ECHO. cbn.
        fold (echo_now s). fold w.
        replace (w <? US_ECHO_TIMEOUT_US) with true
          by (symmetry; apply Z.ltb_lt; exact Et).
        rewrite E0. reflexivity. }
      split; [split; [auto | reflexivity]|].
      split; [discriminate|].
      destruct s as [? ? ? ? ? []]. cbn. auto.
    + apply Z.eqb_neq in E0.
      destruct (echo_cm_facts w ltac:(lia)) as (F1 & F2 & F3).
      exists (echo_cm w). eexists. split.
      { unfold bind, digitalWrite, modify, pulseIn_ECHO. cbn.
        fold (echo_now s). fold w.
        replace (w <? US_ECHO_TIMEOUT_US) with true
          by (symmetry; apply Z.ltb_lt; exact Et).
        replace (w =? 0) with false by (symmetry; apply Z.eqb_neq; exact E0).
        reflexivity. }
      split; [split; [rewrite F1; discriminate | lia]|].
      split; [auto|].
      destruct s as [? ? ? ? ? []]. cbn. auto.
  - apply Z.ltb_ge in Et.
    exists F32.NAN. eexists. split.
    { unfold bind, digitalWrite, modify, pulseIn_ECHO. cbn.
      fold (echo_now s). fold w.
      replace (w <? US_ECHO_TIMEOUT_US) with false
        by (symmetry; apply Z.ltb_ge; exact Et).
      reflexivity. }
    split; [split; [auto | reflexivity]|].
    split; [discriminate|].
    destruct s as [? ? ? ? ? []]. cbn. auto.
Qed.

(** X17.  [degToSteps] on a whole number of degrees, within four turns of
    zero: the angle is brought into [0, 360) and turned into microsteps,
    rounded to the nearest. *)
Theorem degToSteps_rounds (d : Z) :
  -1440 <= d < 1440 ->
  degToSteps (F32.of_Z d)
    = ((d mod 360) * STEPS_PER_REV + 180) / 360.
Proof.
  intros Hd.
  assert (H : all_below 2880
                (fun k => degToSteps (F32.of_Z (k - 1440))
                          =? (((k - 1440) mod 360) * STEPS_PER_REV + 180)
                             / 360) = true)
    by (vm_compute; reflexivity).
  pose proof (all_below_spec _ _ H (d + 1440) ltac:(lia)) as Hp.
  cbv beta in Hp. apply Z.eqb_eq in Hp.
  replace (d + 1440 - 1440) with d in Hp by lia. exact Hp.
Qed.

(* ================================================================== *)
(** ** Step pulses of a move by one bin *)

(** The offset from the notch to the stop, in microsteps: 31 - 18 = 13
    degrees of the 1600 microsteps of a turn. *)
Definition OFFSET_STEPS : Z := 58.

Lemma offset_steps_eq v :
  degToSteps (F32.add (INDEX_TO_STOP_DEG v) TRIM_DEG) = OFFSET_STEPS.
Proof. destruct v; vm_compute; reflexivity. Qed.

Lemma applyIndexOffset_pulse_count v s ok s' :
  pul_level (hw s) = LOW ->
  applyIndexOffset v s = Some (ok, s') ->
  (ok = true -> step_edges (hw s') = step_edges (hw s) + OFFSET_STEPS) /\
  (ok = false ->
   estop s' = true /\
   step_edges (hw s) <= step_edges (hw s')
     <= step_edges (hw s) + OFFSET_STEPS) /\
  en_level (hw s') = HIGH /\
  pul_level (hw s') = LOW.
Proof.
  intros Hl H. unfold applyIndexOffset in H. rewrite offset_steps_eq in H.
  change (0 <? OFFSET_STEPS) with true in H. cbv iota in H.
  destruct (stepCCW_pulse_count _ _ _ _ _ Hl H) as (T & F & E & _ & L).
  change (Z.max 0 OFFSET_STEPS) with OFFSET_STEPS in T, F. auto.
Qed.

(** X18.  The offset that ends every move: 58 step pulses on success,
    fewer only when the latch stops it; the driver is disabled at the end. *)
Theorem applyIndexOffset_counts
    (v : Sketch) (s : State) (ok : bool) (s' : State) :
  pul_level (hw s) = LOW ->
  applyIndexOffset v s = Some (ok, s') ->
  (ok = true -> step_edges (hw s') = step_edges (hw s) + OFFSET_STEPS) /\
  (ok = false ->
   estop s' = true /\
   step_edges (hw s) <= step_edges (hw s')
     <= step_edges (hw s) + OFFSET_STEPS) /\
  en_level (hw s') = HIGH /\
  pul_level (hw s') = LOW.
Proof. exact (applyIndexOffset_pulse_count v s ok s'). Qed.

Lemma emit1_hw t s :
  pul_level (hw (upd_hw (hw_emit t) s)) = pul_level (hw s) /\
  step_edges (hw (upd_hw (hw_emit t) s)) = step_edges (hw s) /\
  en_level (hw (upd_hw (hw_emit t) s)) = en_level (hw s) /\
  estop (upd_hw (hw_emit t) s) = estop s.
Proof. destruct s as [? ? ? ? ? []]. cbn. auto. Qed.

(** At least [n] step pulses have been issued and PUL is low. *)
Definition Advanced (n : Z) (s : State) : Prop :=
  n <= step_edges (hw s) /\ pul_level (hw s) = LOW.

Lemma Advanced_soft n : Soft (Advanced n).
Proof. split; intros; try destruct p; assumption. Qed.

Lemma Advanced_pulse n d : Pres (Advanced n) (stepPulseChecked d).
Proof.
  intros s r s' H (Hn & Hl).
  destruct (stepPulseChecked_spec _ _ _ _ H Hl) as (L & T & F).
  split; [|exact L].
  destruct r; [destruct (T eq_refl) | destruct (F eq_refl)]; lia.
Qed.

Ltac advanced_side :=
  first [ apply Advanced_soft
        | apply Advanced_pulse
        | intros ? ? (? & ?); split; assumption
        | intros ? (? & ?); split; assumption ].

Lemma Advanced_seek n : Pres (Advanced n) seekNextPressEventCCW.
Proof. apply Pres_seekNextPressEventCCW; advanced_side. Qed.

Lemma Advanced_step n k d : Pres (Advanced n) (stepCCW k d).
Proof. apply Pres_stepCCW; advanced_side. Qed.

Lemma Advanced_moveOneBin n v : Pres (Advanced n) (moveOneBin v).
Proof.
  apply Pres_moveOneBin;
    first [ apply Advanced_soft | apply Advanced_seek
          | intros; apply Advanced_step ].
Qed.

(** X19.  A move by one bin that succeeds, PUL being low before: one seek
    and the offset, or, from bin 3, two seeks (the encoder notch, then the
    real notch of bin 0) and the offset. Each seek issues more than 30
    step pulses. A move that fails leaves [homed] and [currentBin] as they
    were, whatever it has issued. *)
Theorem moveOneBin_pulses
    (v : Sketch) (s : State) (ok : bool) (s' : State) :
  pul_level (hw s) = LOW ->
  moveOneBin v s = Some (ok, s') ->
  (ok = true ->
   exists g1 g2,
     POST_HIT_ESCAPE_STEPS < g1 <= SEEK_STEPS_MAX /\
     (if currentBin (nav s) =? 3
      then POST_HIT_ESCAPE_STEPS < g2 <= SEEK_STEPS_MAX else g2 = 0) /\
     step_edges (hw s') = step_edges (hw s) + g1 + g2 + OFFSET_STEPS) /\
  (ok = false ->
   homed (nav s') = homed (nav s) /\
   currentBin (nav s') = currentBin (nav s) /\
   step_edges (hw s) <= step_edges (hw s')) /\
  pul_level (hw s') = LOW.
Proof.
  intros Hl H.
  assert (A : Advanced (step_edges (hw s)) s') .
  { apply (Advanced_moveOneBin _ _ _ _ _ H). split; [lia | exact Hl]. }
  destruct A as (A1 & A2).
  pose proof (moveOneBin_spec _ _ _ _ H) as (_ & Hc & _).
  pose proof (Keeps_moveOneBin v _ _ _ H) as G.
  apply gq_view_fields in G. destruct G as (_ & _ & _ & Gh & _).
  split; [|split; [|exact A2]].
  2: { intros ->. auto. }
  intros ->. clear A1 A2 Hc Gh.
  unfold moveOneBin in H.
  apply bind_inv in H. destruct H as ([] & s0 & H0 & H).
  apply modify_inv in H0.
  assert (L0 : pul_level (hw s0) = LOW) by (subst s0; exact Hl).
  assert (E0 : step_edges (hw s0) = step_edges (hw s))
    by (subst s0; reflexivity).
  assert (Nc : currentBin (nav s0) = currentBin (nav s))
    by (subst s0; destruct s as [? ? [] ? ? ?]; reflexivity).
  clear H0. rewrite <- Nc, <- E0. clear Nc E0 Hl.
  minv; try congruence.
  - match goal with
    | H1 : seekNextPressEventCCW s0 = Some _ |- _ =>
        pose proof (seek_steps _ _ _ _ H1) as B1;
        destruct (seek_pulse_count _ _ _ _ L0 H1) as (T1 & _ & _ & L1)
    end.
    destruct (T1 eq_refl) as (P1 & Q1 & _).
    match goal with
    | H2 : seekNextPressEventCCW (upd_hw _ _) = Some _ |- _ =>
        pose proof (seek_steps _ _ _ _ H2) as B2;
        destruct ((fun L => seek_pulse_count _ _ _ _ L H2) L1)
          as (T2 & _ & _ & L2)
    end.
    destruct (T2 eq_refl) as (P2 & Q2 & _).
    match goal with
    | H3 : applyIndexOffset _ _ = Some _ |- _ =>
        destruct ((fun L => applyIndexOffset_pulse_count _ _ _ _ L H3) L2)
          as (T3 & _)
    end.
    specialize (T3 eq_refl). cbn [hw upd_hw upd_nav hw_emit step_edges] in P2, T3 |- *.
    exists z, z0. split; [lia|]. split; lia.
  - match goal with
    | H1 : seekNextPressEventCCW s0 = Some _ |- _ =>
        pose proof (seek_steps _ _ _ _ H1) as B1;
        destruct (seek_pulse_count _ _ _ _ L0 H1) as (T1 & _ & _ & L1)
    end.
    destruct (T1 eq_refl) as (P1 & Q1 & _).
    match goal with
    | H3 : applyIndexOffset _ _ = Some _ |- _ =>
        destruct ((fun L => applyIndexOffset_pulse_count _ _ _ _ L H3) L1)
          as (T3 & _)
    end.
    specialize (T3 eq_refl). cbn [hw upd_hw upd_nav hw_emit step_edges] in T3 |- *.
    exists z, 0. split; [lia|]. split; lia.
Qed.

(* ================================================================== *)
(** ** A homing run that fails *)

Lemma Keeps_home_sample n : forall gaps, Keeps ctl_view (home_sample n gaps).
Proof. induction n; intros gaps; cbn [home_sample]; keeps. Qed.

Lemma home_scan_failure v fuel : forall s s',
  home_scan v fuel s = Some (false, s') -> ctl_view s' = ctl_view s.
Proof.
  induction fuel as [|fuel IH]; intros s s' H; cbn [home_scan] in H;
    [discriminate|].
  minv; try discriminate; frame_facts.
  - unfold ctl_view. frame_rewrite. reflexivity.
  - apply IH in H. rewrite H. unfold ctl_view. frame_rewrite. reflexivity.
  - unfold ctl_view. frame_rewrite. reflexivity.
Qed.

(** The navigation variables after the assignments at the top of
    [homeRoutine]. *)
Definition nav_unhomed (n : Nav) : Nav :=
  mkNav false (-1) 0 (lastSelectedBin n) (moveOneBinCalls n).

Lemma homeRoutine_failed_fields v fuel s s' :
  homeRoutine v fuel s = Some (false, s') ->
  homed (nav s') = false /\ currentBin (nav s') = -1 /\
  lastSelectedBin (nav s') = lastSelectedBin (nav s) /\
  gate s' = gate s /\
  queue s' = match v with
             | CommandQueue => queue s
             | InventoryOutputs => mkQueue false false (-1)
             end.
Proof.
  intros H.
  unfold homeRoutine in H. minv; try discriminate;
    repeat match goal with
           | Hr : home_reset _ _ = _ |- _ =>
               rewrite home_reset_run in Hr; injection Hr as Hr; subst
           | Hs : home_sample _ _ _ = Some _ |- _ =>
               apply Keeps_home_sample, ctl_view_fields in Hs;
               destruct Hs as (? & ? & ? & ?)
           | Hs : home_scan _ _ _ = Some _ |- _ =>
               apply home_scan_failure, ctl_view_fields in Hs;
               destruct Hs as (? & ? & ? & ?)
           end; frame_facts; destruct v; cbn in *; frame_rewrite; cbn;
    frame_rewrite; cbn; auto.
Qed.

(** X20.  A homing run that fails leaves the carousel not homed,
    [currentBin] at -1 and [lastSelectedBin] as it was; the gate is
    untouched; the inventory-outputs sketch has dropped the queued
    requests. Until a homing run succeeds, [moveToBin] and
    [runInventorySequence] refuse without a step pulse. *)
Theorem homeRoutine_failure (v : Sketch) (fuel : nat) (s s' : State) :
  homeRoutine v fuel s = Some (false, s') ->
  homed (nav s') = false /\
  currentBin (nav s') = -1 /\
  lastSelectedBin (nav s') = lastSelectedBin (nav s) /\
  gate s' = gate s /\
  queue s' = match v with
             | CommandQueue => queue s
             | InventoryOutputs => mkQueue false false (-1)
             end /\
  (forall t,
     moveToBin v t s'
     = Some (false, emit [Txt "ERROR: Not homed. Use 'h' first."; NL] s')) /\
  (forall k drain,
     runInventorySequence v k drain s'
     = Some (false, emit [Txt "ERROR: Not homed."; NL] s')).
Proof.
  intros H.
  destruct (homeRoutine_failed_fields _ _ _ _ H) as (K1 & K2 & K3 & K4 & K5).
  repeat (split; [assumption|]). split.
  - intros t. apply moveToBin_not_homed. exact K1.
  - intros k drain.
    rewrite runInventorySequence_refused;
      unfold inventory_ready, inventory_refusal; rewrite K1; reflexivity.
Qed.

(** ** The median of a block of pings *)

(** The pins of the motor driver and the count of step pulses. *)
Definition motor_view (s : State) :=
  (pul_level (hw s), dir_level (hw s), en_level (hw s), step_edges (hw s)).

Definition Parked (m : bool * bool * bool * Z) (s : State) : Prop :=
  motor_view s = m.

Lemma Parked_soft m : Soft (Parked m).
Proof. split; intros; try destruct p; assumption. Qed.

Lemma Parked_ping m : Pres (Parked m) pingDistanceCm.
Proof.
  intros s r s' H Hs. unfold pingDistanceCm in H.
  apply bind_inv in H. destruct H as ([] & s1 & H1 & H).
  apply bind_inv in H. destruct H as ([] & s2 & H2 & H).
  apply bind_inv in H. destruct H as ([] & s3 & H3 & H).
  apply bind_inv in H. destruct H as (w & s4 & H4 & H).
  apply modify_inv in H1, H2, H3. subst s1 s2 s3.
  inversion H4; subst s4.
  assert (E : s' = upd_hw (hw_next EchoPort)
                     (upd_hw (hw_write TRIG_PIN LOW)
                        (upd_hw (hw_write TRIG_PIN HIGH)
                           (upd_hw (hw_write TRIG_PIN LOW) s)))).
  { destruct (w =? 0); apply ret_inv in H; apply H. }
  rewrite E. exact Hs.
Qed.

Lemma median_collect_spec fuel : forall acc s r s',
  median_collect fuel acc s = Some (r, s') ->
  Forall not_nan acc ->
  (List.length acc <= Z.to_nat US_BLOCK_SIZE)%nat ->
  match r with
  | None => estop s' = true
  | Some l =>
      List.length l = Z.to_nat US_BLOCK_SIZE /\ Forall not_nan l
  end.
Proof.
  induction fuel as [|fuel IH]; intros acc s r s' H Ha Hl;
    cbn [median_collect] in H; [discriminate|].
  change (Z.to_nat US_BLOCK_SIZE) with 7%nat in *.
  destruct (Z.of_nat (List.length acc) <? US_BLOCK_SIZE) eqn:E.
  - apply Z.ltb_lt in E. change US_BLOCK_SIZE with 7 in E.
    apply bind_inv in H. destruct H as ([] & s1 & H1 & H).
    apply bind_inv in H. destruct H as (e & s2 & H2 & H).
    apply gets_inv in H2. destruct H2 as (-> & ->).
    destruct (estop s1) eqn:Ee.
    + apply ret_inv in H. destruct H as (-> & ->). exact Ee.
    + apply bind_inv in H. destruct H as (d & s3 & H3 & H).
      apply IH in H; [exact H | |].
      * destruct (F32.isnan d) eqn:Ed; [exact Ha|].
        apply Forall_app. split; [exact Ha|].
        constructor; [exact Ed | constructor].
      * destruct (F32.isnan d); [exact Hl|].
        rewrite length_app. cbn [List.length]. lia.
  - apply Z.ltb_ge in E. change US_BLOCK_SIZE with 7 in E.
    apply ret_inv in H. destruct H as (-> & ->).
    split; [lia | exact Ha].
Qed.


(* ================================================================== *)
(** ** The re-arm timer and the clock value zero *)

(** [n] calls of [updateBeamDebounce]. *)
Fixpoint gate_passes (v : Sketch) (fuel n : nat) : M unit :=
  match n with
  | O => ret tt
  | S k => gate_passes v fuel k ;; updateBeamDebounce v fuel
  end.

(** The beam opens, debounced, at a reading of [millis()] that is 0. *)
Definition opening_at_zero (s : State) : Prop :=
  beamStableBlocked (gate s) = true /\
  gateLockout (gate s) = true /\
  beamLastRawBlocked (gate s) = false /\
  beam_raw_now s = false /\
  clock_now s = 0 /\
  BEAM_DEBOUNCE_MS <= u32 (0 - beamLastChangeMs (gate s)).

(** Locked out with the beam open and no opening time recorded. *)
Definition gate_stuck (g : Gate) : Prop :=
  gateLockout g = true /\ beamStableBlocked g = false /\
  beamLastRawBlocked g = false /\ gateOpenedAtMs g = 0.

(** The beam reads open from state [s] on. *)
Definition beam_stays_open (s : State) : Prop :=
  forall k, (beam_reads (hw s) <= k)%nat -> beam_pin (world s) k = HIGH.

Lemma stuck_pass v fuel s :
  gate_stuck (gate s) -> beam_stays_open s ->
  exists s',
    updateBeamDebounce v fuel s = Some (tt, s') /\
    gate s' = gate s /\ world s' = world s /\
    beam_reads (hw s') = S (beam_reads (hw s)) /\
    out (hw s') = out (hw s) /\ nav s' = nav s /\ queue s' = queue s /\
    estop s' = estop s /\ step_edges (hw s') = step_edges (hw s).
Proof.
  intros (G1 & G2 & G3 & G4) Hb.
  assert (Hr : beam_pin (world s) (beam_reads (hw s)) = HIGH)
    by (apply Hb; lia).
  destruct s as [w e n [sb lr lc gl go ip] q h]. cbn in *. subst.
  unfold updateBeamDebounce, beam_debounce, gate_rearm, beamBlockedRaw,
    digitalRead_BEAM, millis, bind, gets, modify, ret. cbn.
  rewrite Hr. cbn.
  destruct (BEAM_DEBOUNCE_MS <=? _); cbn;
    (eexists; split; [reflexivity|]); destruct h; cbn; auto 10.
Qed.

Lemma stuck_passes v fuel n : forall s,
  gate_stuck (gate s) -> beam_stays_open s ->
  exists s',
    gate_passes v fuel n s = Some (tt, s') /\
    gate s' = gate s /\ world s' = world s /\
    (beam_reads (hw s) <= beam_reads (hw s'))%nat /\
    out (hw s') = out (hw s) /\ nav s' = nav s /\ queue s' = queue s /\
    estop s' = estop s /\ step_edges (hw s') = step_edges (hw s).
Proof.
  induction n as [|n IH]; intros s Hg Hb; cbn [gate_passes].
  - exists s. split; [reflexivity|]. repeat split; auto.
  - destruct (IH s Hg Hb) as (s1 & H1 & A1 & A2 & A3 & A4 & A5 & A6 & A7 & A8).
    assert (Hg1 : gate_stuck (gate s1)) by (rewrite A1; exact Hg).
    assert (Hb1 : beam_stays_open s1).
    { intros k Hk. rewrite A2. apply Hb. lia. }
    destruct (stuck_pass v fuel s1 Hg1 Hb1)
      as (s2 & H2 & B1 & B2 & B3 & B4 & B5 & B6 & B7 & B8).
    exists s2. unfold bind. rewrite H1. split; [exact H2|].
    repeat split; try congruence. lia.
Qed.

(** X22.  The value 0 of [gateOpenedAtMs] means that no opening time is
    recorded. When the beam opens at a reading of [millis()] that is 0
    (the clock wraps to 0 every 2^32 ms), the opening time is lost: the
    message that announces the wait of two seconds is printed, but the
    gate stays locked out for as long as the beam stays open, whatever the
    clock reads, and the inventory never becomes pending. *)
Theorem rearm_lost_at_clock_zero
    (v : Sketch) (fuel n : nat) (s : State) :
  opening_at_zero s ->
  beam_stays_open s ->
  exists s1 s',
    updateBeamDebounce v fuel s = Some (tt, s1) /\
    out (hw s1)
      = out (hw s)
        ++ [Txt "GATE: OPEN. Waiting 2 seconds before allowing next step...";
            NL] /\
    gate_stuck (gate s1) /\
    gate_passes v fuel n s1 = Some (tt, s') /\
    gate s' = gate s1 /\
    gateLockout (gate s') = true /\
    inventoryPending (gate s') = inventoryPending (gate s) /\
    out (hw s') = out (hw s1) /\
    step_edges (hw s') = step_edges (hw s).
Proof.
  intros (O1 & O2 & O3 & O4 & O5 & O6) Hb.
  assert (Hr : beam_pin (world s) (beam_reads (hw s)) = HIGH)
    by (apply Hb; lia).
  assert (H1 : exists s1,
             updateBeamDebounce v fuel s = Some (tt, s1) /\
             out (hw s1)
               = out (hw s)
                 ++ [Txt "GATE: OPEN. Waiting 2 seconds before allowing next step...";
                     NL] /\
             gate_stuck (gate s1) /\ world s1 = world s /\
             (beam_reads (hw s) <= beam_reads (hw s1))%nat /\
             inventoryPending (gate s1) = inventoryPending (gate s) /\
             step_edges (hw s1) = step_edges (hw s)).
  { unfold clock_now in O5.
    destruct s as [w e nv [sb lr lc gl go ip] q h]. cbn in *. subst.
    unfold updateBeamDebounce, beam_debounce, gate_rearm, beamBlockedRaw,
      digitalRead_BEAM, millis, bind, gets, modify, ret. cbn.
    rewrite Hr. cbn. destruct h. cbn in *. rewrite O5. cbn.
    apply Z.leb_le in O6. rewrite O6. cbn.
    eexists. split; [reflexivity|]. cbn. rewrite <- app_assoc.
    unfold gate_stuck. cbn. auto 10. }
  destruct H1 as (s1 & H1 & A1 & A2 & A3 & A4 & A5 & A6).
  assert (Hb1 : beam_stays_open s1).
  { intros k Hk. rewrite A3. apply Hb. lia. }
  destruct (stuck_passes v fuel n s1 A2 Hb1)
    as (s' & H2 & B1 & B2 & B3 & B4 & B5 & B6 & B7 & B8).
  exists s1, s'. split; [exact H1|]. split; [exact A1|]. split; [exact A2|].
  split; [exact H2|]. split; [exact B1|].
  split; [rewrite B1; apply A2|]. split; [rewrite B1; exact A5|].
  split; [exact B4|]. congruence.
Qed.

(** ** An inventory request with nothing to inventory *)

(** X23.  The command [i] when no inventory is pending: the sketch only
    prints a message, yet the request stays queued (it is what later
    starts the inventory by itself when the gate re-arms). Nothing moves. *)
Theorem inventory_request_stays_queued
    (v : Sketch) (fuel : nat) (s : State) :
  inventoryPending (gate s) = false ->
  exists s',
    cmd_inventory v fuel s = Some (tt, s') /\
    inventoryRequested (queue s') = true /\
    binRequested (queue s') = binRequested (queue s) /\
    requestedBin (queue s') = requestedBin (queue s) /\
    nav s' = nav s /\ gate s' = gate s /\ estop s' = estop s /\
    step_edges (hw s') = step_edges (hw s) /\
    out (hw s')
      = out (hw s)
        ++ [Txt (if beamStableBlocked (gate s)
                 then "Gate is BLOCKED. Push bin fully in first."
                 else if gateLockout (gate s)
                 then "Gate re-arming. Will run inventory when READY."
                 else "Nothing to inventory right now.");
            NL; Txt "Enter command:"; NL].
Proof.
  intros Hp.
  destruct s as [w e nv [sb lr lc gl go ip] q h]. cbn in Hp. subst ip.
  unfold cmd_inventory, bind, gets, modify, println, print. cbn.
  destruct sb; [|destruct gl]; cbn;
    (eexists; split; [reflexivity|]); destruct q, h; cbn;
    rewrite <- ?app_assoc; cbn; auto 10.
Qed.

(* ================================================================== *)
(** ** The bin numbers stay in range *)

(** When the carousel is homed [currentBin] is a bin; [lastSelectedBin]
    is a bin or -1. *)
Definition bins_in_range (s : State) : Prop :=
  (homed (nav s) = true -> 0 <= currentBin (nav s) <= 3) /\
  -1 <= lastSelectedBin (nav s) <= 3.

Lemma bins_in_range_nav s s' :
  nav s' = nav s -> bins_in_range s -> bins_in_range s'.
Proof. unfold bins_in_range. intros ->. auto. Qed.

Lemma bins_moveBins v n : Pres bins_in_range (moveBins v n).
Proof.
  intros s r s' H (Hc & Hl).
  destruct (gq_view_fields _ _ (moveBins_gq _ _ _ _ _ H))
    as (_ & _ & _ & Fh & Fl & _).
  split; [|rewrite Fl; exact Hl].
  rewrite Fh. intros Hh. apply (moveBins_range _ _ _ _ _ H). auto.
Qed.

Lemma moveToBin_true_target v t s s' :
  moveToBin v t s = Some (true, s') -> 0 <= t <= 3.
Proof.
  unfold moveToBin. intros H. minv; try discriminate;
    match goal with
    | Hb : (_ || _) = false |- _ =>
        apply orb_false_iff in Hb; destruct Hb as (B1 & B2);
        apply Z.ltb_ge in B1, B2; lia
    end.
Qed.

Lemma bins_moveToBin v t : Pres bins_in_range (moveToBin v t).
Proof.
  intros s r s' H (Hc & Hl).
  destruct (gq_view_fields _ _ (moveToBin_gq _ _ _ _ _ H))
    as (_ & _ & _ & Fh & Fl & _).
  split; [|rewrite Fl; exact Hl].
  rewrite Fh. intros Hh.
  assert (Hok : nav_ok s) by (split; auto).
  apply (moveToBin_spec _ _ _ _ _ Hok H).
Qed.

Lemma bins_runInventorySequence v fuel drain :
  Pres bins_in_range drain ->
  Pres bins_in_range (runInventorySequence v fuel drain).
Proof.
  intros Hd s r s' H Hs. destruct r.
  - apply runInventorySequence_succeeded in H.
    destruct H as (_ & sa & d & sc & Hm & Hr & _ & Hdr).
    apply (Hd _ _ _ Hdr).
    destruct (inventory_reported_fields v d sc) as (_ & _ & Fn & _).
    apply (bins_in_range_nav sc); [exact Fn|].
    destruct (ctl_view_fields _ _ (readRobust_ctl _ _ _ _ Hr))
      as (_ & Fn2 & _).
    apply (bins_in_range_nav (emit inventory_measuring sa));
      [exact Fn2|].
    apply (bins_in_range_nav sa); [apply emit_nav|].
    apply (bins_moveBins _ _ _ _ _ Hm).
    apply (bins_in_range_nav s); [apply emit_nav | exact Hs].
  - apply runInventorySequence_failed in H.
    destruct H as (_ & [(_ & ->)|[(_ & Hm)|(_ & _ & sa & d & Hm & Hr)]]).
    + apply (bins_in_range_nav s); [apply emit_nav | exact Hs].
    + apply (bins_moveBins _ _ _ _ _ Hm).
      apply (bins_in_range_nav s); [apply emit_nav | exact Hs].
    + destruct (ctl_view_fields _ _ (readRobust_ctl _ _ _ _ Hr))
        as (_ & Fn2 & _).
      apply (bins_in_range_nav (emit inventory_measuring sa));
        [exact Fn2|].
      apply (bins_in_range_nav sa); [apply emit_nav|].
      apply (bins_moveBins _ _ _ _ _ Hm).
      apply (bins_in_range_nav s); [apply emit_nav | exact Hs].
Qed.

Lemma bins_tryRunQueuedCommands v fuel :
  Pres bins_in_range (tryRunQueuedCommands v fuel).
Proof.
  induction fuel as [|fuel IH]; intros s [] s' H Hs; [discriminate|].
  rewrite tryRunQueuedCommands_unfold in H.
  destruct (estop s).
  { apply Some_pair_inv in H. destruct H as (_ & <-). exact Hs. }
  destruct (inventory_allowed s).
  - destruct (runInventorySequence v fuel (tryRunQueuedCommands v fuel)
                (inventory_started s)) as [[ok sb]|] eqn:Er; [|discriminate].
    apply Some_pair_inv in H. destruct H as (_ & <-).
    destruct (inventory_returned_fields ok sb) as (_ & _ & _ & Fn).
    apply (bins_in_range_nav sb); [exact Fn|].
    apply (bins_runInventorySequence _ _ _ IH _ _ _ Er).
    apply (bins_in_range_nav s); [reflexivity | exact Hs].
  - destruct (bin_allowed s).
    + destruct (moveToBin v (requestedBin (queue s)) (bin_started s))
        as [[ok sb]|] eqn:Em; [|discriminate].
      apply Some_pair_inv in H. destruct H as (_ & <-).
      assert (Hb : bins_in_range sb).
      { apply (bins_moveToBin _ _ _ _ _ Em).
        apply (bins_in_range_nav s); [reflexivity | exact Hs]. }
      destruct ok.
      * pose proof (moveToBin_true_target _ _ _ _ Em) as Ht.
        destruct Hb as (Hc & Hl). split; [exact Hc|].
        unfold bin_returned. rewrite !emit_nav. cbn. lia.
      * apply (bins_in_range_nav sb); [|exact Hb].
        unfold bin_returned. rewrite !emit_nav. reflexivity.
    + apply Some_pair_inv in H. destruct H as (_ & <-). exact Hs.
Qed.

Lemma bins_updateBeamDebounce v fuel :
  Pres bins_in_range (updateBeamDebounce v fuel).
Proof.
  intros s [] s' H Hs. unfold updateBeamDebounce in H.
  apply bind_inv in H. destruct H as ([] & sm & Hd & H).
  apply bind_inv in H. destruct H as (fired & sr & Hr & H).
  destruct (beam_debounce_pending _ _ Hd) as (_ & Fn1 & _).
  destruct (gate_rearm_queue _ _ _ Hr) as (_ & Fn2 & _).
  assert (Hsr : bins_in_range sr).
  { apply (bins_in_range_nav s); [congruence | exact Hs]. }
  destruct fired.
  - apply (bins_tryRunQueuedCommands _ _ _ _ _ H Hsr).
  - apply ret_inv in H. destruct H as (_ & ->). exact Hsr.
Qed.

Lemma bins_homeRoutine v fuel : Pres bins_in_range (homeRoutine v fuel).
Proof.
  intros s r s' H (Hc & Hl). destruct r.
  - apply homeRoutine_success in H.
    destruct H as (first & gaps & s1 & s2 & _ & _ & _ & H).
    apply home_scan_success in H.
    destruct H as (sk & s3 & g & s4 & s5 & _ & _ & _ & _ & _ & ->).
    unfold home_done, bins_in_range. rewrite emit_nav. cbn. lia.
  - destruct (homeRoutine_failed_fields _ _ _ _ H) as (K1 & _ & K3 & _).
    split; [rewrite K1; discriminate | rewrite K3; exact Hl].
Qed.

Lemma bins_cmd_inventory v fuel : Pres bins_in_range (cmd_inventory v fuel).
Proof.
  intros s [] s' H Hs. unfold cmd_inventory in H.
  minv;
    try (eapply bins_in_range_nav; [|exact Hs]; reflexivity).
  all: match goal with
       | Hr : runInventorySequence _ _ _ _ = Some _ |- _ =>
           pose proof (bins_runInventorySequence _ _ _
                         (bins_tryRunQueuedCommands v fuel) _ _ _ Hr) as Hb
       end.
  all: eapply bins_in_range_nav; [|apply Hb]; [reflexivity|].
  all: eapply bins_in_range_nav; [|exact Hs]; reflexivity.
Qed.

Lemma bins_cmd_bin v fuel t : Pres bins_in_range (cmd_bin v fuel t).
Proof.
  intros s [] s' H Hs. unfold cmd_bin in H.
  apply bind_inv in H. destruct H as (gl & s0 & H0 & H).
  apply gets_inv in H0. destruct H0 as (-> & ->).
  destruct (gateLockout (gate s)).
  { minv. eapply bins_in_range_nav; [|exact Hs]. reflexivity. }
  apply bind_inv in H. destruct H as (ip & s0 & H0 & H).
  apply gets_inv in H0. destruct H0 as (-> & ->).
  destruct (inventoryPending (gate s)).
  { minv. eapply bins_in_range_nav; [|exact Hs]. reflexivity. }
  apply bind_inv in H. destruct H as ([] & s1 & H1 & H).
  apply print_inv in H1. subst s1.
  apply bind_inv in H. destruct H as ([] & s2 & H2 & H).
  apply println_inv in H2. subst s2.
  apply bind_inv in H. destruct H as (ok & sb & Hm & H).
  assert (Hb : bins_in_range sb).
  { apply (bins_moveToBin _ _ _ _ _ Hm).
    eapply bins_in_range_nav; [|exact Hs]. reflexivity. }
  apply bind_inv in H. destruct H as ([] & s3 & H3 & H).
  apply println_inv in H. subst s'.
  eapply bins_in_range_nav; [reflexivity|].
  destruct ok; cbn [negb] in H3.
  - pose proof (moveToBin_true_target _ _ _ _ Hm) as Ht.
    apply bind_inv in H3. destruct H3 as ([] & s4 & H4 & H3).
    apply modify_inv in H4. subst s4.
    apply bind_inv in H3. destruct H3 as ([] & s5 & H5 & H3).
    apply print_inv in H5. subst s5.
    apply bind_inv in H3. destruct H3 as (cur & s6 & H6 & H3).
    apply gets_inv in H6. destruct H6 as (-> & ->).
    apply bind_inv in H3. destruct H3 as ([] & s7 & H7 & H3).
    apply println_inv in H7. subst s7.
    apply bind_inv in H3. destruct H3 as ([] & s8 & H8 & H3).
    assert (Hb8 : bins_in_range s8).
    { apply (bins_updateBeamDebounce _ _ _ _ _ H8).
      destruct Hb as (Hc & Hl). split; [exact Hc|]. cbn. lia. }
    minv; (eapply bins_in_range_nav; [|exact Hb8]); reflexivity.
  - apply println_inv in H3. subst s3.
    eapply bins_in_range_nav; [|exact Hb]. reflexivity.
Qed.

Lemma bins_dispatch v fuel line : Pres bins_in_range (dispatch v fuel line).
Proof.
  intros s [] s' H Hs. unfold dispatch in H.
  destruct (equalsIgnoreCase line "e").
  { unfold doEstop, enableDriver, digitalWrite in H. minv.
    eapply bins_in_range_nav; [|exact Hs]. reflexivity. }
  destruct (equalsIgnoreCase line "h").
  { apply bind_inv in H. destruct H as ([] & s1 & H1 & H).
    apply println_inv in H1. subst s1.
    apply bind_inv in H. destruct H as (ok & s2 & H2 & H).
    assert (Hb : bins_in_range s2).
    { apply (bins_homeRoutine _ _ _ _ _ H2).
      eapply bins_in_range_nav; [|exact Hs]. reflexivity. }
    destruct ok; minv;
      (eapply bins_in_range_nav; [|exact Hb]); reflexivity. }
  destruct (equalsIgnoreCase line "i").
  { apply (bins_cmd_inventory _ _ _ _ _ H Hs). }
  destruct (parseBinCommand line) as [t|].
  - apply (bins_cmd_bin _ _ _ _ _ _ H Hs).
  - minv. eapply bins_in_range_nav; [|exact Hs]. reflexivity.
Qed.

Lemma bins_pollEstop : Pres bins_in_range pollEstop.
Proof.
  intros s [] s' H Hs. unfold pollEstop, Serial_drain in H.
  apply bind_inv in H. destruct H as (bytes & s1 & H1 & H).
  inversion H1; subst.
  destruct (existsb _ _); minv;
    (eapply bins_in_range_nav; [|exact Hs]); reflexivity.
Qed.

Lemma bins_loop v fuel : Pres bins_in_range (loop v fuel).
Proof.
  intros s [] s' H Hs. unfold loop in H.
  apply bind_inv in H. destruct H as ([] & s1 & H1 & H).
  assert (Hb1 : bins_in_range s1).
  { destruct v.
    - apply (bins_pollEstop _ _ _ H1 Hs).
    - apply ret_inv in H1. destruct H1 as (_ & ->). exact Hs. }
  apply bind_inv in H. destruct H as (e & s2 & H2 & H).
  apply gets_inv in H2. destruct H2 as (-> & ->).
  destruct (estop s1).
  { apply ret_inv in H. destruct H as (_ & ->). exact Hb1. }
  apply bind_inv in H. destruct H as ([] & s3 & H3 & H).
  apply (bins_updateBeamDebounce _ _ _ _ _ H3) in Hb1.
  apply bind_inv in H. destruct H as ([] & s4 & H4 & H).
  apply (bins_tryRunQueuedCommands _ _ _ _ _ H4) in Hb1.
  apply bind_inv in H. destruct H as (l & s5 & H5 & H).
  inversion H5; subst.
  assert (Hb5 : bins_in_range (upd_hw (hw_next LinePort) s4)).
  { eapply bins_in_range_nav; [|exact Hb1]. reflexivity. }
  destruct (cmd_line (world s4) (line_reads (hw s4))) as [raw|].
  - destruct (String.length (trim raw) =? 0)%nat.
    + clear H1 H3 H4 H5.
      minv. eapply bins_in_range_nav; [|exact Hb5]. reflexivity.
    + apply (bins_dispatch _ _ _ _ _ _ H Hb5).
  - destruct v.
    + apply ret_inv in H. destruct H as (_ & ->). exact Hb5.
    + apply (bins_pollEstop _ _ _ H Hb5).
Qed.

(** X24.  Whatever the passes of [loop] do, the bin numbers stay in range:
    when the carousel is homed [currentBin] is one of the four bins, and
    [lastSelectedBin] is one of the four bins or -1. *)
Theorem loop_keeps_bins_in_range
    (v : Sketch) (fuel n : nat) (s s' : State) :
  bins_in_range s ->
  Bench.loops v fuel n s = Some (tt, s') ->
  bins_in_range s'.
Proof.
  revert s'. induction n as [|n IH]; intros s' Hs H; cbn [Bench.loops] in H.
  - apply ret_inv in H. destruct H as (_ & ->). exact Hs.
  - apply bind_inv in H. destruct H as ([] & s1 & H1 & H).
    apply (bins_loop _ _ _ _ _ H). apply IH; assumption.
Qed.

(* ================================================================== *)
(** ** Runs of the further properties *)

(** Sixty characters arrive with the buffer empty. *)
Lemma readCommandLine_bounded_witness :
  let rx := repeat "x"%char 60 in
  let buf := @nil ascii in
  ((List.length buf <= CMD_BUF_LEN - 1)%nat) /\
  ((List.length (snd (readCommandLine rx buf)) <= CMD_BUF_LEN - 1)%nat).
Proof.
  intros rx buf.
  assert (H0 : (List.length buf <= CMD_BUF_LEN - 1)%nat)
    by (cbn; lia).
  split; [exact H0|].
  exact (readCommandLine_bounded rx buf H0).
Defined.

(** The line [bin2], ended by LF, CR and LF, with an [h] behind. *)
Lemma readCommandLine_line_witness :
  let line := list_ascii_of_string "bin2" in
  let rest := [CR; NEWLINE; "h"%char] in
  let buf := @nil ascii in
  (forallb stored_byte line = true) /\
  ((List.length buf <= CMD_BUF_LEN - 1)%nat) /\
  (readCommandLine (line ++ NEWLINE :: rest) buf
    = (true, swallow_eol rest, firstn (CMD_BUF_LEN - 1) (buf ++ line))).
Proof.
  intros line rest buf.
  assert (H0 : forallb stored_byte line = true)
    by (reflexivity).
  assert (H1 : (List.length buf <= CMD_BUF_LEN - 1)%nat)
    by (cbn; lia).
  split; [exact H0|].
  split; [exact H1|].
  exact (readCommandLine_line line rest buf H0 H1).
Defined.

(** The line [bin2] arrives in two parts. *)
Lemma readCommandLine_chunks_witness :
  let a := list_ascii_of_string "bi" in
  let b := list_ascii_of_string "n2" ++ [NEWLINE] in
  let buf := @nil ascii in
  (~ In NEWLINE a) /\
  (fst (readCommandLine a buf) = (false, []) /\
  readCommandLine (a ++ b) buf
    = readCommandLine b (snd (readCommandLine a buf))).
Proof.
  intros a b buf.
  assert (H0 : ~ In NEWLINE a)
    by (cbn; intros [H|[H|[]]]; discriminate H).
  split; [exact H0|].
  exact (readCommandLine_chunks a b buf H0).
Defined.

(** An [x] and a backspace. *)
Lemma readCommandLine_backspace_witness :
  let c := "x"%char in
  let rx := @nil ascii in
  let buf := @nil ascii in
  (stored_byte c = true) /\
  (readCommandLine (BS :: rx) [] = readCommandLine rx [] /\
  ((List.length buf < CMD_BUF_LEN - 1)%nat ->
   readCommandLine (c :: BS :: rx) buf = readCommandLine rx buf) /\
  ((List.length buf = CMD_BUF_LEN - 1)%nat ->
   readCommandLine (c :: BS :: rx) buf
     = readCommandLine rx (removelast buf))).
Proof.
  intros c rx buf.
  assert (H0 : stored_byte c = true)
    by (reflexivity).
  split; [exact H0|].
  exact (readCommandLine_backspace c rx buf H0).
Defined.

(** The line [Bin3] in a buffer that held other characters. *)
Lemma parseBinCommand_agree_witness :
  let s := "Bin3"%string in
  let junk := fun _ : nat => "x"%char in
  (~ In NUL (list_ascii_of_string s)) /\
  (trim s = s) /\
  (parseBinCommand_ino (c_mem (list_ascii_of_string s) junk)
    = parseBinCommand s).
Proof.
  intros s junk.
  assert (H0 : ~ In NUL (list_ascii_of_string s))
    by (cbn; intros [H|[H|[H|[H|[]]]]]; discriminate H).
  assert (H1 : trim s = s)
    by (reflexivity).
  split; [exact H0|].
  split; [exact H1|].
  exact (parseBinCommand_agree s junk H0 H1).
Defined.

(** Homed at bin 1 with the latch set. *)
Lemma latched_motion_fails_witness :
  let v := CommandQueue in
  let fuel := 5%nat in
  let s := set_estop true (Bench.homed_at 1 Bench.env_moves) in
  (estop s = true) /\
  (0 <= currentBin (nav s) <= 3) /\
  ((forall t r s',
     moveToBin v t s = Some (r, s') ->
     estop s' = true /\ step_edges (hw s') = step_edges (hw s) /\
     (r = true -> s' = emit [Txt "Already at BIN"; Num t; NL] s)) /\
  (forall drain r s',
     runInventorySequence v fuel drain s = Some (r, s') ->
     r = false /\ estop s' = true /\
     step_edges (hw s') = step_edges (hw s)) /\
  (forall d s',
     readRobustDistance4sCm fuel s = Some (d, s') ->
     d = F32.NAN /\ estop s' = true)).
Proof.
  intros v fuel s.
  assert (H0 : estop s = true)
    by (reflexivity).
  assert (H1 : 0 <= currentBin (nav s) <= 3)
    by (cbn; lia).
  split; [exact H0|].
  split; [exact H1|].
  exact (latched_motion_fails v fuel s H0 H1).
Defined.

(** The line [E] after power-on. *)
Lemma estop_command_halts_witness :
  let v := CommandQueue in
  let fuel := 5%nat in
  let line := "E"%string in
  let s := Bench.boot Bench.env_moves in
  (equalsIgnoreCase line "e" = true) /\
  (exists s1,
    dispatch v fuel line s = Some (tt, s1) /\
    estop s1 = true /\
    en_level (hw s1) = HIGH /\
    step_edges (hw s1) = step_edges (hw s) /\
    nav s1 = nav s /\
    forall n,
      Bench.loops v fuel n s1 = Some (tt, Nat.iter n (idle_pass v) s1)).
Proof.
  intros v fuel line s.
  assert (H0 : equalsIgnoreCase line "e" = true)
    by (reflexivity).
  split; [exact H0|].
  exact (estop_command_halts v fuel line s H0).
Defined.

(** Homed at bin 1 with the latch set, in the inventory-outputs sketch. *)
Lemma latch_kept_but_by_homing_witness :
  let v := InventoryOutputs in
  let fuel := 5%nat in
  let s := set_estop true (Bench.homed_at 1 Bench.env_moves) in
  (estop s = true) /\
  ((forall s', updateBeamDebounce v fuel s = Some (tt, s') ->
     estop s' = true /\ step_edges (hw s') = step_edges (hw s)) /\
  (forall n, tryRunQueuedCommands v (S n) s = Some (tt, s)) /\
  (forall line s',
     equalsIgnoreCase line "h" = false ->
     dispatch v fuel line s = Some (tt, s') ->
     estop s' = true /\ step_edges (hw s') = step_edges (hw s)) /\
  loop v fuel s = Some (tt, idle_pass v s)).
Proof.
  intros v fuel s.
  assert (H0 : estop s = true)
    by (reflexivity).
  split; [exact H0|].
  exact (latch_kept_but_by_homing v fuel s H0).
Defined.

(** The session of [Bench.env_estop_then_home]: six passes with a homing
    run, a queued inventory stopped by [e], and a second homing run. *)
Lemma loop_leaves_pins_idle_witness :
  let v := CommandQueue in
  let fuel := 20%nat in
  let n := 6%nat in
  let s := Bench.boot Bench.env_estop_then_home in
  let s' := snd (Bench.run (Bench.loops v fuel n) s tt) in
  (idle_pins s) /\
  (Bench.loops v fuel n s = Some (tt, s')) /\
  (idle_pins s').
Proof.
  intros v fuel n s s'.
  assert (H0 : idle_pins s)
    by (repeat split; reflexivity).
  assert (H1 : Bench.loops v fuel n s = Some (tt, s'))
    by (vm_compute; reflexivity).
  split; [exact H0|].
  split; [exact H1|].
  exact (loop_leaves_pins_idle v fuel n s s' H0 H1).
Defined.

(** A burst of five steps. *)
Lemma stepCCW_counts_witness :
  let n := 5 in
  let d := SEEK_DELAY_US in
  let s := Bench.boot Bench.env_moves in
  let ok := fst (Bench.run (stepCCW n d) s false) in
  let s' := snd (Bench.run (stepCCW n d) s false) in
  (pul_level (hw s) = LOW) /\
  (stepCCW n d s = Some (ok, s')) /\
  ((ok = true -> step_edges (hw s') = step_edges (hw s) + Z.max 0 n) /\
  (ok = false ->
   estop s' = true /\
   step_edges (hw s) <= step_edges (hw s')
     <= step_edges (hw s) + Z.max 0 n) /\
  en_level (hw s') = HIGH /\
  dir_level (hw s') = CCW_DIR_LEVEL /\
  pul_level (hw s') = LOW).
Proof.
  intros n d s ok s'.
  assert (H0 : pul_level (hw s) = LOW)
    by (reflexivity).
  assert (H1 : stepCCW n d s = Some (ok, s'))
    by (vm_compute; reflexivity).
  split; [exact H0|].
  split; [exact H1|].
  exact (stepCCW_counts n d s ok s' H0 H1).
Defined.

(** The first seek of a homing run on the bench. *)
Lemma seek_accounting_witness :
  let s := Bench.boot Bench.env_homing in
  let ok := fst (fst (Bench.run seekNextPressEventCCW s (false, 0))) in
  let g := snd (fst (Bench.run seekNextPressEventCCW s (false, 0))) in
  let s' := snd (Bench.run seekNextPressEventCCW s (false, 0)) in
  (pul_level (hw s) = LOW) /\
  (seekNextPressEventCCW s = Some ((ok, g), s')) /\
  ((ok = true ->
   step_edges (hw s') = step_edges (hw s) + g /\
   POST_HIT_ESCAPE_STEPS < g /\
   estop s' = false) /\
  (ok = false -> estop s' = true \/ MAX_STEPS_TO_FIND_INDEX < g) /\
  en_level (hw s') = HIGH /\
  pul_level (hw s') = LOW).
Proof.
  intros s ok g s'.
  assert (H0 : pul_level (hw s) = LOW)
    by (reflexivity).
  assert (H1 : seekNextPressEventCCW s = Some ((ok, g), s'))
    by (vm_compute; reflexivity).
  split; [exact H0|].
  split; [exact H1|].
  exact (seek_accounting s ok g s' H0 H1).
Defined.

(** 347 degrees backwards are 13 degrees forwards: 58 microsteps. *)
Lemma degToSteps_rounds_witness :
  let d := -347 in
  (-1440 <= d < 1440) /\
  (degToSteps (F32.of_Z d)
    = ((d mod 360) * STEPS_PER_REV + 180) / 360).
Proof.
  intros d.
  assert (H0 : -1440 <= d < 1440)
    by (lia).
  split; [exact H0|].
  exact (degToSteps_rounds d H0).
Defined.

(** The offset in the inventory-outputs sketch. *)
Lemma applyIndexOffset_counts_witness :
  let v := InventoryOutputs in
  let s := Bench.boot Bench.env_moves in
  let ok := fst (Bench.run (applyIndexOffset v) s false) in
  let s' := snd (Bench.run (applyIndexOffset v) s false) in
  (pul_level (hw s) = LOW) /\
  (applyIndexOffset v s = Some (ok, s')) /\
  ((ok = true -> step_edges (hw s') = step_edges (hw s) + OFFSET_STEPS) /\
  (ok = false ->
   estop s' = true /\
   step_edges (hw s) <= step_edges (hw s')
     <= step_edges (hw s) + OFFSET_STEPS) /\
  en_level (hw s') = HIGH /\
  pul_level (hw s') = LOW).
Proof.
  intros v s ok s'.
  assert (H0 : pul_level (hw s) = LOW)
    by (reflexivity).
  assert (H1 : applyIndexOffset v s = Some (ok, s'))
    by (vm_compute; reflexivity).
  split; [exact H0|].
  split; [exact H1|].
  exact (applyIndexOffset_counts v s ok s' H0 H1).
Defined.

(** From bin 3 to bin 0: two seeks and the offset. *)
Lemma moveOneBin_pulses_witness :
  let v := CommandQueue in
  let s := Bench.homed_at 3 Bench.env_moves in
  let ok := fst (Bench.run (moveOneBin v) s false) in
  let s' := snd (Bench.run (moveOneBin v) s false) in
  (pul_level (hw s) = LOW) /\
  (moveOneBin v s = Some (ok, s')) /\
  ((ok = true ->
   exists g1 g2,
     POST_HIT_ESCAPE_STEPS < g1 <= SEEK_STEPS_MAX /\
     (if currentBin (nav s) =? 3
      then POST_HIT_ESCAPE_STEPS < g2 <= SEEK_STEPS_MAX else g2 = 0) /\
     step_edges (hw s') = step_edges (hw s) + g1 + g2 + OFFSET_STEPS) /\
  (ok = false ->
   homed (nav s') = homed (nav s) /\
   currentBin (nav s') = currentBin (nav s) /\
   step_edges (hw s) <= step_edges (hw s')) /\
  pul_level (hw s') = LOW).
Proof.
  intros v s ok s'.
  assert (H0 : pul_level (hw s) = LOW)
    by (reflexivity).
  assert (H1 : moveOneBin v s = Some (ok, s'))
    by (vm_compute; reflexivity).
  split; [exact H0|].
  split; [exact H1|].
  exact (moveOneBin_pulses v s ok s' H0 H1).
Defined.

(** A homing run stopped by an [e] on the serial port. *)
Lemma homeRoutine_failure_witness :
  let v := InventoryOutputs in
  let fuel := 5%nat in
  let s := upd_queue (fun _ => mkQueue true true 2)
             (Bench.boot (Bench.env (Bench.index_script Bench.homing_events)
                            [] [0] [100%nat] [] [])) in
  let s' := snd (Bench.run (homeRoutine v fuel) s true) in
  (homeRoutine v fuel s = Some (false, s')) /\
  (homed (nav s') = false /\
  currentBin (nav s') = -1 /\
  lastSelectedBin (nav s') = lastSelectedBin (nav s) /\
  gate s' = gate s /\
  queue s' = match v with
             | CommandQueue => queue s
             | InventoryOutputs => mkQueue false false (-1)
             end /\
  (forall t,
     moveToBin v t s'
     = Some (false, emit [Txt "ERROR: Not homed. Use 'h' first."; NL] s')) /\
  (forall k drain,
     runInventorySequence v k drain s'
     = Some (false, emit [Txt "ERROR: Not homed."; NL] s'))).
Proof.
  intros v fuel s s'.
  assert (H0 : homeRoutine v fuel s = Some (false, s'))
    by (vm_compute; reflexivity).
  split; [exact H0|].
  exact (homeRoutine_failure v fuel s s' H0).
Defined.


(** The beam has read open since 20 ms before the clock wraps. *)
Lemma rearm_lost_at_clock_zero_witness :
  let v := CommandQueue in
  let fuel := 5%nat in
  let n := 3%nat in
  let s := upd_gate (fun _ => mkGate true false (2 ^ 32 - 20) true 0 false)
             (Bench.boot (Bench.env [] [] [0; 1000; 5000; 9000] [] [] [])) in
  (opening_at_zero s) /\
  (beam_stays_open s) /\
  (exists s1 s',
    updateBeamDebounce v fuel s = Some (tt, s1) /\
    out (hw s1)
      = out (hw s)
        ++ [Txt "GATE: OPEN. Waiting 2 seconds before allowing next step...";
            NL] /\
    gate_stuck (gate s1) /\
    gate_passes v fuel n s1 = Some (tt, s') /\
    gate s' = gate s1 /\
    gateLockout (gate s') = true /\
    inventoryPending (gate s') = inventoryPending (gate s) /\
    out (hw s') = out (hw s1) /\
    step_edges (hw s') = step_edges (hw s)).
Proof.
  intros v fuel n s.
  assert (H0 : opening_at_zero s)
    by (repeat split; try reflexivity; vm_compute; discriminate).
  assert (H1 : beam_stays_open s)
    by (intros k _; cbn; destruct k; reflexivity).
  split; [exact H0|].
  split; [exact H1|].
  exact (rearm_lost_at_clock_zero v fuel n s H0 H1).
Defined.

(** The command [i] right after power-on. *)
Lemma inventory_request_stays_queued_witness :
  let v := CommandQueue in
  let fuel := 5%nat in
  let s := Bench.boot Bench.env_moves in
  (inventoryPending (gate s) = false) /\
  (exists s',
    cmd_inventory v fuel s = Some (tt, s') /\
    inventoryRequested (queue s') = true /\
    binRequested (queue s') = binRequested (queue s) /\
    requestedBin (queue s') = requestedBin (queue s) /\
    nav s' = nav s /\ gate s' = gate s /\ estop s' = estop s /\
    step_edges (hw s') = step_edges (hw s) /\
    out (hw s')
      = out (hw s)
        ++ [Txt (if beamStableBlocked (gate s)
                 then "Gate is BLOCKED. Push bin fully in first."
                 else if gateLockout (gate s)
                 then "Gate re-arming. Will run inventory when READY."
                 else "Nothing to inventory right now.");
            NL; Txt "Enter command:"; NL]).
Proof.
  intros v fuel s.
  assert (H0 : inventoryPending (gate s) = false)
    by (reflexivity).
  split; [exact H0|].
  exact (inventory_request_stays_queued v fuel s H0).
Defined.

(** Three passes from power-on, the first of which homes the carousel. *)
Lemma loop_keeps_bins_in_range_witness :
  let v := InventoryOutputs in
  let fuel := 20%nat in
  let n := 3%nat in
  let s := Bench.boot Bench.env_estop_then_home in
  let s' := snd (Bench.run (Bench.loops v fuel n) s tt) in
  (bins_in_range s) /\
  (Bench.loops v fuel n s = Some (tt, s')) /\
  (bins_in_range s').
Proof.
  intros v fuel n s s'.
  assert (H0 : bins_in_range s)
    by (split; [intros H; discriminate H | cbn; lia]).
  assert (H1 : Bench.loops v fuel n s = Some (tt, s'))
    by (vm_compute; reflexivity).
  split; [exact H0|].
  split; [exact H1|].
  exact (loop_keeps_bins_in_range v fuel n s s' H0 H1).
Defined.
